(** * crushtool: the CRUSH map compiler and decompiler (src/crushtool.cc)

    A shallow embedding of the text-to-map compiler ([parse_device],
    [parse_bucket_type], [parse_bucket], [parse_rule], [parse_crush],
    [compile_crush_file]), of the decompiler ([decompile_crush]) and of the
    command line driver ([main]), followed by the properties established
    about them.

    Conventions of the embedding:
    - a C [int] is a [Z]; the conversions that can leave the range of the
      type ([long] to [int], [unsigned] to [int], [float] to [unsigned])
      are written out;
    - a C [float] is a [spec_float] used at precision 24 and maximal
      exponent 128 (IEEE binary32), a [double] one used at precision 53
      and maximal exponent 1024;
    - a [std::map] is a [gmap], a [std::set] a [gset], a [std::vector] a
      list;
    - the global tables of the compiler, the map under construction and the
      two standard streams are threaded through a state and exit monad. *)

From Stdlib Require Import ZArith QArith Qround String Ascii List Bool Lia DecimalString.
From Stdlib Require Import Floats.SpecFloat.
From stdpp Require Import gmap strings list.

Open Scope string_scope.
Open Scope list_scope.
Open Scope Z_scope.

(** ** C numbers *)

Module CNum.

(** [(int)] applied to a wider integer: reduction modulo 2^32 into the
    signed range. *)
Definition to_int (z : Z) : Z := (z + 2 ^ 31) mod 2 ^ 32 - 2 ^ 31.

Definition LONG_MAX : Z := 2 ^ 63 - 1.
Definition LONG_MIN : Z := - 2 ^ 63.

Definition is_space (c : ascii) : bool :=
  let n := nat_of_ascii c in
  (Nat.eqb n 32 || (Nat.leb 9 n && Nat.leb n 13))%bool.

Definition is_digit (c : ascii) : bool :=
  let n := nat_of_ascii c in (Nat.leb 48 n && Nat.leb n 57)%bool.

Definition digit_val (c : ascii) : Z := Z.of_nat (nat_of_ascii c) - 48.

Fixpoint skip_space (s : string) : string :=
  match s with
  | String c r => if is_space c then skip_space r else s
  | EmptyString => s
  end.

(** Reads the longest run of decimal digits at the head of [s]: the value
    accumulated on top of [acc], how many digits were read, and the rest
    of the text. *)
Fixpoint read_digits (s : string) (acc : Z) (n : nat) : Z * nat * string :=
  match s with
  | String c r =>
      if is_digit c then read_digits r (10 * acc + digit_val c) (S n)
      else (acc, n, s)
  | EmptyString => (acc, n, s)
  end.

Definition read_sign (s : string) : bool * string :=
  match s with
  | String "-" r => (true, r)
  | String "+" r => (false, r)
  | _ => (false, s)
  end.

(** [strtol(s, 0, 10)]: leading white space, an optional sign, decimal
    digits; no digit gives 0; the result saturates at the bounds of
    [long]. *)
Definition strtol (s : string) : Z :=
  let '(neg, r) := read_sign (skip_space s) in
  let '(v, _, _) := read_digits r 0 0 in
  let v := if neg then - v else v in
  Z.max LONG_MIN (Z.min LONG_MAX v).

(** *** binary32 and binary64 *)

Definition float := spec_float.
Definition double := spec_float.

Definition fprec : Z := 24.
Definition femax : Z := 128.
Definition dprec : Z := 53.
Definition demax : Z := 1024.

(** [(float) z] for an integer [z]: the nearest binary32 value. *)
Definition float_of_int (z : Z) : float := binary_normalize fprec femax z 0 false.

Definition fmul : float -> float -> float := SFmul fprec femax.
Definition fadd : float -> float -> float := SFadd fprec femax.
Definition fdiv : float -> float -> float := SFdiv fprec femax.
Definition fltb : float -> float -> bool := SFltb.

(** The usual arithmetic conversions between the two formats: widening
    is exact, narrowing rounds to nearest even. *)
Definition double_of_float (f : float) : double :=
  match f with
  | S754_finite s m e => binary_round dprec demax s m e
  | _ => f
  end.

Definition float_of_double (d : double) : float :=
  match d with
  | S754_finite s m e => binary_round fprec femax s m e
  | _ => d
  end.

Definition dsub : double -> double -> double := SFsub dprec demax.
Definition dltb : double -> double -> bool := SFltb.
Definition done : double := binary_round dprec demax false 1 0.
Definition fone : float := binary_round fprec femax false 1 0.
Definition fzero : float := S754_zero false.

(** The decimal literal at the head of a text, as [strtof] reads it:
    sign, integer digits, an optional fraction, an optional exponent.
    The literal denotes [(-1)^neg * mant * 10^exp10]; [None] when there is
    no digit to convert. Hexadecimal literals and the words for
    infinities and NaN are not decimal numbers and are not read. *)
Definition read_exponent (s : string) : Z :=
  match s with
  | String c r =>
      if (Ascii.eqb c "e" || Ascii.eqb c "E")%bool then
        let '(neg, r') := read_sign r in
        let '(v, n, _) := read_digits r' 0 0 in
        match n with
        | O => 0
        | _ => if neg then - v else v
        end
      else 0
  | EmptyString => 0
  end.

Definition read_decimal (s : string) : option (bool * Z * Z) :=
  let '(neg, r) := read_sign (skip_space s) in
  let '(ip, n1, r1) := read_digits r 0 0 in
  let '(m, n2, r2) :=
    match r1 with
    | String "." r' => read_digits r' ip 0
    | _ => (ip, O, r1)
    end in
  match n1, n2 with
  | O, O => None
  | _, _ => Some (neg, m, read_exponent r2 - Z.of_nat n2)
  end.

(** The binary32 value nearest to [(-1)^neg * m * 10^e] (ties to even). *)
Definition float_of_decimal (neg : bool) (m e : Z) : float :=
  match m with
  | Zpos p =>
      match e with
      | Zneg q => fdiv (S754_finite neg p 0) (S754_finite false (10 ^ q)%positive 0)
      | _ => binary_round fprec femax neg (p * Z.to_pos (10 ^ e))%positive 0
      end
  | _ => S754_zero neg
  end.

(** [strtof(s, 0)] on decimal input; 0 when nothing can be converted. *)
Definition strtof (s : string) : float :=
  match read_decimal s with
  | Some (neg, m, e) => float_of_decimal neg m e
  | None => fzero
  end.

(** [(unsigned) f]: the fractional part is discarded; the conversion is
    undefined ([None]) when the truncated value is not an [unsigned]. *)
Definition float_to_unsigned (f : float) : option Z :=
  match f with
  | S754_zero _ => Some 0
  | S754_finite s m e =>
      let t := Z.shiftl (Zpos m) e in
      if s then (if t =? 0 then Some 0 else None)
      else if t <? 2 ^ 32 then Some t else None
  | _ => None
  end.

(** [(unsigned)(f * 0x10000)] stored into an [int]: the 16.16 fixed
    point form of a weight or of an offload. *)
Definition fixed_of_float (f : float) : option Z :=
  to_int <$> float_to_unsigned (fmul f (float_of_int 65536)).

End CNum.

(** ** The parse tree handed over by the grammar

    [crush/grammar.h] is not among the sources: the compiler is modelled on
    the tree it walks. A node carries the identifier of the grammar rule
    that produced it, the text it spans and its children, as the Spirit
    [node_t] the source reads does. *)

Module Tree.

Inductive parser_id :=
| _device | _bucket_type | _bucket | _crushrule
| _step_take | _step_choose | _step_chooseleaf | _step_emit
| _other (n : Z).

#[warnings="-register-all"] Inductive node := Node (id : parser_id) (value : string) (children : list node).

Definition value_id (n : node) : parser_id := let 'Node i _ _ := n in i.
Definition children (n : node) : list node := let 'Node _ _ c := n in c.

Definition leaf (s : string) : node := Node (_other 0) s [].

(** [string_node], [int_node] and [float_node] of the source. *)
Definition string_node (n : node) : string := let 'Node _ v _ := n in v.
Definition int_node (n : node) : Z := CNum.to_int (CNum.strtol (string_node n)).
Definition float_node (n : node) : CNum.float := CNum.strtof (string_node n).

Definition parser_id_eqb (a b : parser_id) : bool :=
  match a, b with
  | _device, _device | _bucket_type, _bucket_type | _bucket, _bucket
  | _crushrule, _crushrule | _step_take, _step_take
  | _step_choose, _step_choose | _step_chooseleaf, _step_chooseleaf
  | _step_emit, _step_emit => true
  | _other n, _other m => n =? m
  | _, _ => false
  end.

End Tree.

(** ** The map under construction

    [crush/CrushWrapper.h] and the C library below it are not among the
    sources; the compiler and the decompiler only call into them. *)

Module Crush.

(** Modelled from the spec: the enumerations of [crush/crush.h] (bucket
    algorithm kinds Uniform, List, Tree, Straw; the rule steps; the two
    rule types). The numeric values are not given, so the kinds are an
    enumeration; [ALG_OTHER], [RULE_OP_OTHER] and [PG_TYPE_OTHER] stand
    for any other integer, -1 being the compiler's "no algorithm yet". *)
Inductive bucket_alg :=
| CRUSH_BUCKET_UNIFORM | CRUSH_BUCKET_LIST | CRUSH_BUCKET_TREE | CRUSH_BUCKET_STRAW
| ALG_OTHER (n : Z).

Inductive rule_op :=
| CRUSH_RULE_NOOP | CRUSH_RULE_TAKE | CRUSH_RULE_EMIT
| CRUSH_RULE_CHOOSE_FIRSTN | CRUSH_RULE_CHOOSE_INDEP
| CRUSH_RULE_CHOOSE_LEAF_FIRSTN | CRUSH_RULE_CHOOSE_LEAF_INDEP
| RULE_OP_OTHER (n : Z).

Inductive pg_type := CEPH_PG_TYPE_REP | CEPH_PG_TYPE_RAID4 | PG_TYPE_OTHER (n : Z).

(** Modelled from the spec: the name of an algorithm kind in the text
    format ([alg straw]). *)
Definition crush_bucket_alg_name (a : bucket_alg) : string :=
  match a with
  | CRUSH_BUCKET_UNIFORM => "uniform"
  | CRUSH_BUCKET_LIST => "list"
  | CRUSH_BUCKET_TREE => "tree"
  | CRUSH_BUCKET_STRAW => "straw"
  | ALG_OTHER _ => "unknown"
  end.

(** Modelled from the spec (section 3, Bucket): the attributes shared by
    the four kinds. The tables precomputed per kind by [finalize] are read
    neither by the compiler nor by the decompiler and are left out. *)
Record crush_bucket := mk_bucket {
  b_id : Z;
  b_alg : bucket_alg;
  b_type : Z;
  b_weight : Z;
  b_size : Z;
  b_items : list Z;
  b_item_weights : list Z
}.

Record crush_rule_step := mk_step { s_op : rule_op; s_arg1 : Z; s_arg2 : Z }.

Record crush_rule := mk_rule {
  r_pool : Z;
  r_type : pg_type;
  r_min_size : Z;
  r_max_size : Z;
  r_steps : list crush_rule_step
}.

(** Modelled from the spec (section 3, Map): [max_devices], the bucket
    table (slot [-1-id], here keyed by the id, [max_buckets] slots), the
    rule table keyed by rule id, the device offload vector and the name
    tables of items, types and rules. *)
Record CrushWrapper := mk_crush {
  max_devices : Z;
  max_buckets : Z;
  max_rules : Z;
  buckets : gmap Z crush_bucket;
  rules : gmap Z crush_rule;
  offloads : gmap Z Z;
  name_map : gmap Z string;
  type_map : gmap Z string;
  rule_name_map : gmap Z string
}.

(** Modelled from the spec: [create] gives the empty map. *)
Definition create : CrushWrapper := mk_crush 0 0 0 ∅ ∅ ∅ ∅ ∅ ∅.

Definition set_max_devices (n : Z) (c : CrushWrapper) : CrushWrapper :=
  mk_crush n (max_buckets c) (max_rules c) (buckets c) (rules c) (offloads c)
    (name_map c) (type_map c) (rule_name_map c).

Definition set_item_name (i : Z) (name : string) (c : CrushWrapper) : CrushWrapper :=
  mk_crush (max_devices c) (max_buckets c) (max_rules c) (buckets c) (rules c)
    (offloads c) (<[i := name]> (name_map c)) (type_map c) (rule_name_map c).

Definition set_type_name (i : Z) (name : string) (c : CrushWrapper) : CrushWrapper :=
  mk_crush (max_devices c) (max_buckets c) (max_rules c) (buckets c) (rules c)
    (offloads c) (name_map c) (<[i := name]> (type_map c)) (rule_name_map c).

Definition set_rule_name (i : Z) (name : string) (c : CrushWrapper) : CrushWrapper :=
  mk_crush (max_devices c) (max_buckets c) (max_rules c) (buckets c) (rules c)
    (offloads c) (name_map c) (type_map c) (<[i := name]> (rule_name_map c)).

Definition set_offload (i v : Z) (c : CrushWrapper) : CrushWrapper :=
  mk_crush (max_devices c) (max_buckets c) (max_rules c) (buckets c) (rules c)
    (<[i := v]> (offloads c)) (name_map c) (type_map c) (rule_name_map c).

Definition set_buckets (mb : Z) (b : gmap Z crush_bucket) (c : CrushWrapper) : CrushWrapper :=
  mk_crush (max_devices c) mb (max_rules c) b (rules c) (offloads c)
    (name_map c) (type_map c) (rule_name_map c).

Definition set_rules (mr : Z) (r : gmap Z crush_rule) (c : CrushWrapper) : CrushWrapper :=
  mk_crush (max_devices c) (max_buckets c) mr (buckets c) r (offloads c)
    (name_map c) (type_map c) (rule_name_map c).

(** The first key from [start] on, stepping by [step], that [m] does not
    hold; the search needs at most one probe more than [m] has keys. *)
Fixpoint first_free {A} (m : gmap Z A) (step : Z) (fuel : nat) (k : Z) : Z :=
  match fuel with
  | O => k
  | S fuel' => if decide (is_Some (m !! k)) then first_free m step fuel' (k + step) else k
  end.

Definition sum_list_Z (l : list Z) : Z := foldr Z.add 0 l.

(** Modelled from the spec: [add_bucket(id?, kind, type, children[],
    weights[])], "id=0 means auto-assign next negative"; the bucket's
    total weight is the sum of its child weights. *)
Definition add_bucket (id : Z) (alg : bucket_alg) (type size : Z)
    (items weights : list Z) (c : CrushWrapper) : CrushWrapper :=
  let id' := if id =? 0 then first_free (buckets c) (-1) (S (base.size (buckets c))) (-1) else id in
  let b := mk_bucket id' alg type (CNum.to_int (sum_list_Z weights)) size items weights in
  set_buckets (Z.max (max_buckets c) (- id')) (<[id' := b]> (buckets c)) c.

(** Modelled from the spec: [add_rule(pool, type, min_size, max_size,
    steps[])] with the rule table indexed by rule id; the compiler asks
    for [len] steps and no particular id ([-1]) and fills the steps in
    afterwards, so a new rule holds [len] no-op steps. *)
Definition add_rule (len pool : Z) (type : pg_type) (minsize maxsize ruleno : Z)
    (c : CrushWrapper) : Z * CrushWrapper :=
  let r := if ruleno <? 0 then first_free (rules c) 1 (S (size (rules c))) 0 else ruleno in
  let rule := mk_rule pool type minsize maxsize
                (replicate (Z.to_nat len) (mk_step CRUSH_RULE_NOOP 0 0)) in
  (r, set_rules (Z.max (max_rules c) (r + 1)) (<[r := rule]> (rules c)) c).

(** Modelled from the spec: setting step [step] of rule [ruleno]; nothing
    is said about a rule or a step that does not exist, where the model
    leaves the map as it is. *)
Definition set_rule_step (ruleno step : Z) (op : rule_op) (arg1 arg2 : Z)
    (c : CrushWrapper) : CrushWrapper :=
  match rules c !! ruleno with
  | Some r =>
      let r' := mk_rule (r_pool r) (r_type r) (r_min_size r) (r_max_size r)
                  (if step <? 0 then r_steps r
                   else <[Z.to_nat step := mk_step op arg1 arg2]> (r_steps r)) in
      set_rules (max_rules c) (<[ruleno := r']> (rules c)) c
  | None => c
  end.

(** Modelled from the spec: [finalize] "sets max_devices = max(existing,
    ids+1)" over the devices the buckets hold; the tables it precomputes
    are not part of this model. *)
Definition finalize (c : CrushWrapper) : CrushWrapper :=
  let ids := flat_map b_items (snd <$> map_to_list (buckets c)) in
  set_max_devices (foldr (fun i acc => Z.max (i + 1) acc) (max_devices c) ids) c.

Definition get_item_name (i : Z) (c : CrushWrapper) : option string := name_map c !! i.
Definition get_type_name (i : Z) (c : CrushWrapper) : option string := type_map c !! i.
Definition get_rule_name (i : Z) (c : CrushWrapper) : option string := rule_name_map c !! i.
Definition get_device_offload (i : Z) (c : CrushWrapper) : Z := default 0 (offloads c !! i).
Definition get_num_type_names (c : CrushWrapper) : Z := Z.of_nat (size (type_map c)).
Definition bucket_exists (i : Z) (c : CrushWrapper) : bool := bool_decide (is_Some (buckets c !! i)).
Definition rule_exists (i : Z) (c : CrushWrapper) : bool := bool_decide (is_Some (rules c !! i)).

End Crush.

(** ** The process: global tables, streams, files and the exit monad *)

Module Proc.
Import CNum Crush.

(** What is inserted into [cout] or [cerr] with [<<], in order. *)
Inductive out_item :=
| OStr (s : string)
| OInt (z : Z)
| OFloat (f : float)
| OParserId (i : Tree.parser_id).

Definition ostream := list out_item.

Definition nl : string := String (ascii_of_nat 10) EmptyString.
Definition tab : string := String (ascii_of_nat 9) EmptyString.
Definition dquote : string := String (ascii_of_nat 34) EmptyString.
Definition endl : out_item := OStr nl.

(** The files the tool can see: their contents by name, and the names
    that cannot be opened for writing. *)
Record filesys := mk_fs {
  files : gmap string string;
  unwritable : gset string
}.

(** The global variables of crushtool.cc ([verbose], [item_id], [id_item],
    [item_weight], [device_offload], [type_id], [rule_id]), the
    [CrushWrapper] the functions receive by reference, the two standard
    streams and the file system. *)
Record world := mk_world {
  verbose : Z;
  item_id : gmap string Z;
  id_item : gmap Z string;
  item_weight : gmap Z float;
  device_offload : gmap Z Z;
  type_id : gmap string Z;
  rule_id : gmap string Z;
  crush : CrushWrapper;
  cout : ostream;
  cerr : ostream;
  fs : filesys
}.

Definition set_verbose (v : Z) (w : world) : world :=
  mk_world v (item_id w) (id_item w) (item_weight w) (device_offload w)
    (type_id w) (rule_id w) (crush w) (cout w) (cerr w) (fs w).
Definition set_item_id (m : gmap string Z) (w : world) : world :=
  mk_world (verbose w) m (id_item w) (item_weight w) (device_offload w)
    (type_id w) (rule_id w) (crush w) (cout w) (cerr w) (fs w).
Definition set_id_item (m : gmap Z string) (w : world) : world :=
  mk_world (verbose w) (item_id w) m (item_weight w) (device_offload w)
    (type_id w) (rule_id w) (crush w) (cout w) (cerr w) (fs w).
Definition set_item_weight (m : gmap Z float) (w : world) : world :=
  mk_world (verbose w) (item_id w) (id_item w) m (device_offload w)
    (type_id w) (rule_id w) (crush w) (cout w) (cerr w) (fs w).
Definition set_device_offload (m : gmap Z Z) (w : world) : world :=
  mk_world (verbose w) (item_id w) (id_item w) (item_weight w) m
    (type_id w) (rule_id w) (crush w) (cout w) (cerr w) (fs w).
Definition set_type_id (m : gmap string Z) (w : world) : world :=
  mk_world (verbose w) (item_id w) (id_item w) (item_weight w) (device_offload w)
    m (rule_id w) (crush w) (cout w) (cerr w) (fs w).
Definition set_rule_id (m : gmap string Z) (w : world) : world :=
  mk_world (verbose w) (item_id w) (id_item w) (item_weight w) (device_offload w)
    (type_id w) m (crush w) (cout w) (cerr w) (fs w).
Definition set_crush (c : CrushWrapper) (w : world) : world :=
  mk_world (verbose w) (item_id w) (id_item w) (item_weight w) (device_offload w)
    (type_id w) (rule_id w) c (cout w) (cerr w) (fs w).
Definition set_cout (o : ostream) (w : world) : world :=
  mk_world (verbose w) (item_id w) (id_item w) (item_weight w) (device_offload w)
    (type_id w) (rule_id w) (crush w) o (cerr w) (fs w).
Definition set_cerr (o : ostream) (w : world) : world :=
  mk_world (verbose w) (item_id w) (id_item w) (item_weight w) (device_offload w)
    (type_id w) (rule_id w) (crush w) (cout w) o (fs w).
Definition set_fs (f : filesys) (w : world) : world :=
  mk_world (verbose w) (item_id w) (id_item w) (item_weight w) (device_offload w)
    (type_id w) (rule_id w) (crush w) (cout w) (cerr w) f.

(** How a piece of the program ends: it returns a value, the process
    leaves through [exit(status)], it is aborted by a failed [assert] or an
    uncaught exception, or it has done something the language leaves
    undefined (reading a vector out of range, converting a float that does
    not fit). *)
Inductive outcome (A : Type) :=
| Done (a : A) (w : world)
| Exit (status : Z) (w : world)
| Abort (w : world)
| Undefined.
Arguments Done {A} a w.
Arguments Exit {A} status w.
Arguments Abort {A} w.
Arguments Undefined {A}.

Definition M (A : Type) := world -> outcome A.

Definition ret {A} (a : A) : M A := fun w => Done a w.

Definition bind {A B} (m : M A) (k : A -> M B) : M B :=
  fun w =>
    match m w with
    | Done a w' => k a w'
    | Exit s w' => Exit s w'
    | Abort w' => Abort w'
    | Undefined => Undefined
    end.

Notation "'let*' x ':=' c1 'in' c2" := (bind c1 (fun x => c2))
  (at level 10, x name, c1 at level 100, c2 at level 200).
Notation "c1 ';;' c2" := (bind c1 (fun _ => c2))
  (at level 100, c2 at level 200, right associativity).

Definition get : M world := fun w => Done w w.
Definition modify (f : world -> world) : M unit := fun w => Done tt (f w).
Definition exit {A} (status : Z) : M A := fun w => Exit status w.
Definition abort {A} : M A := fun w => Abort w.
Definition undefined {A} : M A := fun _ => Undefined.

Definition when (b : bool) (m : M unit) : M unit := if b then m else ret tt.

(** [cout << a << b << ...] and [cerr << a << b << ...]. *)
Definition put_cout (l : list out_item) : M unit := modify (fun w => set_cout (cout w ++ l) w).
Definition put_cerr (l : list out_item) : M unit := modify (fun w => set_cerr (cerr w ++ l) w).

(** Running a [CrushWrapper] method on the map. *)
Definition on_crush (f : CrushWrapper -> CrushWrapper) : M unit :=
  modify (fun w => set_crush (f (crush w)) w).

(** A value the program can only use when it is there; its absence is
    undefined behaviour. *)
Definition defined {A} (o : option A) : M A :=
  match o with
  | Some a => ret a
  | None => undefined
  end.

Definition str_eqb (a b : string) : bool := String.eqb a b.
Infix "==" := str_eqb (at level 70, no associativity).

End Proc.

(** ** The compiler: from the parse tree to the map *)

Module Compiler.
Import CNum Tree Crush Proc.

(** [n->children[k]]; reading past the end of the vector is undefined. *)
Definition child (n : node) (k : nat) : M node := defined (children n !! k).

Definition count {K A} `{Countable K} (m : gmap K A) (k : K) : bool :=
  bool_decide (is_Some (m !! k)).

(** The value of the [offload] variable of [parse_device] for the tag at
    [children[3]]: [offload v] gives [v], [load v] gives [1.0 - v]
    (computed in double, stored in a float), [down] gives [1.0]. *)
Definition device_offload_value (i : node) (tag : string) : M float :=
  if tag == "offload" then
    let* v := child i 4 in ret (float_node v)
  else if tag == "load" then
    let* v := child i 4 in
    ret (float_of_double (dsub done (double_of_float (float_node v))))
  else if tag == "down" then ret (float_of_double done)
  else abort.

(** [parse_device]. The last statement computes [id + 1] as an [int]: at
    the largest [int] the sum does not fit, and the model keeps the value
    two's complement arithmetic gives, as for the other [int]s. *)
Definition parse_device (i : node) : M unit :=
  let size := Z.of_nat (length (children i)) in
  let* c1 := child i 1 in
  let id := int_node c1 in
  let* c2 := child i 2 in
  let name := string_node c2 in
  on_crush (set_item_name id name) ;;
  let* w := get in
  when (count (item_id w) name)
    (put_cerr [OStr "item "; OStr name; OStr " defined twice"; endl] ;; exit 1) ;;
  modify (fun w => set_item_id (<[name := id]> (item_id w)) w) ;;
  modify (fun w => set_id_item (<[id := name]> (id_item w)) w) ;;
  when (negb (verbose w =? 0)) (put_cout [OStr "device "; OInt id; OStr " "; OStr name]) ;;
  when (4 <=? size)
    (let* c3 := child i 3 in
     let tag := string_node c3 in
     let* offload := device_offload_value i tag in
     when (negb (verbose w =? 0)) (put_cout [OStr " offload "; OFloat offload]) ;;
     when (fltb offload (float_of_int 0) || dltb done (double_of_float offload))
       (put_cerr [OStr "illegal device offload "; OFloat offload; OStr " on device ";
                  OInt id; OStr " "; OStr name; OStr " (valid range is [0,1])"; endl] ;;
        exit 1) ;;
     let* v := defined (fixed_of_float offload) in
     modify (fun w => set_device_offload (<[id := v]> (device_offload w)) w)) ;;
  when (negb (verbose w =? 0)) (put_cout [endl]) ;;
  let* w := get in
  when (max_devices (crush w) <=? id) (on_crush (set_max_devices (to_int (id + 1)))).

Definition parse_bucket_type (i : node) : M unit :=
  let* c1 := child i 1 in
  let id := int_node c1 in
  let* c2 := child i 2 in
  let name := string_node c2 in
  let* w := get in
  when (negb (verbose w =? 0)) (put_cout [OStr "type "; OInt id; OStr " "; OStr name; endl]) ;;
  modify (fun w => set_type_id (<[name := id]> (type_id w)) w) ;;
  on_crush (set_type_name id name).

(** The lines of a bucket block: [children[3]] up to the one before the
    closing brace. *)
Definition bucket_lines (i : node) : list node :=
  take (length (children i) - 4) (drop 3 (children i)).

(** First pass over the tags of an item line (from [children[2]] on, two
    by two): the explicit positions, each of which must be free. *)
Fixpoint item_used_pos (sub : node) (name : string) (tags : list node)
    (used_items : gset Z) : M (gset Z) :=
  match tags with
  | [] => ret used_items
  | t :: rest =>
      if string_node t == "pos" then
        match rest with
        | v :: rest' =>
            let pos := int_node v in
            if bool_decide (pos ∈ used_items) then
              let* c1 := child sub 1 in
              put_cerr [OStr "item '"; OStr (string_node c1); OStr "' in bucket '";
                        OStr name; OStr "' has explicit pos "; OInt pos;
                        OStr ", which is occupied"; endl] ;;
              exit 1
            else item_used_pos sub name rest' ({[pos]} ∪ used_items)
        | [] => undefined
        end
      else
        match rest with
        | _ :: rest' => item_used_pos sub name rest' used_items
        | [] => ret used_items
        end
  end.

(** What the first loop of [parse_bucket] computes. *)
Record bucket_head := mk_head {
  h_id : Z;
  h_alg : bucket_alg;
  h_used_items : gset Z;
  h_size : Z
}.

Definition bucket_alg_of_name (a : string) : option bucket_alg :=
  if a == "uniform" then Some CRUSH_BUCKET_UNIFORM
  else if a == "list" then Some CRUSH_BUCKET_LIST
  else if a == "tree" then Some CRUSH_BUCKET_TREE
  else if a == "straw" then Some CRUSH_BUCKET_STRAW
  else None.

Definition bucket_head_line (name : string) (h : bucket_head) (sub : node) : M bucket_head :=
  let* t := child sub 0 in
  let tag := string_node t in
  if tag == "id" then
    let* v := child sub 1 in
    ret (mk_head (int_node v) (h_alg h) (h_used_items h) (h_size h))
  else if tag == "alg" then
    let* v := child sub 1 in
    let a := string_node v in
    match bucket_alg_of_name a with
    | Some alg => ret (mk_head (h_id h) alg (h_used_items h) (h_size h))
    | None => put_cerr [OStr "unknown bucket alg '"; OStr a; OStr "'"; endl] ;; exit 1
    end
  else if tag == "item" then
    let* used := item_used_pos sub name (drop 2 (children sub)) (h_used_items h) in
    ret (mk_head (h_id h) (h_alg h) used (h_size h + 1))
  else abort.

Fixpoint bucket_head_loop (name : string) (lines : list node) (h : bucket_head) : M bucket_head :=
  match lines with
  | [] => ret h
  | sub :: rest =>
      let* h' := bucket_head_line name h sub in
      bucket_head_loop name rest h'
  end.

(** [*used_items.rbegin()]: the largest element of a set that is not
    empty. *)
Definition set_last (s : gset Z) : option Z :=
  match elements s with
  | [] => None
  | x :: l => Some (foldr Z.max x l)
  end.

(** Second pass over the tags of an item line: the weight and the
    position the line gives, on top of the defaults. *)
Fixpoint item_tags (tags : list node) (weight : float) (pos : Z) : M (float * Z) :=
  match tags with
  | [] => ret (weight, pos)
  | t :: rest =>
      if string_node t == "weight" then
        match rest with
        | v :: rest' => item_tags rest' (float_node v) pos
        | [] => undefined
        end
      else if string_node t == "pos" then
        match rest with
        | v :: rest' => item_tags rest' weight (int_node v)
        | [] => undefined
        end
      else abort
  end.

(** [while (used_items.count(curpos)) curpos++]. *)
Fixpoint skip_used (used_items : gset Z) (fuel : nat) (curpos : Z) : Z :=
  match fuel with
  | O => curpos
  | S fuel' =>
      if bool_decide (curpos ∈ used_items) then skip_used used_items fuel' (curpos + 1)
      else curpos
  end.

(** The weight an item line starts from: 1.0, or what [item_weight] holds
    for the item. *)
Definition default_weight (w : world) (itemid : Z) : float :=
  match item_weight w !! itemid with
  | Some x => x
  | None => float_of_double done
  end.

(** What the second loop of [parse_bucket] carries along. *)
Record bucket_body := mk_body {
  y_curpos : Z;
  y_bucketweight : float;
  y_items : list Z;
  y_weights : list Z
}.

Definition bucket_body_line (name : string) (used_items : gset Z) (size : Z)
    (y : bucket_body) (sub : node) : M bucket_body :=
  let* t := child sub 0 in
  if string_node t == "item" then
    let* c1 := child sub 1 in
    let iname := string_node c1 in
    let* w := get in
    when (negb (count (item_id w) iname))
      (put_cerr [OStr "item '"; OStr iname; OStr "' in bucket '"; OStr name;
                 OStr "' is not defined"; endl] ;;
       exit 1) ;;
    let itemid := default 0 (item_id w !! iname) in
    let* wp := item_tags (drop 2 (children sub)) (default_weight w itemid) (-1) in
    let weight := fst wp in
    let pos := snd wp in
    when (size <=? pos)
      (put_cerr [OStr "item '"; OStr iname; OStr "' in bucket '"; OStr name;
                 OStr "' has pos "; OInt pos; OStr " >= size "; OInt size; endl] ;;
       exit 1) ;;
    let free := skip_used used_items (S (base.size used_items)) (y_curpos y) in
    let pos' := if pos <? 0 then free else pos in
    let curpos' := if pos <? 0 then free + 1 else y_curpos y in
    when (size <=? pos') undefined ;;
    let* fw := defined (fixed_of_float weight) in
    ret (mk_body curpos' (fadd (y_bucketweight y) weight)
           (<[Z.to_nat pos' := itemid]> (y_items y))
           (<[Z.to_nat pos' := fw]> (y_weights y)))
  else ret y.

Fixpoint bucket_body_loop (name : string) (used_items : gset Z) (size : Z)
    (lines : list node) (y : bucket_body) : M bucket_body :=
  match lines with
  | [] => ret y
  | sub :: rest =>
      let* y' := bucket_body_line name used_items size y sub in
      bucket_body_loop name used_items size rest y'
  end.

(** [for (id=-1; id_item.count(id); id--) ;]: the map is finite, so one
    probe more than it has keys is enough. *)
Definition fresh_bucket_id (id_item : gmap Z string) : Z :=
  first_free id_item (-1) (S (base.size id_item)) (-1).

Definition parse_bucket (i : node) : M unit :=
  let* c0 := child i 0 in
  let tname := string_node c0 in
  let* w := get in
  when (negb (count (type_id w) tname))
    (put_cerr [OStr "bucket type '"; OStr tname; OStr "' is not defined"; endl] ;; exit 1) ;;
  let type := default 0 (type_id w !! tname) in
  let* c1 := child i 1 in
  let name := string_node c1 in
  when (count (item_id w) name)
    (put_cerr [OStr "bucket or device '"; OStr name; OStr "' is already defined"; endl] ;;
     exit 1) ;;
  let* h := bucket_head_loop name (bucket_lines i) (mk_head 0 (ALG_OTHER (-1)) ∅ 0) in
  let size := match set_last (h_used_items h) with
              | Some m => Z.max (h_size h) m
              | None => h_size h
              end in
  let zeros := replicate (Z.to_nat size) 0 in
  let* y := bucket_body_loop name (h_used_items h) size (bucket_lines i)
              (mk_body 0 (float_of_int 0) zeros zeros) in
  let* w := get in
  let id := if h_id h =? 0 then fresh_bucket_id (id_item w) else h_id h in
  when (negb (verbose w =? 0))
    (put_cout [OStr "bucket "; OStr name; OStr " ("; OInt id; OStr ") "; OInt size;
               OStr " items and weight "; OFloat (y_bucketweight y); endl]) ;;
  modify (fun w => set_id_item (<[id := name]> (id_item w)) w) ;;
  modify (fun w => set_item_id (<[name := id]> (item_id w)) w) ;;
  modify (fun w => set_item_weight (<[id := y_bucketweight y]> (item_weight w)) w) ;;
  on_crush (add_bucket id (h_alg h) type size (y_items y) (y_weights y)) ;;
  on_crush (set_item_name id name).

(** The steps of a rule: [steps] nodes from [children[idx]] on, each
    holding the step proper at its [children[1]]. *)
Definition rule_step (ruleno : Z) (rname : string) (step : Z) (s : node) : M unit :=
  match value_id s with
  | _step_take =>
      let* c1 := child s 1 in
      let item := string_node c1 in
      let* w := get in
      when (negb (count (item_id w) item))
        (put_cerr [OStr "in rule '"; OStr rname; OStr "' item '"; OStr item;
                   OStr "' not defined"; endl] ;;
         exit 1) ;;
      on_crush (set_rule_step ruleno step CRUSH_RULE_TAKE (default 0 (item_id w !! item)) 0)
  | _step_choose | _step_chooseleaf =>
      let* c4 := child s 4 in
      let type := string_node c4 in
      let* w := get in
      when (negb (count (type_id w) type))
        (put_cerr [OStr "in rule '"; OStr rname; OStr "' type '"; OStr type;
                   OStr "' not defined"; endl] ;;
         exit 1) ;;
      let* c0 := child s 0 in
      let choose := string_node c0 in
      let* c1 := child s 1 in
      let mode := string_node c1 in
      let t := default 0 (type_id w !! type) in
      if choose == "choose" then
        if mode == "firstn" then
          let* c2 := child s 2 in
          on_crush (set_rule_step ruleno step CRUSH_RULE_CHOOSE_FIRSTN (int_node c2) t)
        else if mode == "indep" then
          let* c2 := child s 2 in
          on_crush (set_rule_step ruleno step CRUSH_RULE_CHOOSE_INDEP (int_node c2) t)
        else abort
      else if choose == "chooseleaf" then
        if mode == "firstn" then
          let* c2 := child s 2 in
          on_crush (set_rule_step ruleno step CRUSH_RULE_CHOOSE_LEAF_FIRSTN (int_node c2) t)
        else if mode == "indep" then
          let* c2 := child s 2 in
          on_crush (set_rule_step ruleno step CRUSH_RULE_CHOOSE_LEAF_INDEP (int_node c2) t)
        else abort
      else abort
  | _step_emit => on_crush (set_rule_step ruleno step CRUSH_RULE_EMIT 0 0)
  | _ =>
      put_cerr [OStr "bad crush step "; OParserId (value_id s); endl] ;; abort
  end.

(** The loop over the steps; it returns the value [step] has reached. *)
Fixpoint rule_steps (i : node) (ruleno : Z) (rname : string) (steps : nat)
    (idx : nat) (step : Z) : M Z :=
  match steps with
  | O => ret step
  | S steps' =>
      let* p := child i idx in
      let* s := child p 1 in
      rule_step ruleno rname step s ;;
      rule_steps i ruleno rname steps' (S idx) (step + 1)
  end.

(** [parse_rule]; the last line is [assert(step == steps)], which fails
    when the block is too short for [steps] not to be negative. *)
Definition parse_rule (i : node) : M unit :=
  let* c1 := child i 1 in
  let rname0 := string_node c1 in
  let* w := get in
  when (negb (rname0 == "{") && count (rule_id w) rname0)
    (put_cerr [OStr "rule name '"; OStr rname0; OStr ("' already defined" ++ nl); endl] ;;
     exit 1) ;;
  let rname := if rname0 == "{" then EmptyString else rname0 in
  let start := if rname0 == "{" then 3%nat else 4%nat in
  let* cp := child i start in
  let pool := int_node cp in
  let* ct := child i (start + 2) in
  let tname := string_node ct in
  let* type := (if tname == "replicated" then ret CEPH_PG_TYPE_REP
                else if tname == "raid4" then ret CEPH_PG_TYPE_RAID4
                else abort) in
  let* cmin := child i (start + 4) in
  let minsize := int_node cmin in
  let* cmax := child i (start + 6) in
  let maxsize := int_node cmax in
  let steps := Z.of_nat (length (children i)) - Z.of_nat start - 8 in
  let* w := get in
  let '(ruleno, c) := add_rule steps pool type minsize maxsize (-1) (crush w) in
  modify (set_crush c) ;;
  when (negb (rname == EmptyString))
    (on_crush (set_rule_name ruleno rname) ;;
     modify (fun w => set_rule_id (<[rname := ruleno]> (rule_id w)) w)) ;;
  let* step := rule_steps i ruleno rname (Z.to_nat steps) (start + 7) 0 in
  when (negb (step =? steps)) abort.

(** [find_used_bucket_ids]: the id of every bucket block whose first line
    (its [children[3]]) is an [id] line is entered into [id_item] before
    anything is compiled. *)
Definition find_used_bucket_id (p : node) : M unit :=
  if parser_id_eqb (value_id p) _bucket then
    let* firstline := child p 3 in
    let* t := child firstline 0 in
    if string_node t == "id" then
      let* v := child firstline 1 in
      modify (fun w => set_id_item (<[int_node v := EmptyString]> (id_item w)) w)
    else ret tt
  else ret tt.

Fixpoint find_used_bucket_ids (ps : list node) : M unit :=
  match ps with
  | [] => ret tt
  | p :: rest => find_used_bucket_id p ;; find_used_bucket_ids rest
  end.

Definition parse_decl (p : node) : M unit :=
  match value_id p with
  | _device => parse_device p
  | _bucket_type => parse_bucket_type p
  | _bucket => parse_bucket p
  | _crushrule => parse_rule p
  | _ => abort
  end.

Fixpoint parse_decls (ps : list node) : M unit :=
  match ps with
  | [] => ret tt
  | p :: rest => parse_decl p ;; parse_decls rest
  end.

(** [for (int i=0; i<crush.get_max_devices(); i++) if
    (device_offload.count(i)) crush.set_offload(i, device_offload[i]);] *)
Definition copy_offloads (w : world) : CrushWrapper :=
  foldl (fun c i =>
           match device_offload w !! i with
           | Some v => set_offload i v c
           | None => c
           end)
        (crush w) (Z.of_nat <$> seq 0 (Z.to_nat (max_devices (crush w)))).

Definition parse_crush (i : node) : M unit :=
  find_used_bucket_ids (children i) ;;
  parse_decls (children i) ;;
  on_crush finalize ;;
  modify (fun w => set_crush (copy_offloads w) w).

(** *** Reading the input file

    What the Spirit parser run on the grammar reports ([tree_parse_info]):
    whether the whole text was consumed, where the parser stopped, and the
    trees built. *)
Record tree_parse_info := mk_info {
  full : bool;
  stop : Z;
  trees : list node
}.

(** [getline] until the end of the file: the lines, without their
    newline characters. *)
Fixpoint getlines_aux (s : string) (cur : string) : list string :=
  match s with
  | EmptyString => if cur == EmptyString then [] else [cur]
  | String c r =>
      if Ascii.eqb c (ascii_of_nat 10) then cur :: getlines_aux r EmptyString
      else getlines_aux r (cur ++ String c EmptyString)
  end.

Definition getlines (content : string) : list string := getlines_aux content EmptyString.

(** [n = str.find("#"); if (n >= 0) str.erase(n, str.length()-n)]. *)
Fixpoint strip_comment (str : string) : string :=
  match str with
  | EmptyString => EmptyString
  | String c r => if Ascii.eqb c "#" then EmptyString else String c (strip_comment r)
  end.

Definition strlen (s : string) : Z := Z.of_nat (String.length s).

(** What the reading loop builds: the text handed to the parser, the line
    counter, and the two maps from positions to lines and from lines to
    their text. *)
Record reader := mk_reader {
  big : string;
  line : Z;
  line_pos : gmap Z Z;
  line_val : gmap Z string
}.

Definition read_line (rd : reader) (str : string) : M reader :=
  let line_val' := <[line rd := str]> (line_val rd) in
  let str' := strip_comment str in
  let* w := get in
  when (1 <? verbose w) (put_cout [OInt (line rd); OStr ": "; OStr str'; endl]) ;;
  let big' := if strlen (big rd) =? 0 then big rd else (big rd ++ " ")%string in
  ret (mk_reader (big' ++ str') (line rd + 1)
         (<[strlen big' := line rd]> (line_pos rd)) line_val').

Fixpoint read_lines (rd : reader) (lines : list string) : M reader :=
  match lines with
  | [] => ret rd
  | str :: rest => let* rd' := read_line rd str in read_lines rd' rest
  end.

(** [p = line_pos.upper_bound(cpos); if (p != line_pos.begin()) p--;]:
    the entry with the largest key not above [cpos], or the first entry of
    the map when every key is above it. *)
Definition line_at (line_pos : gmap Z Z) (cpos : Z) : option (Z * Z) :=
  let below := filter (fun kv => bool_decide (fst kv <= cpos)) (map_to_list line_pos) in
  let pick (better : Z -> Z -> bool) (l : list (Z * Z)) :=
    foldr (fun kv acc =>
             match acc with
             | Some kv' => if better (fst kv) (fst kv') then Some kv else acc
             | None => Some kv
             end) None l in
  match below with
  | [] => pick Z.ltb (map_to_list line_pos)
  | _ => pick Z.gtb below
  end.

(** [s.substr(pos)]; a position past the end throws. *)
Fixpoint substr (s : string) (pos : nat) : option string :=
  match pos, s with
  | O, _ => Some s
  | S pos', String _ r => substr r pos'
  | S _, EmptyString => None
  end.

Definition ENOENT : Z := 2.

Definition compile_crush_file (ast_parse : string -> tree_parse_info) (infn : string) : M Z :=
  let* w := get in
  match files (fs w) !! infn with
  | None =>
      put_cerr [OStr "input file "; OStr infn; OStr " not found"; endl] ;;
      ret (- ENOENT)
  | Some content =>
      let* rd := read_lines (mk_reader EmptyString 1 ∅ ∅) (getlines content) in
      when (2 <? verbose w)
        (put_cout [OStr ("whole file is: " ++ dquote); OStr (big rd); OStr dquote; endl]) ;;
      let info := ast_parse (big rd) in
      if negb (full info) then
        let cpos := stop info in
        match line_at (line_pos rd) cpos with
        | None => abort
        | Some (first, line) =>
            let pos := cpos - first in
            match (if pos <? 0 then None
                   else substr (default EmptyString (line_val rd !! line)) (Z.to_nat pos)) with
            | Some rest =>
                put_cerr [OStr infn; OStr ":"; OInt line; OStr " error: parse error at '";
                          OStr rest; OStr "'"; endl] ;;
                ret 1
            | None => abort
            end
        end
      else
        match trees info with
        | root :: _ => parse_crush root ;; ret 0
        | [] => undefined
        end
  end.

End Compiler.

(** ** The decompiler: from the map to text *)

Module Decompiler.
Import CNum Crush Proc.

(** [out << i] for an [int]. *)
Definition string_of_int (z : Z) : string := NilZero.string_of_int (Z.to_int z).

Definition cat (l : list string) : string := String.concat EmptyString l.

Definition print_type_name (t : Z) (crush : CrushWrapper) : string :=
  match get_type_name t crush with
  | Some name => name
  | None => if t =? 0 then "device" else cat ["type"; string_of_int t]
  end.

Definition print_item_name (t : Z) (crush : CrushWrapper) : string :=
  match get_item_name t crush with
  | Some name => name
  | None =>
      if 0 <=? t then cat ["device"; string_of_int t]
      else cat ["bucket"; string_of_int (-1 - t)]
  end.

Definition print_rule_name (t : Z) (crush : CrushWrapper) : string :=
  match get_rule_name t crush with
  | Some name => name
  | None => cat ["rule"; string_of_int t]
  end.

(** The integer nearest to [m * 2^e * 1000], ties to even. *)
Definition round_thousandths (m : positive) (e : Z) : Z :=
  match e with
  | Zneg k =>
      let den := 2 ^ Zpos k in
      let q := (Zpos m * 1000) / den in
      let r := (Zpos m * 1000) mod den in
      match 2 * r ?= den with
      | Lt => q
      | Gt => q + 1
      | Eq => if Z.even q then q else q + 1
      end
  | _ => Zpos m * 1000 * 2 ^ e
  end.

Definition pad3 (n : Z) : string :=
  let s := string_of_int n in
  if n <? 10 then cat ["00"; s] else if n <? 100 then cat ["0"; s] else s.

(** [sprintf(s, "%.3f", x)]. *)
Definition sprintf_3f (x : float) : string :=
  match x with
  | S754_zero s => cat [if s then "-" else EmptyString; "0.000"]
  | S754_finite s m e =>
      let n := round_thousandths m e in
      cat [if s then "-" else EmptyString; string_of_int (n / 1000); "."; pad3 (n mod 1000)]
  | S754_infinity s => cat [if s then "-" else EmptyString; "inf"]
  | S754_nan => "nan"
  end.

Definition print_fixedpoint (i : Z) : string :=
  sprintf_3f (fdiv (float_of_int i) (float_of_int 65536)).

Definition decompile_device (crush : CrushWrapper) (i : Z) : string :=
  cat ["device "; string_of_int i; " "; print_item_name i crush;
       if get_device_offload i crush =? 0 then EmptyString
       else cat [" offload "; print_fixedpoint (get_device_offload i crush)];
       nl].

(** The integers from [0] up to [n - 1]. *)
Definition upto (n : Z) : list Z := Z.of_nat <$> seq 0 (Z.to_nat n).

(** [for (int i=0; n; i++)]: the loop over the type names ends once it has
    met as many names as the map holds; [fuel] bounds the ids looked at. *)
Fixpoint decompile_types (crush : CrushWrapper) (fuel : nat) (i n : Z) : option string :=
  if n =? 0 then Some EmptyString
  else
    match fuel with
    | O => None
    | S fuel' =>
        match get_type_name i crush with
        | None =>
            rest ← decompile_types crush fuel' (i + 1) n;
            Some (cat [if i =? 0 then cat ["type 0 device"; nl] else EmptyString; rest])
        | Some name =>
            rest ← decompile_types crush fuel' (i + 1) (n - 1);
            Some (cat ["type "; string_of_int i; " "; name; nl; rest])
        end
    end.

(** The ids to look at: every type id of the map lies below the bound
    when none is negative. *)
Definition type_id_bound (crush : CrushWrapper) : nat :=
  S (Z.to_nat (foldr Z.max 0 (fst <$> map_to_list (type_map crush)))).

(** The item lines of a bucket; [dopos] is switched on by the algorithm
    kind or by the first item of weight zero. *)
Fixpoint decompile_items (crush : CrushWrapper) (b : crush_bucket) (js : list Z)
    (dopos : bool) : string :=
  match js with
  | [] => EmptyString
  | j :: rest =>
      let item := default 0 (b_items b !! Z.to_nat j) in
      let w := default 0 (b_item_weights b !! Z.to_nat j) in
      if w =? 0 then decompile_items crush b rest true
      else
        cat [tab; "item "; print_item_name item crush; " weight "; print_fixedpoint w;
             if dopos then
               match b_alg b with
               | CRUSH_BUCKET_TREE => cat [" pos "; string_of_int (Z.quot (j - 1) 2)]
               | _ => cat [" pos "; string_of_int j]
               end
             else EmptyString;
             nl; decompile_items crush b rest dopos]
  end.

Definition decompile_bucket (crush : CrushWrapper) (i : Z) : string :=
  match buckets crush !! i with
  | None => EmptyString
  | Some b =>
      let n := b_size b in
      cat [print_type_name (b_type b) crush; " "; print_item_name i crush; " {"; nl;
           tab; "id "; string_of_int i; tab; tab; "# do not change unnecessarily"; nl;
           tab; "alg "; crush_bucket_alg_name (b_alg b);
           match b_alg b with
           | CRUSH_BUCKET_UNIFORM =>
               cat [tab; "# do not change bucket size ("; string_of_int n; ") unnecessarily"]
           | CRUSH_BUCKET_LIST =>
               cat [tab; "# add new items at the end; do not change order unnecessarily"]
           | CRUSH_BUCKET_TREE =>
               cat [tab; "# do not change pos for existing items unnecessarily"]
           | _ => EmptyString
           end;
           nl;
           decompile_items crush b (upto n)
             match b_alg b with
             | CRUSH_BUCKET_UNIFORM | CRUSH_BUCKET_TREE => true
             | _ => false
             end;
           "}"; nl]
  end.

Definition decompile_step (crush : CrushWrapper) (s : crush_rule_step) : string :=
  let choose (what : string) :=
    cat [tab; "step "; what; " "; string_of_int (s_arg1 s); " type ";
         print_type_name (s_arg2 s) crush; nl] in
  match s_op s with
  | CRUSH_RULE_NOOP => cat [tab; "step noop"; nl]
  | CRUSH_RULE_TAKE => cat [tab; "step take "; print_item_name (s_arg1 s) crush; nl]
  | CRUSH_RULE_EMIT => cat [tab; "step emit"; nl]
  | CRUSH_RULE_CHOOSE_FIRSTN => choose "choose firstn"
  | CRUSH_RULE_CHOOSE_INDEP => choose "choose indep"
  | CRUSH_RULE_CHOOSE_LEAF_FIRSTN => choose "chooseleaf firstn"
  | CRUSH_RULE_CHOOSE_LEAF_INDEP => choose "chooseleaf indep"
  | RULE_OP_OTHER _ => EmptyString
  end.

Definition decompile_rule (crush : CrushWrapper) (i : Z) : string :=
  match rules crush !! i with
  | None => EmptyString
  | Some r =>
      cat ["rule ";
           match get_rule_name i crush with
           | Some _ => print_rule_name i crush
           | None => EmptyString
           end;
           " {"; nl;
           tab; "pool "; string_of_int (r_pool r); nl;
           match r_type r with
           | CEPH_PG_TYPE_REP => cat [tab; "type replicated"; nl]
           | CEPH_PG_TYPE_RAID4 => cat [tab; "type raid4"; nl]
           | PG_TYPE_OTHER n => cat [tab; "type "; string_of_int n; nl]
           end;
           tab; "min_size "; string_of_int (r_min_size r); nl;
           tab; "max_size "; string_of_int (r_max_size r); nl;
           cat (decompile_step crush <$> r_steps r);
           "}"; nl]
  end.

(** The text [decompile_crush] inserts into [out]; [None] when the loop
    over the type names does not end. *)
Definition decompile_crush (crush : CrushWrapper) : option string :=
  types ← decompile_types crush (type_id_bound crush) 0 (get_num_type_names crush);
  Some (cat ["# begin crush map"; nl; nl;
             "# devices"; nl;
             cat (decompile_device crush <$> upto (max_devices crush));
             nl; "# types"; nl;
             types;
             nl; "# buckets"; nl;
             cat ((fun k => decompile_bucket crush (-1 - k)) <$> upto (max_buckets crush));
             nl; "# rules"; nl;
             cat (decompile_rule crush <$> upto (max_rules crush));
             nl; "# end crush map"; nl]).

End Decompiler.

(** ** The command line tool *)

Module Tool.
Import CNum Tree Crush Proc Compiler Decompiler.

(** What [main] calls and the sources do not hold: the Spirit parser run
    on the grammar of [crush/grammar.h], and the binary codec of
    [CrushWrapper] ([decode] can reject its input, which ends the process
    abnormally). *)
Record externals := mk_ext {
  ast_parse : string -> tree_parse_info;
  encode : CrushWrapper -> string;
  decode : string -> option CrushWrapper
}.

(** The local variables of [main] the argument loop sets. *)
Record options := mk_opts {
  cinfn : option string;
  dinfn : option string;
  outfn : option string;
  clobber : bool
}.

Definition no_options : options := mk_opts None None None false.

Definition usage_line : string :=
  ": usage: crushtool [-d map] [-c map.txt] [-o outfile [--clobber]]".

Definition usage {A} (me : string) : M A :=
  put_cout [OStr me; OStr usage_line; endl] ;; exit 1.

(** The loop over [args]; [args[++i]] past the last argument is a read out
    of range. *)
Fixpoint parse_args (me : string) (args : list string) (o : options) : M options :=
  match args with
  | [] => ret o
  | a :: rest =>
      if a == "--clobber" then
        parse_args me rest (mk_opts (cinfn o) (dinfn o) (outfn o) true)
      else if a == "-d" then
        match rest with
        | f :: rest' => parse_args me rest' (mk_opts (cinfn o) (Some f) (outfn o) (clobber o))
        | [] => undefined
        end
      else if a == "-o" then
        match rest with
        | f :: rest' => parse_args me rest' (mk_opts (cinfn o) (dinfn o) (Some f) (clobber o))
        | [] => undefined
        end
      else if a == "-c" then
        match rest with
        | f :: rest' => parse_args me rest' (mk_opts (Some f) (dinfn o) (outfn o) (clobber o))
        | [] => undefined
        end
      else if a == "-v" then
        modify (fun w => set_verbose (verbose w + 1) w) ;; parse_args me rest o
      else usage me
  end.

Definition EACCES : Z := 13.

Definition strerror (e : Z) : string :=
  if e =? ENOENT then "No such file or directory"
  else if e =? EACCES then "Permission denied"
  else "Unknown error".

(** Writing a whole file, truncating what was there. *)
Definition write_file (fn content : string) (f : filesys) : filesys :=
  mk_fs (<[fn := content]> (files f)) (unwritable f).

Definition decompile (E : externals) (me dinfn : string) (outfn : option string) : M unit :=
  let* w := get in
  match files (fs w) !! dinfn with
  | None =>
      put_cerr [OStr me; OStr ": error reading '"; OStr dinfn; OStr "': ";
                OStr (strerror ENOENT); endl] ;;
      exit 1
  | Some bl =>
      match decode E bl with
      | None => abort
      | Some c =>
          modify (set_crush c) ;;
          match outfn with
          | Some o =>
              when (bool_decide (o ∈ unwritable (fs w)))
                (put_cerr [OStr me; OStr ": error writing '"; OStr o; OStr "'"; endl] ;;
                 exit 1) ;;
              let* text := defined (decompile_crush c) in
              modify (fun w => set_fs (write_file o text (fs w)) w)
          | None =>
              let* text := defined (decompile_crush c) in
              put_cout [OStr text]
          end
      end
  end.

Definition compile (E : externals) (me cinfn : string) (outfn : option string) : M unit :=
  modify (set_crush create) ;;
  let* r := compile_crush_file (ast_parse E) cinfn in
  on_crush finalize ;;
  when (r <? 0) (exit 1) ;;
  match outfn with
  | Some o =>
      let* w := get in
      when (bool_decide (o ∈ unwritable (fs w)))
        (put_cerr [OStr me; OStr ": error writing '"; OStr o; OStr "': ";
                   OStr (strerror EACCES); endl] ;;
         exit 1) ;;
      modify (fun w => set_fs (write_file o (encode E (crush w)) (fs w)) w) ;;
      when (negb (verbose w =? 0)) (put_cout [OStr "wrote crush map to "; OStr o; endl])
  | None =>
      put_cout [OStr me; OStr " successfully compiled '"; OStr cinfn;
                OStr "'.  Use -o file to write it out."; endl]
  end.

(** [main]: [me] is [argv[0]], [args] the arguments after it. *)
Definition main (E : externals) (me : string) (args : list string) : M Z :=
  let* o := parse_args me args no_options in
  when (bool_decide (is_Some (cinfn o)) && bool_decide (is_Some (dinfn o))) (usage me) ;;
  when (negb (bool_decide (is_Some (cinfn o))) && negb (bool_decide (is_Some (dinfn o))))
    (usage me) ;;
  match dinfn o with
  | Some d => decompile E me d (outfn o)
  | None => ret tt
  end ;;
  match cinfn o with
  | Some c => compile E me c (outfn o)
  | None => ret tt
  end ;;
  ret 0.

(** The process at its start: no table filled, an empty map, nothing
    printed. *)
Definition start (f : filesys) : world :=
  mk_world 0 ∅ ∅ ∅ ∅ ∅ ∅ create [] [] f.

(** The exit status of the process; an abnormal end has none. *)
Definition exit_status (r : outcome Z) : option Z :=
  match r with
  | Done v _ => Some v
  | Exit s _ => Some s
  | _ => None
  end.

Definition final_world {A} (r : outcome A) : option world :=
  match r with
  | Done _ w | Exit _ w | Abort w => Some w
  | Undefined => None
  end.

End Tool.

(** ** The text grammar and the binary layout, from the specification

    Neither the grammar ([crush/grammar.h]) nor the codec of
    [CrushWrapper] is among the sources. The two modules below follow the
    specification, and serve where a property needs a whole run from text
    to bytes. *)

Module Grammar.
Import CNum Tree Proc Compiler.

(** A token with the offsets of its first character and of the character
    after its last. *)
Record token := mk_token { t_text : string; t_start : Z; t_end : Z }.

Definition is_brace (c : ascii) : bool := Ascii.eqb c "{" || Ascii.eqb c "}".

Definition flush (cur : string) (cur_start pos : Z) : list token :=
  if cur == EmptyString then [] else [mk_token cur cur_start pos].

(** Modelled from the spec: the text format is a sequence of words
    separated by white space, the braces standing for themselves. *)
Fixpoint tokens (s : string) (pos : Z) (cur : string) (cur_start : Z) : list token :=
  match s with
  | EmptyString => flush cur cur_start pos
  | String c r =>
      if is_space c then flush cur cur_start pos ++ tokens r (pos + 1) EmptyString (pos + 1)
      else if is_brace c then
        flush cur cur_start pos ++ mk_token (String c EmptyString) pos (pos + 1)
          :: tokens r (pos + 1) EmptyString (pos + 1)
      else tokens r (pos + 1) (cur ++ String c EmptyString)
             (if cur == EmptyString then pos else cur_start)
  end.

Fixpoint all_chars (p : ascii -> bool) (s : string) : bool :=
  match s with
  | EmptyString => true
  | String c r => p c && all_chars p r
  end.

Definition is_alnum (c : ascii) : bool :=
  let n := nat_of_ascii c in
  is_digit c || (Nat.leb 65 n && Nat.leb n 90) || (Nat.leb 97 n && Nat.leb n 122).

Definition is_name (s : string) : bool :=
  negb (s == EmptyString)
  && all_chars (fun c => is_alnum c || Ascii.eqb c "-" || Ascii.eqb c "_" || Ascii.eqb c ".") s.

Definition is_posint (s : string) : bool := negb (s == EmptyString) && all_chars is_digit s.

Definition is_negint (s : string) : bool :=
  match s with
  | String "-" r => is_posint r
  | _ => false
  end.

Definition is_int (s : string) : bool := is_posint s || is_negint s.

Definition is_real (s : string) : bool :=
  all_chars (fun c => is_digit c || Ascii.eqb c "." || Ascii.eqb c "-" || Ascii.eqb c "+"
                      || Ascii.eqb c "e" || Ascii.eqb c "E") s
  && bool_decide (is_Some (read_decimal s)).

Definition lf (t : token) : node := leaf (t_text t).
Definition line (l : list token) : node := Node (_other 0) EmptyString (lf <$> l).

(** Modelled from the spec: [device 0 osd0 [offload 0.500 | load 0.500 |
    down]]. *)
Definition p_device (ts : list token) : option (node * list token) :=
  match ts with
  | kw :: i :: n :: rest =>
      if (t_text kw == "device") && is_posint (t_text i) && is_name (t_text n) then
        match rest with
        | tag :: v :: rest' =>
            if ((t_text tag == "offload") || (t_text tag == "load")) && is_real (t_text v)
            then Some (Node _device EmptyString (lf <$> [kw; i; n; tag; v]), rest')
            else if t_text tag == "down"
            then Some (Node _device EmptyString (lf <$> [kw; i; n; tag]), v :: rest')
            else Some (Node _device EmptyString (lf <$> [kw; i; n]), rest)
        | [tag] =>
            if t_text tag == "down"
            then Some (Node _device EmptyString (lf <$> [kw; i; n; tag]), [])
            else Some (Node _device EmptyString (lf <$> [kw; i; n]), rest)
        | [] => Some (Node _device EmptyString (lf <$> [kw; i; n]), rest)
        end
      else None
  | _ => None
  end.

(** Modelled from the spec: [type 1 host]. *)
Definition p_type (ts : list token) : option (node * list token) :=
  match ts with
  | kw :: i :: n :: rest =>
      if (t_text kw == "type") && is_posint (t_text i) && is_name (t_text n)
      then Some (Node _bucket_type EmptyString (lf <$> [kw; i; n]), rest)
      else None
  | _ => None
  end.

(** Modelled from the spec: [item osd0 weight 1.000 [pos 0]], the weight
    being optional as well. *)
Definition p_item (ts : list token) : option (node * list token) :=
  match ts with
  | kw :: n :: rest =>
      if (t_text kw == "item") && is_name (t_text n) then
        let '(wt, rest1) :=
          match rest with
          | k :: v :: r => if (t_text k == "weight") && is_real (t_text v)
                           then ([k; v], r) else ([], rest)
          | _ => ([], rest)
          end in
        let '(ps, rest2) :=
          match rest1 with
          | k :: v :: r => if (t_text k == "pos") && is_posint (t_text v)
                           then ([k; v], r) else ([], rest1)
          | _ => ([], rest1)
          end in
        Some (line (kw :: n :: wt ++ ps), rest2)
      else None
  | _ => None
  end.

Fixpoint p_items (fuel : nat) (ts : list token) : list node * list token :=
  match fuel with
  | O => ([], ts)
  | S fuel' =>
      match p_item ts with
      | Some (n, rest) => let '(ns, rest') := p_items fuel' rest in (n :: ns, rest')
      | None => ([], ts)
      end
  end.

(** Modelled from the spec: [<type-name> <bucket-name> { id -1 alg straw
    item ... }], the id line being optional and coming first. *)
Definition p_bucket (ts : list token) : option (node * list token) :=
  match ts with
  | tn :: n :: ob :: rest =>
      if is_name (t_text tn) && is_name (t_text n) && (t_text ob == "{") then
        let '(idl, rest1) :=
          match rest with
          | k :: v :: r => if (t_text k == "id") && is_negint (t_text v)
                           then ([line [k; v]], r) else ([], rest)
          | _ => ([], rest)
          end in
        match rest1 with
        | k :: a :: rest2 =>
            if (t_text k == "alg") && is_name (t_text a) then
              let '(items, rest3) := p_items (length rest2) rest2 in
              match rest3 with
              | cb :: rest4 =>
                  if t_text cb == "}" then
                    Some (Node _bucket EmptyString
                            ([lf tn; lf n; lf ob] ++ idl ++ [line [k; a]] ++ items ++ [lf cb]),
                          rest4)
                  else None
              | [] => None
              end
            else None
        | _ => None
        end
      else None
  | _ => None
  end.

Definition line_of_step (kw : token) (s : node) : node :=
  Node (_other 0) EmptyString [lf kw; s].

(** Modelled from the spec: the four steps of a rule. *)
Definition p_step (ts : list token) : option (node * list token) :=
  match ts with
  | kw :: op :: rest =>
      if t_text kw == "step" then
        if t_text op == "emit" then
          Some (line_of_step kw (Node _step_emit (t_text op) []), rest)
        else if t_text op == "take" then
          match rest with
          | i :: rest' =>
              if is_name (t_text i)
              then Some (line_of_step kw (Node _step_take EmptyString (lf <$> [op; i])), rest')
              else None
          | [] => None
          end
        else if (t_text op == "choose") || (t_text op == "chooseleaf") then
          match rest with
          | mode :: n :: ty :: tn :: rest' =>
              if ((t_text mode == "firstn") || (t_text mode == "indep"))
                 && is_int (t_text n) && (t_text ty == "type") && is_name (t_text tn)
              then Some (line_of_step kw
                           (Node (if t_text op == "choose" then _step_choose
                                  else _step_chooseleaf)
                              EmptyString (lf <$> [op; mode; n; ty; tn])), rest')
              else None
          | _ => None
          end
        else None
      else None
  | _ => None
  end.

Fixpoint p_steps (fuel : nat) (ts : list token) : list node * list token :=
  match fuel with
  | O => ([], ts)
  | S fuel' =>
      match p_step ts with
      | Some (n, rest) => let '(ns, rest') := p_steps fuel' rest in (n :: ns, rest')
      | None => ([], ts)
      end
  end.

(** Modelled from the spec: [rule [name] { pool 0 type replicated min_size
    1 max_size 10 step ... }]. *)
Definition p_rule (ts : list token) : option (node * list token) :=
  match ts with
  | kw :: rest =>
      if t_text kw == "rule" then
        let '(nm, rest1) :=
          match rest with
          | n :: r => if is_name (t_text n) then ([n], r) else ([], rest)
          | [] => ([], rest)
          end in
        match rest1 with
        | ob :: kp :: vp :: kt :: vt :: kmin :: vmin :: kmax :: vmax :: rest2 =>
            if (t_text ob == "{") && (t_text kp == "pool") && is_posint (t_text vp)
               && (t_text kt == "type")
               && ((t_text vt == "replicated") || (t_text vt == "raid4"))
               && (t_text kmin == "min_size") && is_posint (t_text vmin)
               && (t_text kmax == "max_size") && is_posint (t_text vmax)
            then
              let '(steps, rest3) := p_steps (length rest2) rest2 in
              match rest3 with
              | cb :: rest4 =>
                  if t_text cb == "}" then
                    Some (Node _crushrule EmptyString
                            ((lf <$> (kw :: nm ++ [ob; kp; vp; kt; vt; kmin; vmin; kmax; vmax]))
                             ++ steps ++ [lf cb]),
                          rest4)
                  else None
              | [] => None
              end
            else None
        | _ => None
        end
      else None
  | [] => None
  end.

Definition p_decl (ts : list token) : option (node * list token) :=
  match ts with
  | kw :: _ =>
      if t_text kw == "device" then p_device ts
      else if t_text kw == "type" then p_type ts
      else if t_text kw == "rule" then p_rule ts
      else p_bucket ts
  | [] => None
  end.

(** The declarations read from the head of the tokens, the offset reached
    and what is left. *)
Fixpoint p_decls (fuel : nat) (ts : list token) (pos : Z) : list node * Z * list token :=
  match fuel with
  | O => ([], pos, ts)
  | S fuel' =>
      match p_decl ts with
      | Some (n, rest) =>
          let pos' := match rest with
                      | t :: _ => t_start t
                      | [] => pos
                      end in
          let '(ns, p, rest') := p_decls fuel' rest pos' in (n :: ns, p, rest')
      | None => ([], pos, ts)
      end
  end.

(** Modelled from the spec: the parser reads declarations of the four
    top-level forms for as long as it can; the parse is full when nothing
    but white space is left, and stops at the first word it cannot
    place. *)
Definition ast_parse (text : string) : tree_parse_info :=
  let ts := tokens text 0 EmptyString 0 in
  let '(ns, pos, rest) := p_decls (length ts) ts 0 in
  mk_info (bool_decide (rest = [])) (match rest with [] => strlen text | _ => pos end)
    [Node (_other 0) EmptyString ns].

End Grammar.

Module Codec.
Import Crush.

(** What the layout of the specification leaves open: the magic number,
    the numbers that stand for the bucket kinds, the rule steps and the
    rule types, and the tables [finalize] precomputes per kind. *)
Record params := mk_params {
  magic : Z;
  alg_code : bucket_alg -> Z;
  op_code : rule_op -> Z;
  pg_code : pg_type -> Z;
  kind_tables : crush_bucket -> list Z
}.

Definition byte (z : Z) : ascii := ascii_of_nat (Z.to_nat (z mod 256)).

(** A 32-bit word, little-endian; a signed word is written in two's
    complement. *)
Definition u32 (z : Z) : list ascii :=
  [byte z; byte (z / 256); byte (z / 65536); byte (z / 16777216)].

Definition words (l : list Z) : list ascii := flat_map u32 l.

Definition slots (n : Z) : list Z := Z.of_nat <$> seq 0 (Z.to_nat n).

Definition encode_bucket (P : params) (c : CrushWrapper) (slot : Z) : list ascii :=
  match buckets c !! (-1 - slot) with
  | None => u32 0
  | Some b =>
      u32 1 ++ u32 (alg_code P (b_alg b)) ++ u32 (b_type b) ++ u32 (b_weight b)
        ++ u32 (b_size b) ++ words (b_items b) ++ words (b_item_weights b)
        ++ words (kind_tables P b)
  end.

Definition encode_step (P : params) (s : crush_rule_step) : list ascii :=
  u32 (op_code P (s_op s)) ++ u32 (s_arg1 s) ++ u32 (s_arg2 s).

Definition encode_rule (P : params) (c : CrushWrapper) (r : Z) : list ascii :=
  match rules c !! r with
  | None => u32 0
  | Some x =>
      u32 1 ++ u32 (Z.of_nat (length (r_steps x))) ++ u32 (r_pool x)
        ++ u32 (pg_code P (r_type x)) ++ u32 (r_min_size x) ++ u32 (r_max_size x)
        ++ flat_map (encode_step P) (r_steps x)
  end.

Definition encode_names (m : gmap Z string) : list ascii :=
  u32 (Z.of_nat (size m))
    ++ flat_map (fun kv => u32 (fst kv) ++ u32 (Z.of_nat (String.length (snd kv)))
                             ++ list_ascii_of_string (snd kv))
         (map_to_list m).

(** Modelled from the spec (section 4.5, binary codec): magic,
    [max_buckets], [max_rules], [max_devices]; the buckets, slot by slot;
    the rules; the offload of each device; the name tables of types, items
    and rules. *)
Definition encode_bytes (P : params) (c : CrushWrapper) : list ascii :=
  u32 (magic P) ++ u32 (max_buckets c) ++ u32 (max_rules c) ++ u32 (max_devices c)
    ++ flat_map (encode_bucket P c) (slots (max_buckets c))
    ++ flat_map (encode_rule P c) (slots (max_rules c))
    ++ words ((fun i => get_device_offload i c) <$> slots (max_devices c))
    ++ encode_names (type_map c) ++ encode_names (name_map c)
    ++ encode_names (rule_name_map c).

Definition encode (P : params) (c : CrushWrapper) : string :=
  string_of_list_ascii (encode_bytes P c).

End Codec.

(** ** Notions the statements below are written with *)

Module Spec.
Import CNum Tree Crush Proc Compiler Decompiler Tool.

(** The error messages of the compiler proper (everything under
    [parse_crush]), as inserted into [cerr]. *)
Inductive compile_error : list out_item -> Prop :=
| err_item_twice name :
    compile_error [OStr "item "; OStr name; OStr " defined twice"; endl]
| err_offload offload id name :
    compile_error [OStr "illegal device offload "; OFloat offload; OStr " on device ";
                   OInt id; OStr " "; OStr name; OStr " (valid range is [0,1])"; endl]
| err_bucket_type tname :
    compile_error [OStr "bucket type '"; OStr tname; OStr "' is not defined"; endl]
| err_bucket_defined name :
    compile_error [OStr "bucket or device '"; OStr name; OStr "' is already defined"; endl]
| err_alg a :
    compile_error [OStr "unknown bucket alg '"; OStr a; OStr "'"; endl]
| err_pos_occupied iname name pos :
    compile_error [OStr "item '"; OStr iname; OStr "' in bucket '"; OStr name;
                   OStr "' has explicit pos "; OInt pos; OStr ", which is occupied"; endl]
| err_item_undefined iname name :
    compile_error [OStr "item '"; OStr iname; OStr "' in bucket '"; OStr name;
                   OStr "' is not defined"; endl]
| err_pos_size iname name pos size :
    compile_error [OStr "item '"; OStr iname; OStr "' in bucket '"; OStr name;
                   OStr "' has pos "; OInt pos; OStr " >= size "; OInt size; endl]
| err_rule_twice rname :
    compile_error [OStr "rule name '"; OStr rname; OStr ("' already defined" ++ nl); endl]
| err_rule_item rname item :
    compile_error [OStr "in rule '"; OStr rname; OStr "' item '"; OStr item;
                   OStr "' not defined"; endl]
| err_rule_type rname type :
    compile_error [OStr "in rule '"; OStr rname; OStr "' type '"; OStr type;
                   OStr "' not defined"; endl].

(** The characters a stream received, given how it formats a float and a
    parser id. *)
Definition render (show_float : float -> string) (show_id : parser_id -> string)
    (l : list out_item) : string :=
  cat ((fun i => match i with
                 | OStr s => s
                 | OInt z => string_of_int z
                 | OFloat f => show_float f
                 | OParserId p => show_id p
                 end) <$> l).

(** A message of the form [<file>:<line>: <message>]. *)
Definition line_qualified (file msg : string) : Prop :=
  exists (line : Z) (rest : string),
    msg = cat [file; ":"; string_of_int line; ": "; rest].

(** A computation keeps [R] between the world it starts in and the world
    it returns in, leaves only through [exit(1)], and then in a world in
    relation [X] with the one it started in. *)
Definition ok (R X : world -> world -> Prop) {A} (m : M A) : Prop :=
  forall w, match m w with
            | Done _ w' => R w w'
            | Exit s w' => s = 1 /\ X w w'
            | _ => True
            end.

(** The arguments that take a value. *)
Definition takes_value (a : string) : bool := (a == "-d") || (a == "-o") || (a == "-c").

(** [clobber_added args args']: [args'] is [args] with one [--clobber]
    flag more, at a place where the argument loop looks for a flag. *)
Inductive clobber_added : list string -> list string -> Prop :=
| ca_here args : clobber_added args ("--clobber" :: args)
| ca_flag a l l' :
    takes_value a = false -> clobber_added l l' -> clobber_added (a :: l) (a :: l')
| ca_value a f l l' :
    takes_value a = true -> clobber_added l l' -> clobber_added (a :: f :: l) (a :: f :: l').

(** What [main] does once the arguments are read. *)
Definition after_args (E : externals) (me : string) (o : options) : M Z :=
  when (bool_decide (is_Some (cinfn o)) && bool_decide (is_Some (dinfn o))) (usage me) ;;
  when (negb (bool_decide (is_Some (cinfn o))) && negb (bool_decide (is_Some (dinfn o))))
    (usage me) ;;
  match dinfn o with
  | Some d => decompile E me d (outfn o)
  | None => ret tt
  end ;;
  match cinfn o with
  | Some c => compile E me c (outfn o)
  | None => ret tt
  end ;;
  ret 0.

Definition erase_clobber (o : options) : options :=
  mk_opts (cinfn o) (dinfn o) (outfn o) false.

Definition outcome_map {A B} (f : A -> B) (r : outcome A) : outcome B :=
  match r with
  | Done a w => Done (f a) w
  | Exit s w => Exit s w
  | Abort w => Abort w
  | Undefined => Undefined
  end.

(** *** Whole runs, from text to bytes *)

(** The map a successful run of the compiler leaves behind: what [main]
    encodes after [compile_crush_file] has returned 0 and the map has been
    finalized. *)
Definition compiled_map (parse : string -> tree_parse_info) (f : filesys)
    (infn : string) : option CrushWrapper :=
  match (modify (set_crush create) ;;
         let* r := compile_crush_file parse infn in
         on_crush finalize ;; ret r) (start f) with
  | Done r w => if r =? 0 then Some (crush w) else None
  | _ => None
  end.

Definition one_file (name content : string) : filesys := mk_fs {[ name := content ]} ∅.

(** Decompiling the compiled map and compiling the text again, in a new
    process. *)
Definition recompiled_map (parse : string -> tree_parse_info) (f : filesys)
    (infn : string) : option CrushWrapper :=
  m ← compiled_map parse f infn;
  text ← decompile_crush m;
  compiled_map parse (one_file "decompiled.txt" text) "decompiled.txt".

(** A fixed point value printed by the decompiler and read back by the
    compiler. *)
Definition reread (v : Z) : option Z := fixed_of_float (strtof (print_fixedpoint v)).

Fixpoint all_from (f : Z -> bool) (n : nat) (k : Z) : bool :=
  match n with
  | O => true
  | S n' => f k && all_from f n' (k + 1)
  end.

(** [round(x * 65536)] for the decimal [(-1)^neg * m * 10^e]: the nearest
    integer, halves away from zero. *)
Definition round_fixed (neg : bool) (m e : Z) : Z :=
  let q := (inject_Z m * (if 0 <=? e then inject_Z (10 ^ e) else / inject_Z (10 ^ (- e)))
            * 65536)%Q in
  let r := Qfloor (q + (1 # 2))%Q in
  if neg then - r else r.

(** *** Sample inputs *)

Definition lines (l : list string) : string := cat ((fun s => cat [s; nl]) <$> l).

(** One device in one straw host, with a weight that three decimals do
    not hold. *)
Definition weights_txt : string :=
  lines ["device 0 osd0"; "type 0 device"; "type 1 host";
         "host h1 {"; "  id -1"; "  alg straw"; "  item osd0 weight 1.0005"; "}"].

(** The same name for two devices. *)
Definition twice_txt : string :=
  lines ["device 0 osd0"; "device 1 osd0"].

(** The same name for two types. *)
Definition types_txt : string :=
  lines ["type 1 host"; "type 2 host"].

(** A text the grammar does not accept. *)
Definition broken_txt : string :=
  lines ["device 0 osd0"; "device one osd1"].

Definition sample_fs : filesys :=
  mk_fs {[ "weights.txt" := weights_txt; "twice.txt" := twice_txt;
           "types.txt" := types_txt; "broken.txt" := broken_txt ]} ∅.

Definition no_tables : Codec.params :=
  Codec.mk_params 0 (fun _ => 0) (fun _ => 0) (fun _ => 0) (fun _ => []).

(** The grammar and the encoder of the specification; no decoder. *)
Definition sample_externals : externals :=
  mk_ext Grammar.ast_parse (Codec.encode no_tables) (fun _ => None).


(** *** The shape of the trees the grammar builds *)











(** The world a computation ends in, for runs that are known to return. *)
Definition world_of {A} (r : outcome A) (w0 : world) : world :=
  match r with
  | Done _ w | Exit _ w | Abort w => w
  | Undefined => w0
  end.

(** Two hosts, the first without an id, the second claiming -1; a third
    bucket holds the first without giving weights. *)
Definition hosts_txt : string :=
  lines ["device 0 osd0"; "device 1 osd1"; "type 1 host"; "type 2 root";
         "host h1 {"; "  alg straw"; "  item osd0 weight 2.5"; "  item osd1"; "}";
         "host h2 {"; "  id -1"; "  alg straw"; "  item osd1"; "}";
         "root top {"; "  alg straw"; "  item h1"; "  item osd0"; "}"].

Definition hosts_nodes : list node :=
  Eval vm_compute in
    match trees (Grammar.ast_parse hosts_txt) with
    | [Node _ _ ns] => ns
    | _ => []
    end.


Definition hosts_pre : list node := Eval vm_compute in take 4 hosts_nodes.
Definition hosts_h1 : node := Eval vm_compute in default (leaf EmptyString) (hosts_nodes !! 4%nat).
Definition hosts_post : list node := Eval vm_compute in drop 5 hosts_nodes.

(** The world before the block of [h1] is compiled, and the one after. *)
Definition before_h1 : world :=
  world_of ((find_used_bucket_ids (hosts_pre ++ hosts_h1 :: hosts_post) ;;
             parse_decls hosts_pre) (start sample_fs)) (start sample_fs).
Definition after_h1 : world := world_of (parse_bucket hosts_h1 before_h1) before_h1.


(** *** The value of a float *)

(** The rational a finite binary float stands for; 0 for the others. *)
Definition float_value (f : float) : Q :=
  match f with
  | S754_finite s m e =>
      let v := if 0 <=? e then (Zpos m * 2 ^ e) # 1 else Zpos m # Z.to_pos (2 ^ (- e)) in
      if s then (- v)%Q else v
  | _ => 0%Q
  end.

(** Zero or a positive finite number. *)
Definition nonneg_finite (f : float) : Prop :=
  match f with
  | S754_zero _ | S754_finite false _ _ => True
  | _ => False
  end.

(** A number of the interval [0, 1]. *)
Definition in_unit_interval (f : float) : Prop :=
  nonneg_finite f /\ (float_value f <= 1)%Q.



(** *** Item lines of a bucket block *)

(** The values of the [pos] tags among the tags of an item line, read two
    by two as both loops of [parse_bucket] read them. *)
Fixpoint tag_positions (tags : list node) : list Z :=
  match tags with
  | t :: v :: rest =>
      (if string_node t == "pos" then [int_node v] else []) ++ tag_positions rest
  | _ => []
  end.

Definition is_item_line (sub : node) : bool :=
  match children sub with
  | t :: _ => string_node t == "item"
  | [] => false
  end.

(** The explicit positions an item line asks for; none for the other
    lines. *)
Definition line_positions (sub : node) : list Z :=
  if is_item_line sub then tag_positions (drop 2 (children sub)) else [].

(** The name an item line gives. *)
Definition item_line_name (sub : node) : option string :=
  if is_item_line sub then string_node <$> (children sub !! 1%nat) else None.

Definition item_lines (lines : list node) : list node := filter (fun s => is_item_line s = true) lines.


(** *** Steps of a rule block *)

(** Where the fields of a rule block start: after the name, if there is
    one. *)
Definition rule_start (i : node) : nat :=
  match children i !! 1%nat with
  | Some c1 => if string_node c1 == "{" then 3%nat else 4%nat
  | None => 0%nat
  end.

(** The number of steps [parse_rule] asks the map for. *)
Definition rule_step_count (i : node) : nat :=
  Z.to_nat (Z.of_nat (length (children i)) - Z.of_nat (rule_start i) - 8).

(** The item a [take] step names, the type a [choose] or [chooseleaf]
    step names. *)
Definition step_take_item (s : node) : option string :=
  match value_id s with
  | _step_take => string_node <$> (children s !! 1%nat)
  | _ => None
  end.

Definition step_choose_type (s : node) : option string :=
  match value_id s with
  | _step_choose | _step_chooseleaf => string_node <$> (children s !! 4%nat)
  | _ => None
  end.

(** The item and type tables are what they were. *)
Definition names_kept (w w' : world) : Prop :=
  item_id w' = item_id w /\ type_id w' = type_id w.


(** *** A text with a rule *)

Definition rules_txt : string :=
  lines ["device 0 osd0"; "type 0 device"; "type 1 host";
         "host h1 {"; "  id -1"; "  alg straw"; "  item osd0 weight 1.0"; "}";
         "rule data {"; "  pool 0"; "  type replicated"; "  min_size 1"; "  max_size 10";
         "  step take h1"; "  step choose firstn 0 type device"; "  step emit"; "}"].

Definition rules_nodes : list node :=
  Eval vm_compute in
    match trees (Grammar.ast_parse rules_txt) with
    | [Node _ _ ns] => ns
    | _ => []
    end.

Definition rules_rule : node := Eval vm_compute in default (leaf EmptyString) (rules_nodes !! 4%nat).

(** The world before the rule block is compiled. *)
Definition before_rule : world :=
  world_of ((find_used_bucket_ids rules_nodes ;; parse_decls (take 4 rules_nodes))
              (start sample_fs)) (start sample_fs).
Definition after_rule : world := world_of (parse_rule rules_rule before_rule) before_rule.


(** *** Characters of a line *)

Fixpoint has_char (c : ascii) (s : string) : bool :=
  match s with
  | EmptyString => false
  | String a r => Ascii.eqb a c || has_char c r
  end.

Definition has_hash (s : string) : bool := has_char "#" s.
Definition has_newline (s : string) : bool := has_char (ascii_of_nat 10) s.


(** *** Running without [-v] *)

(** [verbose] and [cout] are what they were. *)
Definition keeps_cout (w w' : world) : Prop :=
  verbose w' = verbose w /\ cout w' = cout w.

(** Started with [verbose] at 0, a computation prints nothing on [cout]
    and leaves [verbose] at 0. *)
Definition silent {A} (m : M A) : Prop :=
  forall w, verbose w = 0 ->
    match m w with
    | Done _ w' | Exit _ w' => keeps_cout w w'
    | _ => True
    end.


(** *** A bucket with an item of weight zero *)

Definition zero_txt : string :=
  lines ["device 0 osd0"; "device 1 osd1"; "type 0 device"; "type 1 host";
         "host h1 {"; "  id -1"; "  alg straw"; "  item osd0 weight 0.000";
         "  item osd1 weight 1.000"; "}"].

(** The text the decompiler gives for the map compiled from [zero_txt]. *)
Definition zero_decompiled : string :=
  lines ["# begin crush map"; EmptyString;
         "# devices"; "device 0 osd0"; "device 1 osd1"; EmptyString;
         "# types"; "type 0 device"; "type 1 host"; EmptyString;
         "# buckets"; "host h1 {";
         cat [tab; "id -1"; tab; tab; "# do not change unnecessarily"];
         cat [tab; "alg straw"];
         cat [tab; "item osd1 weight 1.000 pos 1"];
         "}"; EmptyString;
         "# rules"; EmptyString;
         "# end crush map"].

(** *** The command line, read as the specification reads it *)








(** *** The buckets of a file *)

Definition is_bucket_block (p : node) : bool := parser_id_eqb (value_id p) _bucket.

Definition bucket_blocks (ps : list node) : list node :=
  filter (fun p => is_bucket_block p = true) ps.

(** The id under which the bucket of a block is known once the block is
    compiled: what [item_id] holds for the name of the block. *)
Definition block_id (w : world) (p : node) : option Z :=
  match children p !! 1%nat with
  | Some n => item_id w !! string_node n
  | None => None
  end.

Definition assigned_ids (w : world) (ps : list node) : list Z :=
  omap (block_id w) (bucket_blocks ps).


(** *** The weight of an item line and of a block *)

(** The value of the last [weight] tag among the tags of an item line. *)
Fixpoint tag_weight (tags : list node) : option float :=
  match tags with
  | t :: v :: rest =>
      match tag_weight rest with
      | Some f => Some f
      | None => if string_node t == "weight" then Some (float_node v) else None
      end
  | _ => None
  end.

(** The weight an item line stands for in world [w]: the one it gives,
    or else the default for its item. *)
Definition line_weight (w : world) (sub : node) : float :=
  match tag_weight (drop 2 (children sub)) with
  | Some f => f
  | None =>
      match children sub !! 1%nat with
      | Some c1 => default_weight w (default 0 (item_id w !! string_node c1))
      | None => float_of_double done
      end
  end.

(** The weights of the item lines of a block, added up one after the
    other as binary32 numbers, from 0. *)
Definition block_weight (w : world) (p : node) : float :=
  foldl (fun acc sub => fadd acc (line_weight w sub)) (float_of_int 0)
        (item_lines (bucket_lines p)).


(** *** Sample files with several buckets *)

(** The tree the grammar builds for a text. *)
Definition tree_of (text : string) : node :=
  match trees (Grammar.ast_parse text) with
  | root :: _ => root
  | [] => leaf EmptyString
  end.

Definition hosts_root : node := Eval vm_compute in tree_of hosts_txt.

(** The world the compiler ends in on [hosts_txt]. *)
Definition hosts_world : world :=
  world_of (parse_crush hosts_root (start sample_fs)) (start sample_fs).










End Spec.

(** * Properties *)

Import CNum Tree Crush Proc Compiler Decompiler Tool Spec.

(** ** Reasoning about computations in the exit monad *)

Section Frame.
Variables (R X : world -> world -> Prop) (Msg : list out_item -> Prop).
Hypothesis R_refl : forall w, R w w.
Hypothesis R_trans : forall a b c, R a b -> R b c -> R a c.
Hypothesis R_X : forall a b c, R a b -> X b c -> X a c.
Hypothesis R_item_id : forall w v, R w (set_item_id v w).
Hypothesis R_id_item : forall w v, R w (set_id_item v w).
Hypothesis R_item_weight : forall w v, R w (set_item_weight v w).
Hypothesis R_device_offload : forall w v, R w (set_device_offload v w).
Hypothesis R_type_id : forall w v, R w (set_type_id v w).
Hypothesis R_rule_id : forall w v, R w (set_rule_id v w).
Hypothesis R_crush : forall w v, R w (set_crush v w).
Hypothesis R_cout : forall w v, R w (set_cout v w).
Hypothesis X_cerr : forall w msg, Msg msg -> X w (set_cerr (cerr w ++ msg) w).
Hypothesis Msg_all : forall msg, compile_error msg -> Msg msg.

Lemma ok_ret {A} (a : A) : ok R X (ret a).
Proof. intros w. apply R_refl. Qed.

Lemma ok_bind {A B} (m : M A) (k : A -> M B) :
  ok R X m -> (forall a, ok R X (k a)) -> ok R X (bind m k).
Proof.
  intros Hm Hk w. unfold bind. specialize (Hm w).
  destruct (m w) as [a w1 | s w1 | w1 |]; auto.
  specialize (Hk a w1). destruct (k a w1) as [b w2 | s w2 | w2 |]; auto.
  - eapply R_trans; eauto.
  - destruct Hk; split; eauto.
Qed.

Lemma ok_get : ok R X get.
Proof. intros w. apply R_refl. Qed.

Lemma ok_abort {A} : ok R X (@abort A).
Proof. intros w. exact I. Qed.

Lemma ok_undefined {A} : ok R X (@undefined A).
Proof. intros w. exact I. Qed.

Lemma ok_defined {A} (o : option A) : ok R X (defined o).
Proof. destruct o; [apply ok_ret | apply ok_undefined]. Qed.

Lemma ok_when b m : ok R X m -> ok R X (when b m).
Proof. destruct b; simpl; auto using ok_ret. Qed.

Lemma ok_modify f : (forall w, R w (f w)) -> ok R X (modify f).
Proof. intros H w. apply H. Qed.

Lemma ok_child n k : ok R X (child n k).
Proof. apply ok_defined. Qed.

Lemma ok_put_cout l : ok R X (put_cout l).
Proof. apply ok_modify. intros; apply R_cout. Qed.

Lemma ok_on_crush f : ok R X (on_crush f).
Proof. apply ok_modify. intros; apply R_crush. Qed.

Lemma ok_error {A} msg : Msg msg -> ok R X (put_cerr msg ;; @exit A 1).
Proof. intros H w. cbn. split; [reflexivity | apply X_cerr, H]. Qed.

Lemma ok_error_abort {A} msg : ok R X (put_cerr msg ;; @abort A).
Proof. intros w. exact I. Qed.

End Frame.

(** One step through a computation of the compiler. *)
Ltac ok_step :=
  lazymatch goal with
  | |- ok _ _ (ret _) => apply ok_ret; assumption
  | |- ok _ _ get => apply ok_get; assumption
  | |- ok _ _ abort => apply ok_abort
  | |- ok _ _ undefined => apply ok_undefined
  | |- ok _ _ (defined _) => apply ok_defined; assumption
  | |- ok _ _ (child _ _) => apply ok_child; assumption
  | |- ok _ _ (put_cout _) => apply ok_put_cout; assumption
  | |- ok _ _ (on_crush _) => apply ok_on_crush; assumption
  | |- ok _ _ (bind (put_cerr _) (fun _ => abort)) => apply ok_error_abort
  | |- ok _ _ (bind (put_cerr _) (fun _ => exit 1)) =>
      eapply ok_error; [eassumption | solve [eauto using compile_error] ]
  | |- ok _ _ (when _ _) => apply ok_when; [assumption | ]
  | |- ok _ _ (modify _) => apply ok_modify; intros; solve [auto]
  | |- ok _ _ (bind _ _) => apply ok_bind; [ assumption | assumption | | intros ]
  | |- ok _ _ (if ?b then _ else _) => destruct b
  | |- ok _ _ (match ?x with _ => _ end) => destruct x
  end.

Section FrameCompiler.
Variables (R X : world -> world -> Prop) (Msg : list out_item -> Prop).
Hypothesis R_refl : forall w, R w w.
Hypothesis R_trans : forall a b c, R a b -> R b c -> R a c.
Hypothesis R_X : forall a b c, R a b -> X b c -> X a c.
Hypothesis R_item_id : forall w v, R w (set_item_id v w).
Hypothesis R_id_item : forall w v, R w (set_id_item v w).
Hypothesis R_item_weight : forall w v, R w (set_item_weight v w).
Hypothesis R_device_offload : forall w v, R w (set_device_offload v w).
Hypothesis R_type_id : forall w v, R w (set_type_id v w).
Hypothesis R_rule_id : forall w v, R w (set_rule_id v w).
Hypothesis R_crush : forall w v, R w (set_crush v w).
Hypothesis R_cout : forall w v, R w (set_cout v w).
Hypothesis X_cerr : forall w msg, Msg msg -> X w (set_cerr (cerr w ++ msg) w).
Hypothesis Msg_all : forall msg, compile_error msg -> Msg msg.

Lemma ok_parse_device i : ok R X (parse_device i).
Proof. unfold parse_device, device_offload_value. repeat ok_step. Qed.

Lemma ok_parse_bucket_type i : ok R X (parse_bucket_type i).
Proof. unfold parse_bucket_type. repeat ok_step. Qed.

Lemma ok_item_used_pos sub name tags : forall used, ok R X (item_used_pos sub name tags used).
Proof.
  remember (length tags) as n eqn:Hn.
  revert tags Hn. induction n as [n IH] using lt_wf_ind. intros tags Hn used.
  destruct tags as [|t [|v rest]]; cbn [item_used_pos].
  - ok_step.
  - repeat ok_step.
  - destruct (string_node t == "pos").
    + destruct (bool_decide (int_node v ∈ used)).
      * repeat ok_step.
      * eapply IH; [|reflexivity]. subst n. cbn. lia.
    + eapply IH; [|reflexivity]. subst n. cbn. lia.
Qed.

Lemma ok_bucket_head_line name h sub : ok R X (bucket_head_line name h sub).
Proof.
  unfold bucket_head_line. repeat ok_step. apply ok_item_used_pos.
Qed.

Lemma ok_bucket_head_loop name lines : forall h, ok R X (bucket_head_loop name lines h).
Proof.
  induction lines as [|sub rest IH]; intros h; cbn [bucket_head_loop].
  - ok_step.
  - ok_step; [apply ok_bucket_head_line | apply IH].
Qed.

Lemma ok_item_tags tags : forall weight pos, ok R X (item_tags tags weight pos).
Proof.
  remember (length tags) as n eqn:Hn.
  revert tags Hn. induction n as [n IH] using lt_wf_ind. intros tags Hn weight pos.
  destruct tags as [|t [|v rest]]; cbn [item_tags].
  - ok_step.
  - repeat ok_step.
  - destruct (string_node t == "weight").
    + eapply IH; [|reflexivity]. subst n. cbn. lia.
    + destruct (string_node t == "pos").
      * eapply IH; [|reflexivity]. subst n. cbn. lia.
      * ok_step.
Qed.

Lemma ok_bucket_body_line name used size y sub : ok R X (bucket_body_line name used size y sub).
Proof.
  unfold bucket_body_line. repeat ok_step. apply ok_item_tags.
Qed.

Lemma ok_bucket_body_loop name used size lines :
  forall y, ok R X (bucket_body_loop name used size lines y).
Proof.
  induction lines as [|sub rest IH]; intros y; cbn [bucket_body_loop].
  - ok_step.
  - ok_step; [apply ok_bucket_body_line | apply IH].
Qed.

Lemma ok_parse_bucket i : ok R X (parse_bucket i).
Proof.
  unfold parse_bucket. repeat ok_step.
  - apply ok_bucket_head_loop.
  - apply ok_bucket_body_loop.
Qed.

Lemma ok_rule_step ruleno rname step s : ok R X (rule_step ruleno rname step s).
Proof. unfold rule_step. repeat ok_step. Qed.

Lemma ok_rule_steps i ruleno rname steps :
  forall idx step, ok R X (rule_steps i ruleno rname steps idx step).
Proof.
  induction steps as [|n IH]; intros idx step; cbn [rule_steps].
  - ok_step.
  - repeat ok_step; [apply ok_rule_step | apply IH].
Qed.

Lemma ok_parse_rule i : ok R X (parse_rule i).
Proof.
  unfold parse_rule. repeat ok_step. apply ok_rule_steps.
Qed.

Lemma ok_find_used_bucket_ids ps : ok R X (find_used_bucket_ids ps).
Proof.
  induction ps as [|p rest IH]; cbn [find_used_bucket_ids].
  - ok_step.
  - ok_step; [|apply IH]. unfold find_used_bucket_id. repeat ok_step.
Qed.

Lemma ok_parse_decl p : ok R X (parse_decl p).
Proof.
  unfold parse_decl.
  destruct (value_id p); try ok_step;
    auto using ok_parse_device, ok_parse_bucket_type, ok_parse_bucket, ok_parse_rule.
Qed.

Lemma ok_parse_decls ps : ok R X (parse_decls ps).
Proof.
  induction ps as [|p rest IH]; cbn [parse_decls].
  - ok_step.
  - ok_step; [apply ok_parse_decl | apply IH].
Qed.

Lemma ok_parse_crush i : ok R X (parse_crush i).
Proof.
  unfold parse_crush. repeat ok_step.
  - apply ok_find_used_bucket_ids.
  - apply ok_parse_decls.
Qed.

Lemma ok_read_lines lines : forall rd, ok R X (read_lines rd lines).
Proof.
  induction lines as [|l rest IH]; intros rd; cbn [read_lines].
  - ok_step.
  - ok_step; [|apply IH]. unfold read_line. repeat ok_step.
Qed.

End FrameCompiler.

(** ** The command line *)

Lemma main_after_args E me args :
  main E me args = (let* o := parse_args me args no_options in after_args E me o).
Proof. reflexivity. Qed.

Lemma after_args_erase E me o : after_args E me (erase_clobber o) = after_args E me o.
Proof. destruct o; reflexivity. Qed.

Lemma parse_args_erase me args :
  forall o o' w, erase_clobber o = erase_clobber o' ->
    outcome_map erase_clobber (parse_args me args o w)
    = outcome_map erase_clobber (parse_args me args o' w).
Proof.
  remember (length args) as n eqn:Hn.
  revert args Hn. induction n as [n IH] using lt_wf_ind. intros args Hn o o' w Ho.
  assert (Hf : cinfn o = cinfn o' /\ dinfn o = dinfn o' /\ outfn o = outfn o').
  { destruct o, o'; unfold erase_clobber in Ho; cbn in Ho. by inversion Ho. }
  destruct Hf as (Hc & Hd & Hf).
  destruct args as [|a rest]; cbn [parse_args].
  - cbn. by rewrite Ho.
  - destruct (a == "--clobber").
    { rewrite Hc, Hd, Hf. reflexivity. }
    destruct (a == "-d").
    { destruct rest as [|f rest']; [reflexivity|].
      eapply IH; [|reflexivity|]; [subst n; cbn; lia|].
      unfold erase_clobber; cbn. by rewrite Hc, Hf. }
    destruct (a == "-o").
    { destruct rest as [|f rest']; [reflexivity|].
      eapply IH; [|reflexivity|]; [subst n; cbn; lia|].
      unfold erase_clobber; cbn. by rewrite Hc, Hd. }
    destruct (a == "-c").
    { destruct rest as [|f rest']; [reflexivity|].
      eapply IH; [|reflexivity|]; [subst n; cbn; lia|].
      unfold erase_clobber; cbn. by rewrite Hd, Hf. }
    destruct (a == "-v"); [|reflexivity].
    unfold bind, modify. eapply IH; [|reflexivity|]; [subst n; cbn; lia|done].
Qed.

Lemma parse_args_clobber_added me args args' :
  clobber_added args args' ->
  forall o w,
    outcome_map erase_clobber (parse_args me args o w)
    = outcome_map erase_clobber (parse_args me args' o w).
Proof.
  induction 1 as [args | a l l' Ha _ IH | a f l l' Ha _ IH]; intros o w.
  - cbn [parse_args]. cbn. apply parse_args_erase. reflexivity.
  - unfold takes_value in Ha. cbn [parse_args].
    destruct (a == "--clobber"); [apply IH|].
    destruct (a == "-d"); [by cbn in Ha|].
    destruct (a == "-o"); [by cbn in Ha|].
    destruct (a == "-c"); [by cbn in Ha|].
    destruct (a == "-v"); [|reflexivity].
    unfold bind, modify. apply IH.
  - unfold takes_value in Ha. cbn [parse_args].
    destruct (a == "--clobber") eqn:Hcl.
    { apply String.eqb_eq in Hcl. subst a. by cbn in Ha. }
    destruct (a == "-d"); [apply IH|].
    destruct (a == "-o"); [apply IH|].
    destruct (a == "-c"); [apply IH|].
    by cbn in Ha.
Qed.

Lemma bind_outcome_map {A} (m1 m2 : M options) (k : options -> M A) w :
  (forall o, k (erase_clobber o) = k o) ->
  outcome_map erase_clobber (m1 w) = outcome_map erase_clobber (m2 w) ->
  bind m1 k w = bind m2 k w.
Proof.
  intros Hk H. unfold bind.
  destruct (m1 w) as [a1 w1| | |], (m2 w) as [a2 w2| | |]; cbn in H; congruence.
Qed.

(** C9. The [--clobber] flag has no effect: an argument vector and the
    same vector with one [--clobber] more (at a place where a flag is
    looked for) lead [main] to the same outcome, that is to the same exit
    status, the same files and the same text on both streams. *)
Theorem clobber_has_no_effect E me args args' w :
  clobber_added args args' -> main E me args w = main E me args' w.
Proof.
  intros H. rewrite !main_after_args.
  apply bind_outcome_map; [apply after_args_erase|].
  by apply parse_args_clobber_added.
Qed.

(** *** What the argument loop and the compiler leave alone *)


Lemma parse_args_done me args :
  forall o w o' w', parse_args me args o w = Done o' w' -> w' = set_verbose (verbose w') w.
Proof.
  remember (length args) as n eqn:Hn.
  revert args Hn. induction n as [n IH] using lt_wf_ind. intros args Hn o w o' w'.
  destruct args as [|a rest]; cbn [parse_args].
  - intros [= <- <-]. by destruct w.
  - destruct (a == "--clobber"); [eapply IH; [|reflexivity]; subst n; cbn; lia|].
    destruct (a == "-d").
    { destruct rest as [|f rest']; [discriminate|].
      eapply IH; [|reflexivity]; subst n; cbn; lia. }
    destruct (a == "-o").
    { destruct rest as [|f rest']; [discriminate|].
      eapply IH; [|reflexivity]; subst n; cbn; lia. }
    destruct (a == "-c").
    { destruct rest as [|f rest']; [discriminate|].
      eapply IH; [|reflexivity]; subst n; cbn; lia. }
    destruct (a == "-v"); [|discriminate].
    unfold bind, modify. intros H. eapply (IH (length rest)) in H; [|subst n; cbn; lia|reflexivity].
    rewrite H. by destruct w.
Qed.






(** *** Exit status and error messages *)

Arguments decompile_crush : simpl never.
Arguments parse_crush : simpl never.

(** [cerr] has only received more, and has received a message. *)
Definition grows (w w' : world) : Prop := exists l, cerr w' = cerr w ++ l.
Definition reports (w w' : world) : Prop := exists l, l <> [] /\ cerr w' = cerr w ++ l.

Lemma grows_refl w : grows w w.
Proof. exists []. by rewrite app_nil_r. Qed.

Lemma grows_same w w' : cerr w' = cerr w -> grows w w'.
Proof. intros H. exists []. by rewrite app_nil_r. Qed.

Lemma grows_trans a b c : grows a b -> grows b c -> grows a c.
Proof. intros [l1 H1] [l2 H2]. exists (l1 ++ l2). by rewrite H2, H1, app_assoc. Qed.

Lemma grows_reports a b c : grows a b -> reports b c -> reports a c.
Proof.
  intros [l1 H1] (l2 & Hne & H2). exists (l1 ++ l2). split.
  - destruct l1, l2; cbn; congruence.
  - by rewrite H2, H1, app_assoc.
Qed.

Lemma reports_put w msg : msg <> [] -> reports w (set_cerr (cerr w ++ msg) w).
Proof. intros H. by exists msg. Qed.

Ltac reported := eexists; split; [|cbn; reflexivity]; done.

Lemma compile_error_nonempty msg : compile_error msg -> msg <> [].
Proof. by destruct 1. Qed.

Lemma grows_ok_parse_crush i : ok grows reports (parse_crush i).
Proof.
  apply ok_parse_crush with (Msg := fun m => m <> []);
    eauto using grows_refl, grows_trans, grows_reports, reports_put, compile_error_nonempty;
    intros; by apply grows_same.
Qed.

Lemma grows_ok_read_lines lines rd : ok grows reports (read_lines rd lines).
Proof.
  apply ok_read_lines;
    eauto using grows_refl, grows_trans, grows_reports; intros; by apply grows_same.
Qed.

(** [compile_crush_file] returns a negative value only after a message on
    [cerr], and leaves through [exit(1)] only after one. *)
Lemma compile_crush_file_reports p infn w :
  match compile_crush_file p infn w with
  | Done r w' => grows w w' /\ (r < 0 -> reports w w')
  | Exit s w' => s = 1 /\ reports w w'
  | _ => True
  end.
Proof.
  unfold compile_crush_file, bind at 1, get.
  destruct (files (fs w) !! infn) as [content|].
  2:{ cbn. split; [by eexists|]. intros _. reported. }
  unfold bind at 1.
  pose proof (grows_ok_read_lines (getlines content) (mk_reader EmptyString 1 ∅ ∅) w) as Hr.
  destruct (read_lines _ _ w) as [rd w1 | s w1 | w1 |]; auto.
  unfold bind at 1.
  assert (Hv : exists w2, when (2 <? verbose w)
       (put_cout [OStr ("whole file is: " ++ dquote); OStr (big rd); OStr dquote; endl]) w1
       = Done tt w2 /\ grows w w2).
  { destruct (2 <? verbose w); eexists; split; try reflexivity; exact Hr. }
  destruct Hv as (w2 & -> & Hw2).
  destruct (negb (full (p (big rd)))).
  - destruct (line_at (line_pos rd) (stop (p (big rd)))) as [[first line]|]; [|exact I].
    destruct (if stop (p (big rd)) - first <? 0 then None else _) as [rest|]; [|exact I].
    cbn. split; [|lia]. eapply grows_trans; [exact Hw2|]. by eexists.
  - destruct (trees (p (big rd))) as [|root ?]; [exact I|].
    unfold bind at 1. pose proof (grows_ok_parse_crush root w2) as Hp.
    destruct (parse_crush root w2) as [[] w3 | s w3 | w3 |]; auto.
    + cbn. split; [|lia]. eapply grows_trans; eauto.
    + destruct Hp. split; [done|]. eapply grows_reports; eauto.
Qed.

(** The argument loop either returns, having changed nothing but
    [verbose], or prints the usage line on [cout] and leaves with status
    1. *)
Lemma parse_args_exit me args :
  forall o w s w', parse_args me args o w = Exit s w' ->
    s = 1 /\ cerr w' = cerr w /\ cout w' = cout w ++ [OStr me; OStr usage_line; endl].
Proof.
  remember (length args) as n eqn:Hn.
  revert args Hn. induction n as [n IH] using lt_wf_ind. intros args Hn o w s w'.
  destruct args as [|a rest]; cbn [parse_args]; [discriminate|].
  destruct (a == "--clobber"); [eapply IH; [|reflexivity]; subst n; cbn; lia|].
  destruct (a == "-d").
  { destruct rest as [|f rest']; [discriminate|].
    eapply IH; [|reflexivity]; subst n; cbn; lia. }
  destruct (a == "-o").
  { destruct rest as [|f rest']; [discriminate|].
    eapply IH; [|reflexivity]; subst n; cbn; lia. }
  destruct (a == "-c").
  { destruct rest as [|f rest']; [discriminate|].
    eapply IH; [|reflexivity]; subst n; cbn; lia. }
  destruct (a == "-v").
  - unfold bind, modify. intros H.
    eapply (IH (length rest)) in H; [|subst n; cbn; lia|reflexivity]. exact H.
  - intros [= <- <-]. done.
Qed.

(** How [main] can leave with status 1: after the usage line on [cout],
    or after a message on [cerr]. *)
Definition error_exit (me : string) (w w' : world) : Prop :=
  (cerr w' = cerr w /\ cout w' = cout w ++ [OStr me; OStr usage_line; endl])
  \/ reports w w'.

Lemma decompile_reports E me d f : ok grows reports (decompile E me d f).
Proof.
  intros w. unfold decompile, bind at 1, get.
  destruct (files (fs w) !! d) as [bl|].
  2:{ cbn. split; [done|]. reported. }
  destruct (decode E bl) as [c|]; [|exact I].
  unfold bind at 1, modify.
  destruct f as [o|].
  - unfold bind at 1. destruct (bool_decide (o ∈ unwritable (fs w))); cbn.
    + split; [done|]. reported.
    + unfold bind. destruct (decompile_crush c); cbn; [|exact I]. by apply grows_same.
  - unfold bind. destruct (decompile_crush c); cbn; [|exact I]. by apply grows_same.
Qed.

Lemma compile_reports E me c f : ok grows reports (compile E me c f).
Proof.
  intros w. unfold compile, bind at 1, modify.
  unfold bind at 1.
  pose proof (compile_crush_file_reports (ast_parse E) c (set_crush create w)) as Hc.
  destruct (compile_crush_file _ _ _) as [r w1 | s w1 | w1 |]; auto.
  destruct Hc as [Hg Hr]. unfold bind at 1, on_crush, modify.
  unfold bind at 1. destruct (r <? 0) eqn:Hneg; cbn [when].
  { cbn. split; [done|]. apply Hr. lia. }
  cbn [ret]. destruct f as [o|].
  - unfold bind at 1, get. unfold bind at 1.
    destruct (bool_decide (o ∈ unwritable _)); cbn.
    + split; [done|]. destruct Hg as [l Hl]. cbn in Hl. eexists (l ++ _). rewrite Hl.
      split; [|by rewrite app_assoc]. by destruct l.
    + destruct (negb (verbose _ =? 0)); cbn; exact Hg.
  - cbn. exact Hg.
Qed.

Ltac some_decide :=
  repeat first
    [ rewrite (bool_decide_eq_true_2 (is_Some (Some _))) by (eexists; reflexivity)
    | rewrite (bool_decide_eq_false_2 (is_Some None)) by (intros [? ?]; discriminate) ];
  cbn [andb negb when].

(** The ways [main] ends. It returns only 0, and leaves through
    [exit] only with status 1, either after the usage line on [cout]
    (command line errors) or after a message on [cerr] (input file missing
    or unreadable, error found by the compiler, output not writable). It
    returns 0 when the compiler returns 0 and the output, if any, can be
    written, and when the map to decompile is read, decoded and printed. *)
Theorem main_exit_status E me args w :
  match main E me args w with
  | Done v _ => v = 0
  | Exit s w' => s = 1 /\ error_exit me w w'
  | _ => True
  end /\
  (forall o w1 c w2,
     parse_args me args no_options w = Done o w1 ->
     cinfn o = Some c -> dinfn o = None ->
     compile_crush_file (ast_parse E) c (set_crush create w1) = Done 0 w2 ->
     (forall f, outfn o = Some f -> f ∉ unwritable (fs w2)) ->
     exit_status (main E me args w) = Some 0) /\
  (forall o w1 d bl m text,
     parse_args me args no_options w = Done o w1 ->
     dinfn o = Some d -> cinfn o = None ->
     files (fs w1) !! d = Some bl -> decode E bl = Some m ->
     decompile_crush m = Some text ->
     (forall f, outfn o = Some f -> f ∉ unwritable (fs w1)) ->
     exit_status (main E me args w) = Some 0).
Proof.
  split; [|split].
  - rewrite main_after_args. unfold bind at 1.
    destruct (parse_args me args no_options w) as [o w1 | s w1 | w1 |] eqn:Hp; auto.
    2:{ apply parse_args_exit in Hp. destruct Hp as (-> & Hc & Ho). split; [done|].
        left. done. }
    apply parse_args_done in Hp.
    assert (Hcerr : cerr w1 = cerr w) by (rewrite Hp; reflexivity).
    assert (Hcout : cout w1 = cout w) by (rewrite Hp; reflexivity).
    unfold after_args.
    destruct (cinfn o) as [c|], (dinfn o) as [d|]; some_decide;
      try (unfold usage at 1, bind, put_cout, modify, exit;
           split; [done|]; left; split; cbn; congruence).
    + (* -c *)
      change (match (compile E me c (outfn o) ;; ret 0) w1 with
              | Done v _ => v = 0 | Exit s w' => s = 1 /\ error_exit me w w' | _ => True end).
      unfold bind at 1. pose proof (compile_reports E me c (outfn o) w1) as H.
      destruct (compile E me c (outfn o) w1) as [[] w2 | s w2 | w2 |]; cbn; auto.
      destruct H as [-> (l & Hl & He)]. split; [done|]. right. exists l. split; congruence.
    + (* -d *)
      change (match (decompile E me d (outfn o) ;; ret 0) w1 with
              | Done v _ => v = 0 | Exit s w' => s = 1 /\ error_exit me w w' | _ => True end).
      unfold bind at 1. pose proof (decompile_reports E me d (outfn o) w1) as H.
      destruct (decompile E me d (outfn o) w1) as [[] w2 | s w2 | w2 |]; cbn; auto.
      destruct H as [-> (l & Hl & He)]. split; [done|]. right. exists l. split; congruence.
  - intros o w1 c w2 Hp Hc Hd Hcomp Hout.
    rewrite main_after_args. unfold bind at 1. rewrite Hp.
    unfold after_args. rewrite Hc, Hd. some_decide.
    change (exit_status ((compile E me c (outfn o) ;; ret 0) w1) = Some 0).
    unfold bind at 1, compile. unfold bind at 1, modify. unfold bind at 1.
    rewrite Hcomp. unfold bind at 1, on_crush, modify. unfold bind at 1.
    change (0 <? 0) with false. cbn [when ret]. destruct (outfn o) as [f|] eqn:Hf; [|reflexivity].
    unfold bind at 1, get. unfold bind at 1.
    specialize (Hout f eq_refl). cbn [fs set_crush].
    rewrite bool_decide_eq_false_2 by exact Hout.
    cbn [when ret]. unfold bind at 1, modify.
    destruct (negb _); reflexivity.
  - intros o w1 d bl m text Hp Hd Hc Hf Hdec Htext Hout.
    rewrite main_after_args. unfold bind at 1. rewrite Hp.
    unfold after_args. rewrite Hc, Hd. some_decide.
    change (exit_status ((decompile E me d (outfn o) ;; ret 0) w1) = Some 0).
    unfold bind at 1, decompile. unfold bind at 1, get. rewrite Hf, Hdec.
    unfold bind at 1, modify. destruct (outfn o) as [f|] eqn:Hfo.
    + unfold bind at 1. specialize (Hout f eq_refl).
      rewrite bool_decide_eq_false_2 by exact Hout.
      cbn [when ret]. unfold bind at 1. rewrite Htext. reflexivity.
    + unfold bind at 1. rewrite Htext. reflexivity.
Qed.

(** ** Error messages of the compiler *)

Definition quiet (w w' : world) : Prop := cerr w' = cerr w.
Definition complains (w w' : world) : Prop :=
  exists msg, compile_error msg /\ cerr w' = cerr w ++ msg.

Lemma quiet_complains a b c : quiet a b -> complains b c -> complains a c.
Proof. intros H (msg & Hm & Hc). exists msg. split; [done|]. congruence. Qed.

Lemma complains_ok_parse_crush i : ok quiet complains (parse_crush i).
Proof.
  apply ok_parse_crush with (Msg := compile_error);
    eauto using quiet_complains; unfold quiet, complains; intros; cbn; eauto; congruence.
Qed.

Lemma quiet_ok_read_lines lines rd : ok quiet complains (read_lines rd lines).
Proof.
  apply ok_read_lines; eauto using quiet_complains; unfold quiet; intros; cbn; congruence.
Qed.

(** C4, as the code has it. [compile_crush_file] reports on [cerr] in one
    of three ways: a missing input file by name; a parse error as
    [<file>:<line> error: parse error at '<text>'], returning 1; and every
    error found while compiling the tree by one of the messages of
    [compile_error], which name the item, bucket, rule or type at fault but
    neither the file nor a line, before leaving with status 1. *)
Theorem compile_crush_file_messages p infn w :
  match compile_crush_file p infn w with
  | Done r w' =>
      (r = 0 /\ cerr w' = cerr w)
      \/ (r = 1 /\ exists line rest,
            cerr w' = cerr w ++ [OStr infn; OStr ":"; OInt line;
                                 OStr " error: parse error at '"; OStr rest;
                                 OStr "'"; endl])
      \/ (r = - ENOENT /\
          cerr w' = cerr w ++ [OStr "input file "; OStr infn; OStr " not found"; endl])
  | Exit s w' => s = 1 /\ exists msg, compile_error msg /\ cerr w' = cerr w ++ msg
  | _ => True
  end.
Proof.
  unfold compile_crush_file, bind at 1, get.
  destruct (files (fs w) !! infn) as [content|].
  2:{ cbn. right. right. done. }
  unfold bind at 1.
  pose proof (quiet_ok_read_lines (getlines content) (mk_reader EmptyString 1 ∅ ∅) w) as Hr.
  destruct (read_lines _ _ w) as [rd w1 | s w1 | w1 |]; auto.
  unfold bind at 1.
  assert (Hv : exists w2, when (2 <? verbose w)
       (put_cout [OStr ("whole file is: " ++ dquote); OStr (big rd); OStr dquote; endl]) w1
       = Done tt w2 /\ quiet w w2).
  { destruct (2 <? verbose w); eexists; split; try reflexivity; exact Hr. }
  destruct Hv as (w2 & -> & Hw2). unfold quiet in Hw2.
  destruct (negb (full (p (big rd)))).
  - destruct (line_at (line_pos rd) (stop (p (big rd)))) as [[first line]|]; [|exact I].
    destruct (if stop (p (big rd)) - first <? 0 then None else _) as [rest|]; [|exact I].
    cbn. right. left. split; [done|]. exists line, rest. by rewrite Hw2.
  - destruct (trees (p (big rd))) as [|root ?]; [exact I|].
    unfold bind at 1. pose proof (complains_ok_parse_crush root w2) as Hp.
    destruct (parse_crush root w2) as [[] w3 | s w3 | w3 |]; auto.
    + cbn. left. unfold quiet in Hp. split; congruence.
    + destruct Hp as [-> (msg & Hm & Hc)]. split; [done|]. exists msg. split; congruence.
Qed.

(** ** Duplicate names *)

(** A [type] declaration is never refused: [parse_bucket_type] has no way
    out through [exit] or [abort], whatever the tables hold. *)
Lemma parse_bucket_type_never_fails i w :
  match parse_bucket_type i w with
  | Exit _ _ | Abort _ => False
  | _ => True
  end.
Proof.
  unfold parse_bucket_type, child, defined, bind.
  destruct (children i !! 1%nat); cbn; [|done].
  destruct (children i !! 2%nat); cbn; [|done].
  destruct (negb (verbose w =? 0)); cbn; done.
Qed.

(** A device whose name is already in [item_id] is refused. *)
Lemma parse_device_duplicate i w c1 c2 :
  children i !! 1%nat = Some c1 -> children i !! 2%nat = Some c2 ->
  is_Some (item_id w !! string_node c2) ->
  parse_device i w
  = Exit 1 (set_cerr (cerr w ++ [OStr "item "; OStr (string_node c2);
                                 OStr " defined twice"; endl])
              (set_crush (set_item_name (int_node c1) (string_node c2) (crush w)) w)).
Proof.
  intros H1 H2 Hs. unfold parse_device, child, defined, bind.
  rewrite H1, H2. cbn. unfold count. cbn. by rewrite bool_decide_eq_true_2.
Qed.

(** A bucket whose name is already in [item_id] is refused, once its type
    is known. *)
Lemma parse_bucket_duplicate i w c0 c1 :
  children i !! 0%nat = Some c0 -> children i !! 1%nat = Some c1 ->
  is_Some (type_id w !! string_node c0) ->
  is_Some (item_id w !! string_node c1) ->
  parse_bucket i w
  = Exit 1 (set_cerr (cerr w ++ [OStr "bucket or device '"; OStr (string_node c1);
                                 OStr "' is already defined"; endl]) w).
Proof.
  intros H0 H1 Ht Hs. unfold parse_bucket, child, defined, bind.
  rewrite H0, H1. cbn. unfold count.
  rewrite (bool_decide_eq_true_2 _ Ht). cbn.
  rewrite (bool_decide_eq_true_2 _ Hs). by destruct w.
Qed.

(** A rule whose name is already in [rule_id] is refused. *)
Lemma parse_rule_duplicate i w c1 :
  children i !! 1%nat = Some c1 -> string_node c1 <> "{" ->
  is_Some (rule_id w !! string_node c1) ->
  parse_rule i w
  = Exit 1 (set_cerr (cerr w ++ [OStr "rule name '"; OStr (string_node c1);
                                 OStr ("' already defined" ++ nl); endl]) w).
Proof.
  intros H1 Hn Hs. unfold parse_rule, child, defined, bind.
  rewrite H1. cbn. unfold count, str_eqb.
  apply String.eqb_neq in Hn. rewrite Hn.
  rewrite (bool_decide_eq_true_2 _ Hs). by destruct w.
Qed.

(** ** Whole runs on the sample inputs *)

Lemma all_from_spec f n : forall k0 k,
  all_from f n k0 = true -> k0 <= k < k0 + Z.of_nat n -> f k = true.
Proof.
  induction n as [|n IH]; intros k0 k H Hk; [lia|].
  cbn [all_from] in H. apply andb_true_iff in H as [H0 H1].
  destruct (decide (k = k0)) as [->|Hne]; [done|].
  apply (IH (k0 + 1)); [done|lia].
Qed.

Lemma u32_length z : length (Codec.u32 z) = 4%nat.
Proof. reflexivity. Qed.

(** Three decimals do not hold every weight: the sample with the weight
    1.0005 compiles to a
    map whose bucket weighs 65568; the decompiler prints that weight as
    1.000; the text compiles to a map whose bucket weighs 65536, and the
    two encodings differ (in the eighth word, the weight of the bucket),
    whatever the magic number, the codes and the tables are. *)
Lemma recompile_changes_the_binary :
  exists m1 m2,
    compiled_map Grammar.ast_parse sample_fs "weights.txt" = Some m1
    /\ recompiled_map Grammar.ast_parse sample_fs "weights.txt" = Some m2
    /\ forall P, Codec.encode P m2 <> Codec.encode P m1.
Proof.
  eexists. eexists. split; [vm_compute; reflexivity|]. split; [vm_compute; reflexivity|].
  intros P H. unfold Codec.encode in H.
  apply (f_equal list_ascii_of_string) in H.
  rewrite !list_ascii_of_string_of_list_ascii in H.
  apply (f_equal (fun l => l !! 28%nat)) in H.
  vm_compute in H. discriminate H.
Qed.

Lemma reread_eighths_checked :
  all_from (fun k => bool_decide (reread (8192 * k) = Some (8192 * k)))
    (Z.to_nat 32768) 0 = true.
Proof. vm_compute. reflexivity. Qed.

(** The decompiler prints a weight or an offload
    with three decimals and the compiler reads that text back; a fixed
    point value that is a multiple of 8192 (of 0.125) below 4096.0 comes
    back unchanged. *)
Theorem reread_eighths k :
  0 <= k < 32768 -> reread (8192 * k) = Some (8192 * k).
Proof.
  intros Hk.
  pose proof (all_from_spec _ _ 0 k reread_eighths_checked) as H.
  cbv beta in H. rewrite Z2Nat.id in H by lia.
  specialize (H ltac:(lia)). by apply bool_decide_eq_true in H.
Qed.

Lemma reread_eighths_witness : 0 <= 12 < 32768 /\ reread (8192 * 12) = Some (8192 * 12).
Proof. split; [lia | apply (reread_eighths 12); lia]. Defined.

(** On an argument it does not know, [main] leaves with status 1 having
    written its only message, the usage line, to [cout], and nothing to
    [cerr]. *)
Lemma usage_goes_to_cout :
  exists w',
    main sample_externals "crushtool" ["-x"] (start sample_fs) = Exit 1 w'
    /\ cerr w' = []
    /\ cout w' = [OStr "crushtool"; OStr usage_line; endl].
Proof. eexists. split; [vm_compute; reflexivity|]. split; reflexivity. Qed.

(** C2 on the code. A text the parser refuses: [compile_crush_file]
    reports the parse error on [cerr] and returns 1 (a file that is missing
    makes it return [-ENOENT]); [main] tests for a negative value, so the
    process goes on, writes the map it has, which is empty, to the output
    file and ends with status 0. *)
Example parse_error_exit_status :
  exists w',
    main sample_externals "crushtool" ["-c"; "broken.txt"; "-o"; "out.bin"] (start sample_fs)
    = Done 0 w'
    /\ cerr w' = [OStr "broken.txt"; OStr ":"; OInt 2; OStr " error: parse error at '";
                  OStr "device one osd1"; OStr "'"; endl]
    /\ is_Some (files (fs w') !! "out.bin").
Proof.
  eexists. split; [vm_compute; reflexivity|]. split; [reflexivity|].
  vm_compute. eexists. reflexivity.
Qed.

Lemma main_exit_status_witness :
  exit_status (main sample_externals "crushtool" ["-c"; "weights.txt"; "-o"; "out.bin"]
                 (start sample_fs)) = Some 0.
Proof.
  pose proof (main_exit_status sample_externals "crushtool"
                ["-c"; "weights.txt"; "-o"; "out.bin"] (start sample_fs)) as (_ & H & _).
  eapply H.
  - vm_compute. reflexivity.
  - reflexivity.
  - reflexivity.
  - vm_compute. reflexivity.
  - intros f [= <-]. vm_compute. set_solver.
Defined.

Lemma clobber_has_no_effect_witness :
  main sample_externals "crushtool" ["-c"; "weights.txt"] (start sample_fs)
  = main sample_externals "crushtool" ["-c"; "weights.txt"; "--clobber"] (start sample_fs).
Proof.
  apply clobber_has_no_effect.
  apply ca_value; [reflexivity|]. apply ca_here.
Defined.

(** C4 fails on the code: the second device of the sample takes the name
    of the first; the message names neither the file nor a line. *)
Lemma duplicate_message_has_no_line :
  exists w',
    compile_crush_file Grammar.ast_parse "twice.txt" (start sample_fs) = Exit 1 w'
    /\ (forall show_float show_id,
          render show_float show_id (cerr w') = cat ["item osd0 defined twice"; nl])
    /\ ~ line_qualified "twice.txt" (cat ["item osd0 defined twice"; nl]).
Proof.
  eexists. split; [vm_compute; reflexivity|]. split; [reflexivity|].
  intros (line & rest & H). discriminate H.
Qed.

Lemma compile_crush_file_messages_example :
  exists w',
    compile_crush_file Grammar.ast_parse "broken.txt" (start sample_fs) = Done 1 w'
    /\ cerr w' = [OStr "broken.txt"; OStr ":"; OInt 2; OStr " error: parse error at '";
                  OStr "device one osd1"; OStr "'"; endl].
Proof. eexists. split; [vm_compute; reflexivity|reflexivity]. Qed.

(** C5 on the code: the second [type] declaration of the sample reuses the
    name of the first, and the compiler accepts the text; the name then
    stands for the second id. *)
Example duplicate_type_name_accepted :
  exists w',
    compile_crush_file Grammar.ast_parse "types.txt" (start sample_fs) = Done 0 w'
    /\ cerr w' = [] /\ type_id w' !! "host" = Some 2.
Proof. eexists. split; [vm_compute; reflexivity|]. split; reflexivity. Qed.

(** ** Running a computation that returns *)

Lemma bind_Done {A B} (m : M A) (k : A -> M B) w b w' :
  bind m k w = Done b w' -> exists a w1, m w = Done a w1 /\ k a w1 = Done b w'.
Proof.
  unfold bind. destruct (m w) as [a w1| | |]; try discriminate. eauto.
Qed.

Lemma child_Done n k w c w' :
  child n k w = Done c w' -> children n !! k = Some c /\ w' = w.
Proof.
  unfold child, defined. destruct (children n !! k); cbn; [|discriminate].
  by intros [= <- <-].
Qed.

Lemma defined_Done {A} (o : option A) w a w' :
  defined o w = Done a w' -> o = Some a /\ w' = w.
Proof. destruct o; cbn; [|discriminate]. by intros [= <- <-]. Qed.

Ltac done_inj H := injection H; clear H; intros; subst.

(** Splits a hypothesis saying that a computation returned into what each
    of its steps did. *)
Ltac run H :=
  lazymatch type of H with
  | bind _ _ _ = Done _ _ =>
      let a := fresh "a" in
      let w1 := fresh "w" in
      let H1 := fresh "H" in
      apply bind_Done in H; destruct H as (a & w1 & H1 & H); run H1; run H
  | child _ _ _ = Done _ _ =>
      let H1 := fresh "Hchild" in
      apply child_Done in H; destruct H as [H1 H]; subst
  | defined _ _ = Done _ _ =>
      let H1 := fresh "Hdef" in
      apply defined_Done in H; destruct H as [H1 H]; subst
  | ret _ _ = Done _ _ => unfold ret in H; done_inj H
  | get _ = Done _ _ => unfold get in H; done_inj H
  | modify _ _ = Done _ _ => unfold modify in H; done_inj H
  | put_cout _ _ = Done _ _ => unfold put_cout, modify in H; done_inj H
  | on_crush _ _ = Done _ _ => unfold on_crush, modify in H; done_inj H
  | exit _ _ = Done _ _ => discriminate H
  | abort _ = Done _ _ => discriminate H
  | undefined _ = Done _ _ => discriminate H
  | when true _ _ = Done _ _ => cbn [when] in H; run H
  | when false _ _ = Done _ _ => cbn [when] in H; run H
  | when ?c _ _ = Done _ _ =>
      let Hc := fresh "Hc" in
      destruct c eqn:Hc; cbn [when] in H; run H
  | (if true then _ else _) _ = Done _ _ => cbv iota in H; run H
  | (if false then _ else _) _ = Done _ _ => cbv iota in H; run H
  | (if ?c then _ else _) _ = Done _ _ =>
      let Hc := fresh "Hc" in
      destruct c eqn:Hc; run H
  | _ => idtac
  end.

Lemma count_false_None {K A} `{Countable K} (m : gmap K A) k :
  count m k = false -> m !! k = None.
Proof.
  unfold count. intros Hc. apply bool_decide_eq_false in Hc. by apply eq_None_not_Some.
Qed.

Lemma count_true_Some {K A} `{Countable K} (m : gmap K A) k :
  count m k = true -> is_Some (m !! k).
Proof. unfold count. intros Hc. by apply bool_decide_eq_true in Hc. Qed.



(** ** Bucket ids *)



(** What the parts of the compiler leave alone. *)
Definition unchanged (w w' : world) : Prop := w' = w.

Definition tables_kept (w w' : world) : Prop :=
  item_id w' = item_id w /\ id_item w' = id_item w /\ item_weight w' = item_weight w.

Lemma tables_kept_trans a b c : tables_kept a b -> tables_kept b c -> tables_kept a c.
Proof. unfold tables_kept. intros (?&?&?) (?&?&?). repeat split; congruence. Qed.

Ltac frame_side :=
  unfold unchanged, tables_kept; intros; cbn; subst;
  first [ done | tauto | by repeat split | intuition congruence ].

Lemma bucket_head_loop_unchanged name lines h :
  ok unchanged (fun _ _ => True) (bucket_head_loop name lines h).
Proof. apply ok_bucket_head_loop with (Msg := fun _ => True); frame_side. Qed.

Lemma bucket_body_loop_unchanged name used size lines y :
  ok unchanged (fun _ _ => True) (bucket_body_loop name used size lines y).
Proof. apply ok_bucket_body_loop with (Msg := fun _ => True); frame_side. Qed.



(** What a bucket block that compiles leaves in the tables: the head and
    the body of the block are read in the world the block starts in, and the
    bucket is entered under the id the block gives or, when that is 0, under
    the first free negative one. *)
Lemma parse_bucket_Done i w w' :
  parse_bucket i w = Done tt w' ->
  exists c0 c1 h y,
    children i !! 0%nat = Some c0 /\ children i !! 1%nat = Some c1
    /\ item_id w !! string_node c1 = None
    /\ bucket_head_loop (string_node c1) (bucket_lines i) (mk_head 0 (ALG_OTHER (-1)) ∅ 0) w
       = Done h w
    /\ (let size := match set_last (h_used_items h) with
                    | Some m => Z.max (h_size h) m
                    | None => h_size h
                    end in
        bucket_body_loop (string_node c1) (h_used_items h) size (bucket_lines i)
          (mk_body 0 (float_of_int 0) (replicate (Z.to_nat size) 0)
             (replicate (Z.to_nat size) 0)) w = Done y w
        /\ let id := if h_id h =? 0 then fresh_bucket_id (id_item w) else h_id h in
           item_id w' = <[string_node c1 := id]> (item_id w)
           /\ id_item w' = <[id := string_node c1]> (id_item w)
           /\ item_weight w' = <[id := y_bucketweight y]> (item_weight w)
           /\ type_id w' = type_id w
           /\ crush w' = set_item_name id (string_node c1)
                           (add_bucket id (h_alg h) (default 0 (type_id w !! string_node c0))
                              size (y_items y) (y_weights y) (crush w))).
Proof.
  intros H. unfold parse_bucket in H.
  apply bind_Done in H. destruct H as (c0 & w1 & H0 & H). apply child_Done in H0 as [H0 ->].
  apply bind_Done in H. destruct H as (w0 & w1 & Hg & H). unfold get in Hg.
  injection Hg as <- <-.
  apply bind_Done in H. destruct H as ([] & w1 & Ht & H).
  assert (w1 = w) as ->.
  { destruct (negb (count (type_id w) (string_node c0))); cbn [when] in Ht; [discriminate|].
    by injection Ht. }
  clear Ht.
  apply bind_Done in H. destruct H as (c1 & w1 & H1 & H). apply child_Done in H1 as [H1 ->].
  apply bind_Done in H. destruct H as ([] & w1 & Hd & H).
  destruct (count (item_id w) (string_node c1)) eqn:Hcount; cbn [when] in Hd; [discriminate|].
  injection Hd as <-.
  apply bind_Done in H. destruct H as (h & w1 & Hh & H).
  pose proof (bucket_head_loop_unchanged (string_node c1) (bucket_lines i)
                (mk_head 0 (ALG_OTHER (-1)) ∅ 0) w) as Hhu.
  rewrite Hh in Hhu. unfold unchanged in Hhu. subst w1.
  apply bind_Done in H. destruct H as (y & w1 & Hy & H).
  match type of Hy with bucket_body_loop ?n ?u ?s ?l ?y0 w = _ =>
    pose proof (bucket_body_loop_unchanged n u s l y0 w) as Hyu end.
  rewrite Hy in Hyu. unfold unchanged in Hyu. subst w1.
  exists c0, c1, h, y. split; [done|]. split; [done|].
  split; [by apply count_false_None|]. split; [done|]. cbn zeta. split; [done|].
  run H; cbn; done.
Qed.


Lemma str_eqb_neq a b : (a == b) = false <-> a <> b.
Proof. apply String.eqb_neq. Qed.











Lemma foldl_last_in (l : list Z) a :
  foldl (fun _ v => v) a l = a \/ foldl (fun _ v => v) a l ∈ l.
Proof.
  revert a. induction l as [|x l IH]; intros a; cbn; [by left|].
  right. destruct (IH x) as [->|Hin]; [by left|by right].
Qed.



(** ** Floating point *)

Lemma digits2_pos_size m : digits2_pos m = Pos.size m.
Proof. induction m; cbn; congruence. Qed.

Lemma digits2_pos_bounds m :
  2 ^ (Zpos (digits2_pos m) - 1) <= Zpos m < 2 ^ Zpos (digits2_pos m).
Proof.
  rewrite digits2_pos_size. split.
  - pose proof (Pos.size_le m) as H.
    assert (H2 : 2 ^ Zpos (Pos.size m) <= 2 * Zpos m).
    { change (2 * Zpos m) with (Zpos (m~0)). rewrite <- Pos2Z.inj_pow. by apply Pos2Z.pos_le_pos. }
    replace (Zpos (Pos.size m)) with (Zpos (Pos.size m) - 1 + 1) in H2 by lia.
    rewrite Z.pow_add_r in H2 by lia. lia.
  - pose proof (Pos.size_gt m) as H. rewrite <- Pos2Z.inj_pow. by apply Pos2Z.pos_lt_pos.
Qed.

(** A valid binary32 number is normal (24 digits) or sits at the least
    exponent. *)
Lemma valid_binary32_cases s m e :
  valid_binary fprec femax (S754_finite s m e) = true ->
  e <= 104 /\ ((Zpos (digits2_pos m) = 24 /\ -149 <= e)
               \/ (Zpos (digits2_pos m) < 24 /\ e = -149)).
Proof.
  unfold valid_binary, bounded, canonical_mantissa, fexp, emin, fprec, femax.
  intros H. apply andb_true_iff in H as [H1 H2].
  apply Z.eqb_eq in H1. apply Z.leb_le in H2. lia.
Qed.

Lemma iter_pos_nat {A} (f : A -> A) p : forall x,
  SpecFloat.iter_pos f p x = Nat.iter (Pos.to_nat p) f x.
Proof.
  induction p as [p IH|p IH|]; intros x; cbn [SpecFloat.iter_pos].
  - rewrite !IH, Pos2Nat.inj_xI. cbn [Nat.iter]. rewrite Nat.iter_succ_r.
    replace (2 * Pos.to_nat p)%nat with (Pos.to_nat p + Pos.to_nat p)%nat by lia.
    by rewrite Nat.iter_add.
  - rewrite !IH, Pos2Nat.inj_xO.
    replace (2 * Pos.to_nat p)%nat with (Pos.to_nat p + Pos.to_nat p)%nat by lia.
    by rewrite Nat.iter_add.
  - reflexivity.
Qed.

Lemma shr_1_double z :
  0 <= z -> shr_1 (Build_shr_record (2 * z) false false) = Build_shr_record z false false.
Proof. intros Hz. destruct z as [|p|p]; [done|done|lia]. Qed.

Lemma iter_shr_exact k : forall z,
  0 <= z ->
  Nat.iter k shr_1 (Build_shr_record (z * 2 ^ Z.of_nat k) false false)
  = Build_shr_record z false false.
Proof.
  induction k as [|k IH]; intros z Hz.
  - cbn. by rewrite Z.mul_1_r.
  - rewrite Nat.iter_succ_r.
    replace (z * 2 ^ Z.of_nat (S k)) with (2 * (z * 2 ^ Z.of_nat k)).
    2:{ rewrite Nat2Z.inj_succ, Z.pow_succ_r by lia. lia. }
    rewrite shr_1_double by (apply Z.mul_nonneg_nonneg; lia). by apply IH.
Qed.

(** Shifting out zeros only is exact. *)
Lemma shr_exact z e n :
  0 <= z -> 0 < n ->
  shr (Build_shr_record (z * 2 ^ n) false false) e n = (Build_shr_record z false false, e + n).
Proof.
  intros Hz Hn. destruct n as [|p|p]; try lia. unfold shr.
  rewrite iter_pos_nat. f_equal.
  rewrite <- (iter_shr_exact (Pos.to_nat p) z Hz). by rewrite positive_nat_Z.
Qed.

Lemma Zdigits2_log2 z : 0 < z -> Zdigits2 z = Z.log2 z + 1.
Proof.
  destruct z as [|p|p]; try lia. intros _. cbn [Zdigits2].
  rewrite digits2_pos_size. destruct p; cbn [Pos.size Z.log2]; lia.
Qed.

Lemma Zdigits2_mul_pow2 z k :
  0 < z -> 0 <= k -> Zdigits2 (z * 2 ^ k) = Zdigits2 z + k.
Proof.
  intros Hz Hk. rewrite !Zdigits2_log2; [|lia|].
  - rewrite Z.log2_mul_pow2 by lia. lia.
  - apply Z.mul_pos_pos; [lia|]. by apply Z.pow_pos_nonneg.
Qed.

(** Multiplying a binary32 number by 65536 is exact: the product is the
    number with its exponent raised by 16, in whatever form the rounding
    leaves it. *)
Lemma fmul_65536 s m e :
  valid_binary fprec femax (S754_finite s m e) = true -> e + 16 <= 104 ->
  exists m' e',
    fmul (S754_finite s m e) (float_of_int 65536) = S754_finite s m' e'
    /\ Z.shiftl (Zpos m') e' = Z.shiftl (Zpos m) (e + 16).
Proof.
  intros Hv He. apply valid_binary32_cases in Hv as [_ Hv].
  change (float_of_int 65536) with (S754_finite false 8388608 (-7)).
  unfold fmul, SFmul. rewrite xorb_false_r.
  set (d := Zpos (digits2_pos m)) in *.
  assert (Hd : 0 < d) by (subst d; lia).
  set (n := fexp fprec femax (d + 23 + (e + -7)) - (e + -7)).
  assert (Hn : 7 <= n <= 23).
  { subst n. unfold fexp, emin, fprec, femax. lia. }
  assert (Hm : Zpos (m * 8388608) = (Zpos m * 2 ^ (23 - n)) * 2 ^ n).
  { rewrite <- Z.mul_assoc, <- Z.pow_add_r by lia.
    replace (23 - n + n) with 23 by lia. by rewrite Pos2Z.inj_mul. }
  unfold binary_round_aux, shr_fexp.
  replace (Zdigits2 (Zpos (m * 8388608))) with (d + 23).
  2:{ rewrite Pos2Z.inj_mul. change (Zpos 8388608) with (2 ^ 23).
      rewrite Zdigits2_mul_pow2 by lia. reflexivity. }
  fold n. cbn [shr_record_of_loc]. rewrite Hm.
  rewrite shr_exact by lia. cbn [shr_m loc_of_shr_record round_nearest_even].
  replace (Zdigits2 (Zpos m * 2 ^ (23 - n))) with (d + 23 - n).
  2:{ rewrite Zdigits2_mul_pow2 by lia. cbn [Zdigits2]. subst d. lia. }
  replace (fexp fprec femax (d + 23 - n + (e + -7 + n)) - (e + -7 + n)) with 0.
  2:{ subst n. unfold fexp, emin, fprec, femax. lia. }
  cbn [shr shr_m].
  assert (Hpos : Zpos m * 2 ^ (23 - n) = Zpos (m * Z.to_pos (2 ^ (23 - n)))).
  { rewrite Pos2Z.inj_mul, Z2Pos.id; [done|]. apply Z.pow_pos_nonneg; lia. }
  rewrite Hpos.
  replace (e + -7 + n <=? femax - fprec) with true.
  2:{ symmetry. apply Z.leb_le. subst n. unfold fexp, emin, fprec, femax. lia. }
  eexists _, _. split; [reflexivity|].
  rewrite <- Hpos, <- Z.shiftl_mul_pow2 by lia.
  rewrite Z.shiftl_shiftl by lia. f_equal. lia.
Qed.

Lemma floor_scaled_value m e :
  Qfloor (float_value (S754_finite false m e) * 65536) = Z.shiftl (Zpos m) (e + 16).
Proof.
  unfold float_value. destruct (0 <=? e) eqn:He.
  - apply Z.leb_le in He. unfold Qfloor, Qmult. cbn [Qnum Qden].
    rewrite Z.div_1_r, Z.shiftl_mul_pow2 by lia.
    rewrite Z.pow_add_r by lia. lia.
  - apply Z.leb_gt in He. unfold Qfloor, Qmult. cbn [Qnum Qden].
    rewrite Pos.mul_1_r, Z2Pos.id by (apply Z.pow_pos_nonneg; lia).
    destruct (Z_le_gt_dec 0 (e + 16)) as [Hle|Hgt].
    + rewrite Z.shiftl_mul_pow2 by lia.
      replace 65536 with (2 ^ (e + 16) * 2 ^ (- e)).
      2:{ rewrite <- Z.pow_add_r by lia. by replace (e + 16 + - e) with 16 by lia. }
      rewrite Z.mul_assoc, Z.div_mul; [done|]. apply Z.pow_nonzero; lia.
    + replace (e + 16) with (- (- (e + 16))) by lia.
      change (Z.shiftl (Zpos m) (- (- (e + 16)))) with (Z.shiftr (Zpos m) (- (e + 16))).
      rewrite Z.shiftr_div_pow2 by lia.
      replace (2 ^ (- e)) with (2 ^ (- (e + 16)) * 65536).
      2:{ change 65536 with (2 ^ 16). rewrite <- Z.pow_add_r by lia. f_equal. lia. }
      rewrite Z.div_mul_cancel_r; [done| |lia]. apply Z.pow_nonzero; lia.
Qed.


(** [(unsigned)(f * 0x10000)] on a binary32 number that is zero or
    positive and below 65536: the product is exact, the conversion drops
    its fraction. *)
Lemma fixed_of_float_floor f :
  valid_binary fprec femax f = true -> nonneg_finite f ->
  Qfloor (float_value f * 65536) < 2 ^ 32 ->
  fixed_of_float f = Some (to_int (Qfloor (float_value f * 65536))).
Proof.
  intros Hv Hn Hlt. destruct f as [s|s| |s m e]; try done.
  destruct s; [done|]. rewrite floor_scaled_value in *.
  assert (He : e + 16 <= 104).
  { destruct (Z_le_gt_dec (e + 16) 31) as [?|Hgt]; [lia|]. exfalso.
    rewrite Z.shiftl_mul_pow2 in Hlt by lia.
    assert (2 ^ 32 <= 2 ^ (e + 16)) by (apply Z.pow_le_mono_r; lia).
    nia. }
  destruct (fmul_65536 false m e Hv He) as (m' & e' & Hmul & Hsh).
  unfold fixed_of_float. rewrite Hmul. cbn [float_to_unsigned].
  rewrite Hsh. apply Z.ltb_lt in Hlt. by rewrite Hlt.
Qed.

(** C7, as the code has it. The fixed point form of a weight or offload
    [f] (a binary32 number, zero or positive, below 65536) is the integer
    part of [f * 65536]: the product is exact and the conversion to
    [unsigned] drops the fraction; what does not fit into an [int] wraps
    around. *)
Theorem fixed_of_float_truncates f :
  valid_binary fprec femax f = true -> nonneg_finite f ->
  Qfloor (float_value f * 65536) < 2 ^ 32 ->
  fixed_of_float f = Some (to_int (Qfloor (float_value f * 65536))).
Proof. apply fixed_of_float_floor. Qed.

Lemma fixed_of_float_truncates_witness :
  fixed_of_float (strtof "1.0005") = Some (to_int (Qfloor (float_value (strtof "1.0005") * 65536)))
  /\ Qfloor (float_value (strtof "1.0005") * 65536) = 65568.
Proof.
  split; [|by vm_compute].
  apply fixed_of_float_truncates; [by vm_compute|exact I|by vm_compute].
Defined.

(** C7 fails on the code: the decimal 0.00001 is nearest to 1/65536 (its
    product with 65536 is 0.65536), and the compiler stores 0. *)
Lemma weight_is_not_rounded :
  read_decimal "0.00001" = Some (false, 1, -5)
  /\ round_fixed false 1 (-5) = 1
  /\ fixed_of_float (float_node (leaf "0.00001")) = Some 0.
Proof. split; [|split]; by vm_compute. Qed.

Lemma Zpos_iter_xO m d : Zpos (Pos.iter xO m d) = Zpos m * 2 ^ Zpos d.
Proof.
  induction d as [|d IH] using Pos.peano_ind.
  - cbn. lia.
  - rewrite Pos.iter_succ, Pos2Z.inj_xO, IH, Pos2Z.inj_succ, Z.pow_succ_r by lia. lia.
Qed.

(** Widening a binary32 number to binary64 is exact: the same sign, the
    mantissa brought to 53 digits. *)
Lemma double_of_float_finite s m e :
  valid_binary fprec femax (S754_finite s m e) = true ->
  let d := Zpos (digits2_pos m) in
  exists mz,
    double_of_float (S754_finite s m e) = S754_finite s mz (d + e - 53)
    /\ Zpos mz = Zpos m * 2 ^ (53 - d).
Proof.
  intros Hv d. apply valid_binary32_cases in Hv as [He Hv]. fold d in Hv.
  assert (Hd : 0 < d) by (subst d; lia).
  unfold double_of_float, binary_round.
  replace (fexp dprec demax (Zpos (digits2_pos m) + e)) with (d + e - 53).
  2:{ fold d. unfold fexp, emin, dprec, demax. lia. }
  unfold shl_align.
  destruct (d + e - 53 - e) as [|p|p] eqn:Hp; try lia.
  assert (Hm : Zpos (Pos.iter xO m p) = Zpos m * 2 ^ (53 - d)).
  { rewrite Zpos_iter_xO. f_equal. f_equal. lia. }
  assert (Hdig : Zdigits2 (Zpos (Pos.iter xO m p)) = 53).
  { rewrite Hm, Zdigits2_mul_pow2 by lia. cbn [Zdigits2]. fold d. lia. }
  assert (Hex : fexp dprec demax (53 + (d + e - 53)) - (d + e - 53) = 0).
  { unfold fexp, emin, dprec, demax. lia. }
  unfold binary_round_aux, shr_fexp. rewrite Hdig, Hex.
  cbn [shr shr_record_of_loc shr_m loc_of_shr_record round_nearest_even].
  rewrite Hdig, Hex. cbn [shr shr_m].
  replace (d + e - 53 <=? demax - dprec) with true.
  2:{ symmetry. apply Z.leb_le. unfold demax, dprec. lia. }
  eexists. split; [reflexivity|exact Hm].
Qed.

Lemma float_value_le_1 m e :
  (float_value (S754_finite false m e) <= 1)%Q
  <-> (if 0 <=? e then Zpos m * 2 ^ e <= 1 else Zpos m <= 2 ^ (- e)).
Proof.
  unfold float_value, Qle. cbn [Qnum Qden]. destruct (0 <=? e) eqn:He.
  - cbn [Qnum Qden]. lia.
  - apply Z.leb_gt in He. cbn [Qnum Qden].
    rewrite Z2Pos.id by (apply Z.pow_pos_nonneg; lia). lia.
Qed.

(** The test [offload > 1.0] of [parse_device], on a positive binary32
    number. *)
Lemma greater_than_one m e :
  valid_binary fprec femax (S754_finite false m e) = true ->
  dltb done (double_of_float (S754_finite false m e)) = true
  <-> ~ (float_value (S754_finite false m e) <= 1)%Q.
Proof.
  intros Hv. destruct (double_of_float_finite false m e Hv) as (mz & Hd & Hmz).
  cbn zeta in Hd. rewrite Hd, float_value_le_1.
  pose proof (digits2_pos_bounds m) as Hb.
  apply valid_binary32_cases in Hv as [_ Hv].
  set (d := Zpos (digits2_pos m)) in *.
  assert (Hdpos : 0 < d) by (subst d; lia).
  change done with (S754_finite false 4503599627370496 (-52)).
  unfold dltb, SFltb, SFcompare.
  destruct (Z.compare_spec (-52) (d + e - 53)) as [Heq|Hlt|Hgt].
  - (* the number lies in [1, 2) *)
    assert (He : e = 1 - d) by lia.
    assert (Hpow : 2 ^ 52 = 2 ^ (d - 1) * 2 ^ (53 - d)).
    { rewrite <- Z.pow_add_r by lia. f_equal. lia. }
    assert (Hp : 0 < 2 ^ (53 - d)) by (apply Z.pow_pos_nonneg; lia).
    rewrite Pos.compare_cont_spec. cbn [Pos.switch_Eq].
    change (4503599627370496 ?= mz)%positive with (Zpos 4503599627370496 ?= Zpos mz).
    rewrite Hmz. change (Zpos 4503599627370496) with (2 ^ 52). rewrite Hpow.
    destruct (Z.compare_spec (2 ^ (d - 1) * 2 ^ (53 - d)) (Zpos m * 2 ^ (53 - d)))
      as [Hc|Hc|Hc].
    + assert (Zpos m = 2 ^ (d - 1)) by nia.
      split; [done|]. intros Hn. exfalso. apply Hn.
      destruct (0 <=? e) eqn:He0.
      * apply Z.leb_le in He0. assert (d = 1) by lia. subst e.
        replace (1 - d) with 0 by lia. replace (d - 1) with 0 in * by lia. lia.
      * replace (- e) with (d - 1) by lia. lia.
    + assert (2 ^ (d - 1) < Zpos m) by nia.
      split; [|done]. intros _.
      destruct (0 <=? e) eqn:He0.
      * apply Z.leb_le in He0. assert (d = 1) by lia. subst e.
        replace (d - 1) with 0 in * by lia. replace (1 - d) with 0 by lia. lia.
      * replace (- e) with (d - 1) by lia. lia.
    + exfalso. nia.
  - (* the number is 2 or more *)
    split; [|done]. intros _.
    assert (H2 : 2 ^ 1 <= 2 ^ (d - 1 + e)) by (apply Z.pow_le_mono_r; lia).
    destruct (0 <=? e) eqn:He0.
    + apply Z.leb_le in He0. rewrite Z.pow_add_r in H2 by lia.
      assert (0 < 2 ^ e) by (apply Z.pow_pos_nonneg; lia). nia.
    + apply Z.leb_gt in He0.
      assert (Hs : 2 ^ (d - 1) = 2 ^ (d - 1 + e) * 2 ^ (- e)).
      { rewrite <- Z.pow_add_r by lia. f_equal. lia. }
      assert (0 < 2 ^ (- e)) by (apply Z.pow_pos_nonneg; lia). nia.
  - (* the number is below 1 *)
    split; [done|]. intros Hn. exfalso. apply Hn.
    destruct (0 <=? e) eqn:He0.
    + apply Z.leb_le in He0. lia.
    + apply Z.leb_gt in He0.
      assert (2 ^ d <= 2 ^ (- e)) by (apply Z.pow_le_mono_r; lia). lia.
Qed.

(** ** Device offloads *)

(** The offload of a declaration is read off the tree alone. *)
Lemma device_offload_value_pure i tag w w' v w2 :
  device_offload_value i tag w = Done v w' ->
  w' = w /\ device_offload_value i tag w2 = Done v w2.
Proof.
  unfold device_offload_value, child, defined, bind, ret, abort.
  destruct (tag == "offload"); [|destruct (tag == "load"); [|destruct (tag == "down")]];
    try destruct (children i !! 4%nat); cbn; intros H; try done;
    injection H as <- <-; done.
Qed.

Lemma in_unit_interval_cases f :
  valid_binary fprec femax f = true -> f <> S754_nan ->
  (fltb f (float_of_int 0) || dltb done (double_of_float f) = false <-> in_unit_interval f).
Proof.
  intros Hv Hn. destruct f as [s|s| |s m e]; try done.
  - destruct s; cbn; unfold in_unit_interval; cbn; (split; [done|]); intros [H _]; destruct H.
  - destruct s.
    + split; [done|]. by intros [[] _].
    + change (fltb (S754_finite false m e) (float_of_int 0)) with false.
      rewrite orb_false_l. unfold in_unit_interval.
      pose proof (greater_than_one m e Hv) as Hg.
      destruct (dltb done (double_of_float (S754_finite false m e))).
      * split; [done|]. intros [_ Hle]. by apply Hg in Hle.
      * split; [|done]. intros _. split; [done|].
        destruct (Qlt_le_dec 1 (float_value (S754_finite false m e))) as [Hlt|Hle]; [|done].
        exfalso. assert (false = true); [|done]. apply Hg. intros Hle.
        by apply Qlt_not_le in Hlt.
Qed.

(** What [parse_device] does with a declaration that has a fresh name and
    an offload clause: the range test decides between the complaint and
    the entry in [device_offload]. *)
Lemma parse_device_offload i w c1 c2 c3 offload :
  children i !! 1%nat = Some c1 -> children i !! 2%nat = Some c2 ->
  children i !! 3%nat = Some c3 ->
  item_id w !! string_node c2 = None ->
  device_offload_value i (string_node c3) w = Done offload w ->
  if fltb offload (float_of_int 0) || dltb done (double_of_float offload) then
    exists w',
      parse_device i w = Exit 1 w'
      /\ cerr w' = (cerr w ++ [OStr "illegal device offload "; OFloat offload;
                               OStr " on device "; OInt (int_node c1); OStr " ";
                               OStr (string_node c2); OStr " (valid range is [0,1])"; endl])
      /\ device_offload w' = device_offload w
  else
    match fixed_of_float offload with
    | Some v =>
        exists w', parse_device i w = Done tt w'
                   /\ device_offload w' = <[int_node c1 := v]> (device_offload w)
    | None => parse_device i w = Undefined
    end.
Proof.
  intros H1 H2 H3 Hfresh Hov.
  assert (Hlen : (4 <=? Z.of_nat (length (children i))) = true).
  { apply Z.leb_le. apply lookup_lt_Some in H3. lia. }
  assert (Hpure : forall w2, device_offload_value i (string_node c3) w2 = Done offload w2).
  { intros w2. by apply (device_offload_value_pure _ _ _ _ _ w2) in Hov as [_ ?]. }
  unfold parse_device, child, defined, bind, when, on_crush, modify, get, put_cout,
    put_cerr, exit, ret, count.
  rewrite H1, H2, H3, Hlen. cbn [item_id set_crush]. rewrite Hfresh.
  rewrite bool_decide_eq_false_2 by (by intros [? ?]).
  destruct (fltb offload (float_of_int 0) || dltb done (double_of_float offload)) eqn:Hbad;
    [|destruct (fixed_of_float offload) as [v|] eqn:Hfix].
  all: destruct (verbose w =? 0) eqn:Hverb; cbn -[fixed_of_float fltb dltb double_of_float float_of_int];
    rewrite Hverb; cbn -[fixed_of_float fltb dltb double_of_float float_of_int];
    rewrite Hpure, Hbad, ?Hfix; cbn.
  1,2: by eexists.
  1,2: destruct (max_devices (crush w) <=? int_node c1); by eexists.
  all: done.
Qed.




(** The decimal is rounded to binary32 before the range test: an offload
    written a little above 1 is read as 1 and accepted. *)
Example offload_above_one_accepted :
  exists w',
    parse_device (Node _device EmptyString
                    [leaf "device"; leaf "3"; leaf "osd3"; leaf "offload";
                     leaf "1.00000001"])
      (start (mk_fs ∅ ∅)) = Done tt w'
    /\ device_offload w' !! 3 = Some 65536.
Proof. eexists. split; by vm_compute. Qed.

(** * Further properties of the compiler *)

(** ** Names that are refused, names that are missing *)

Lemma parse_device_duplicate_witness :
  parse_device (Node _device EmptyString [leaf "device"; leaf "1"; leaf "osd0"])
    (set_item_id {["osd0" := 0]} (start (mk_fs ∅ ∅)))
  = Exit 1 (set_cerr [OStr "item "; OStr "osd0"; OStr " defined twice"; endl]
              (set_crush (set_item_name 1 "osd0" create)
                 (set_item_id {["osd0" := 0]} (start (mk_fs ∅ ∅))))).
Proof.
  apply (parse_device_duplicate
           (Node _device EmptyString [leaf "device"; leaf "1"; leaf "osd0"])
           (set_item_id {["osd0" := 0]} (start (mk_fs ∅ ∅))) (leaf "1") (leaf "osd0")).
  - reflexivity.
  - reflexivity.
  - exists 0. apply lookup_singleton_eq.
Defined.

Lemma parse_bucket_duplicate_witness :
  parse_bucket (Node _bucket EmptyString [leaf "host"; leaf "h1"; leaf "{"; leaf "}"])
    (set_type_id {["host" := 1]} (set_item_id {["h1" := -1]} (start (mk_fs ∅ ∅))))
  = Exit 1 (set_cerr [OStr "bucket or device '"; OStr "h1"; OStr "' is already defined"; endl]
              (set_type_id {["host" := 1]} (set_item_id {["h1" := -1]} (start (mk_fs ∅ ∅))))).
Proof.
  apply (parse_bucket_duplicate
           (Node _bucket EmptyString [leaf "host"; leaf "h1"; leaf "{"; leaf "}"])
           (set_type_id {["host" := 1]} (set_item_id {["h1" := -1]} (start (mk_fs ∅ ∅))))
           (leaf "host") (leaf "h1")).
  - reflexivity.
  - reflexivity.
  - exists 1. apply lookup_singleton_eq.
  - exists (-1). apply lookup_singleton_eq.
Defined.

Lemma parse_rule_duplicate_witness :
  parse_rule (Node _crushrule EmptyString [leaf "rule"; leaf "data"; leaf "{"])
    (set_rule_id {["data" := 0]} (start (mk_fs ∅ ∅)))
  = Exit 1 (set_cerr [OStr "rule name '"; OStr "data"; OStr ("' already defined" ++ nl); endl]
              (set_rule_id {["data" := 0]} (start (mk_fs ∅ ∅)))).
Proof.
  apply (parse_rule_duplicate
           (Node _crushrule EmptyString [leaf "rule"; leaf "data"; leaf "{"])
           (set_rule_id {["data" := 0]} (start (mk_fs ∅ ∅))) (leaf "data")).
  - reflexivity.
  - discriminate.
  - exists 0. apply lookup_singleton_eq.
Defined.

(** A bucket of a type no [type] line has declared is refused before
    anything else is looked at; nothing but [cerr] changes. *)
Theorem parse_bucket_unknown_type i w c0 :
  children i !! 0%nat = Some c0 ->
  type_id w !! string_node c0 = None ->
  parse_bucket i w
  = Exit 1 (set_cerr (cerr w ++ [OStr "bucket type '"; OStr (string_node c0);
                                 OStr "' is not defined"; endl]) w).
Proof.
  intros H0 Ht. unfold parse_bucket, child, defined, bind.
  rewrite H0. cbn. unfold count. rewrite Ht.
  rewrite bool_decide_eq_false_2 by (by intros [? ?]). cbn. by destruct w.
Qed.

Lemma parse_bucket_unknown_type_witness :
  parse_bucket (Node _bucket EmptyString [leaf "rack"; leaf "r1"; leaf "{"; leaf "}"])
    (start (mk_fs ∅ ∅))
  = Exit 1 (set_cerr [OStr "bucket type '"; OStr "rack"; OStr "' is not defined"; endl]
              (start (mk_fs ∅ ∅))).
Proof.
  apply (parse_bucket_unknown_type
           (Node _bucket EmptyString [leaf "rack"; leaf "r1"; leaf "{"; leaf "}"])
           (start (mk_fs ∅ ∅)) (leaf "rack")).
  - reflexivity.
  - reflexivity.
Defined.

(** An offload outside [0, 1] is reported with the value, the id and the
    name of the device; the device is by then in [item_id] and [id_item],
    and [device_offload] has no entry for it. *)
Theorem illegal_offload_reported i w c1 c2 c3 offload :
  children i !! 1%nat = Some c1 -> children i !! 2%nat = Some c2 ->
  children i !! 3%nat = Some c3 ->
  item_id w !! string_node c2 = None ->
  device_offload_value i (string_node c3) w = Done offload w ->
  valid_binary fprec femax offload = true -> offload <> S754_nan ->
  ~ in_unit_interval offload ->
  exists w',
    parse_device i w = Exit 1 w'
    /\ cerr w' = (cerr w ++ [OStr "illegal device offload "; OFloat offload;
                             OStr " on device "; OInt (int_node c1); OStr " ";
                             OStr (string_node c2); OStr " (valid range is [0,1])"; endl])
    /\ device_offload w' = device_offload w.
Proof.
  intros H1 H2 H3 Hfresh Hov Hv Hnan Hout.
  pose proof (parse_device_offload i w c1 c2 c3 offload H1 H2 H3 Hfresh Hov) as Hpd.
  pose proof (in_unit_interval_cases offload Hv Hnan) as Hin.
  destruct (fltb offload (float_of_int 0) || dltb done (double_of_float offload)).
  - exact Hpd.
  - exfalso. apply Hout. by apply Hin.
Qed.

Lemma illegal_offload_reported_witness :
  exists w',
    parse_device (Node _device EmptyString
                    [leaf "device"; leaf "3"; leaf "osd3"; leaf "load"; leaf "1.5"])
      (start (mk_fs ∅ ∅)) = Exit 1 w'
    /\ cerr w' = ([] ++ [OStr "illegal device offload "; OFloat (S754_finite true 8388608 (-24));
                         OStr " on device "; OInt 3; OStr " ";
                         OStr "osd3"; OStr " (valid range is [0,1])"; endl])
    /\ device_offload w' = ∅.
Proof.
  apply (illegal_offload_reported
           (Node _device EmptyString
              [leaf "device"; leaf "3"; leaf "osd3"; leaf "load"; leaf "1.5"])
           (start (mk_fs ∅ ∅)) (leaf "3") (leaf "osd3") (leaf "load")
           (S754_finite true 8388608 (-24))).
  - reflexivity.
  - reflexivity.
  - reflexivity.
  - reflexivity.
  - vm_compute. reflexivity.
  - vm_compute. reflexivity.
  - discriminate.
  - intros [[] _].
Defined.

(** ** The two passes over a bucket block *)

Lemma item_used_pos_Done sub name tags : forall used w used' w',
  item_used_pos sub name tags used w = Done used' w' ->
  NoDup (tag_positions tags)
  /\ used' = used ∪ list_to_set (tag_positions tags)
  /\ (forall p, p ∈ tag_positions tags -> p ∉ used).
Proof.
  remember (length tags) as n eqn:Hn.
  revert tags Hn. induction n as [n IH] using lt_wf_ind. intros tags Hn used w used' w' H.
  destruct tags as [|t [|v rest]]; cbn [item_used_pos tag_positions] in *.
  - injection H as <- _. split; [constructor|]. split; [set_solver|]. set_solver.
  - destruct (string_node t == "pos"); [discriminate|]. injection H as <- _.
    split; [constructor|]. split; [set_solver|]. set_solver.
  - destruct (string_node t == "pos").
    + destruct (bool_decide (int_node v ∈ used)) eqn:Hin.
      { apply bind_Done in H. destruct H as (? & ? & _ & H).
        apply bind_Done in H. destruct H as (? & ? & _ & H). discriminate. }
      apply bool_decide_eq_false in Hin.
      eapply (IH (length rest)) in H; [|subst n; cbn; lia|reflexivity].
      destruct H as (Hnd & -> & Hfresh). cbn [app].
      split; [|split].
      * constructor; [|done]. intros Hp. apply (Hfresh _ Hp). set_solver.
      * set_solver.
      * intros p Hp. apply elem_of_cons in Hp as [->|Hp]; [done|].
        specialize (Hfresh p Hp). set_solver.
    + eapply (IH (length rest)) in H; [|subst n; cbn; lia|reflexivity]. done.
Qed.

Lemma bucket_head_line_Done name h sub w h' w' :
  bucket_head_line name h sub w = Done h' w' ->
  NoDup (line_positions sub)
  /\ h_used_items h' = h_used_items h ∪ list_to_set (line_positions sub)
  /\ (forall p, p ∈ line_positions sub -> p ∉ h_used_items h)
  /\ h_size h' = h_size h + (if is_item_line sub then 1 else 0).
Proof.
  unfold bucket_head_line, line_positions, is_item_line. intros H.
  apply bind_Done in H. destruct H as (t & w1 & Ht & H). apply child_Done in Ht as [Ht ->].
  destruct (children sub) as [|t' rest] eqn:Hch; [discriminate|].
  cbn in Ht. injection Ht as ->.
  destruct (string_node t == "id") eqn:Hid.
  { apply String.eqb_eq in Hid. rewrite Hid. cbn.
    apply bind_Done in H. destruct H as (v & w1 & _ & H). injection H as <- _. cbn.
    split; [constructor|]. split; [set_solver|]. split; [set_solver|lia]. }
  destruct (string_node t == "alg") eqn:Halg.
  { apply String.eqb_eq in Halg. rewrite Halg. cbn.
    apply bind_Done in H. destruct H as (v & w1 & _ & H).
    destruct (bucket_alg_of_name (string_node v)).
    - injection H as <- _. cbn.
      split; [constructor|]. split; [set_solver|]. split; [set_solver|lia].
    - apply bind_Done in H. destruct H as (? & ? & _ & H). discriminate. }
  destruct (string_node t == "item") eqn:Hitem; [|discriminate].
  apply bind_Done in H. destruct H as (used & w1 & Hu & H). injection H as <- _. cbn.
  apply item_used_pos_Done in Hu as (Hnd & -> & Hfresh). done.
Qed.

Lemma bucket_head_loop_Done name lines : forall h w h' w',
  bucket_head_loop name lines h w = Done h' w' ->
  NoDup (flat_map line_positions lines)
  /\ h_used_items h' = h_used_items h ∪ list_to_set (flat_map line_positions lines)
  /\ (forall p, p ∈ flat_map line_positions lines -> p ∉ h_used_items h)
  /\ h_size h' = h_size h + Z.of_nat (length (item_lines lines)).
Proof.
  induction lines as [|sub rest IH]; intros h w h' w' H; cbn [bucket_head_loop] in H.
  - injection H as <- _. cbn. split; [constructor|]. split; [set_solver|].
    split; [set_solver|lia].
  - apply bind_Done in H. destruct H as (h1 & w1 & H1 & H).
    apply bucket_head_line_Done in H1 as (Hnd1 & Hu1 & Hf1 & Hs1).
    apply IH in H as (Hnd & Hu & Hf & Hs). cbn [flat_map].
    split; [|split; [|split]].
    + apply NoDup_app. split; [done|]. split; [|done].
      intros p Hp1 Hp. apply (Hf p Hp). rewrite Hu1. set_solver.
    + rewrite Hu, Hu1. set_solver.
    + intros p Hp. apply elem_of_app in Hp as [Hp|Hp]; [by apply Hf1|].
      specialize (Hf p Hp). rewrite Hu1 in Hf. set_solver.
    + rewrite Hs, Hs1. unfold item_lines. rewrite filter_cons.
      destruct (is_item_line sub);
        [rewrite decide_True by done | rewrite decide_False by done]; cbn [length]; lia.
Qed.

(** Within one bucket block no position is asked for twice: when the first
    loop of [parse_bucket] comes to its end, the [pos] tags of the item
    lines are pairwise different, [used_items] holds exactly these
    positions (besides what it held before) and [size] has counted the
    item lines. *)
Theorem explicit_positions_distinct name lines w h w' :
  bucket_head_loop name lines (mk_head 0 (ALG_OTHER (-1)) ∅ 0) w = Done h w' ->
  NoDup (flat_map line_positions lines)
  /\ h_used_items h = list_to_set (flat_map line_positions lines)
  /\ h_size h = Z.of_nat (length (item_lines lines)).
Proof.
  intros H. apply bucket_head_loop_Done in H as (Hnd & Hu & _ & Hs). cbn in Hu, Hs.
  split; [done|]. split; [|lia]. rewrite Hu. set_solver.
Qed.

Lemma explicit_positions_distinct_witness :
  let lines := [Node (_other 0) EmptyString [leaf "item"; leaf "a"; leaf "pos"; leaf "1"];
                Node (_other 0) EmptyString [leaf "alg"; leaf "tree"];
                Node (_other 0) EmptyString [leaf "item"; leaf "b"; leaf "pos"; leaf "0"]] in
  let h := mk_head 0 CRUSH_BUCKET_TREE {[0; 1]} 2 in
  NoDup (flat_map line_positions lines)
  /\ h_used_items h = list_to_set (flat_map line_positions lines)
  /\ h_size h = Z.of_nat (length (item_lines lines)).
Proof.
  cbv zeta.
  apply (explicit_positions_distinct "b1"
           [Node (_other 0) EmptyString [leaf "item"; leaf "a"; leaf "pos"; leaf "1"];
            Node (_other 0) EmptyString [leaf "alg"; leaf "tree"];
            Node (_other 0) EmptyString [leaf "item"; leaf "b"; leaf "pos"; leaf "0"]]
           (start (mk_fs ∅ ∅)) (mk_head 0 CRUSH_BUCKET_TREE {[0; 1]} 2) (start (mk_fs ∅ ∅))).
  vm_compute. reflexivity.
Defined.

Lemma item_tags_Done tags : forall weight pos w wp w',
  item_tags tags weight pos w = Done wp w' ->
  snd wp = default pos (last (tag_positions tags)).
Proof.
  remember (length tags) as n eqn:Hn.
  revert tags Hn. induction n as [n IH] using lt_wf_ind. intros tags Hn weight pos w wp w' H.
  destruct tags as [|t [|v rest]]; cbn [item_tags tag_positions] in *.
  - by injection H as <- _.
  - destruct (string_node t == "weight"); [discriminate|].
    destruct (string_node t == "pos"); discriminate.
  - destruct (string_node t == "weight") eqn:Hw.
    + apply String.eqb_eq in Hw. rewrite Hw. cbn [app].
      eapply (IH (length rest)) in H; [done|subst n; cbn; lia|reflexivity].
    + destruct (string_node t == "pos"); [|discriminate].
      eapply (IH (length rest)) in H; [|subst n; cbn; lia|reflexivity].
      rewrite H. cbn [app]. rewrite last_cons.
      by destruct (last (tag_positions rest)).
Qed.

(** What an item line that is accepted says about the tables and the
    size: its item is in [item_id], and the position it asks for, if any,
    lies below [size]. *)
Lemma bucket_body_line_Done name used size y sub w y' w' :
  bucket_body_line name used size y sub w = Done y' w' ->
  is_item_line sub = true ->
  (exists iname, item_line_name sub = Some iname /\ is_Some (item_id w !! iname))
  /\ default (-1) (last (line_positions sub)) < size.
Proof.
  unfold bucket_body_line, item_line_name, line_positions, is_item_line. intros H Hitem.
  apply bind_Done in H. destruct H as (t & w1 & Ht & H). apply child_Done in Ht as [Ht ->].
  destruct (children sub) as [|t' rest] eqn:Hch; [discriminate|].
  cbn in Ht. injection Ht as ->. rewrite Hitem in *.
  apply bind_Done in H. destruct H as (c1 & w1 & H1 & H). apply child_Done in H1 as [H1 ->].
  rewrite Hch in H1. rewrite H1. cbn [fmap option_fmap option_map].
  apply bind_Done in H. destruct H as (w0 & w1 & Hg & H). unfold get in Hg.
  injection Hg as <- <-.
  apply bind_Done in H. destruct H as ([] & w1 & Hc & H).
  destruct (count (item_id w) (string_node c1)) eqn:Hcount; cbn [negb when] in Hc.
  2:{ apply bind_Done in Hc. destruct Hc as (? & ? & _ & Hc). discriminate. }
  split; [eexists; split; [reflexivity|by apply count_true_Some]|].
  injection Hc as <-.
  apply bind_Done in H. destruct H as (wp & w1 & Htags & H).
  apply item_tags_Done in Htags. rewrite <- Htags.
  apply bind_Done in H. destruct H as ([] & w2 & Hsz & H).
  destruct (size <=? snd wp) eqn:Hle; cbn [when] in Hsz.
  { apply bind_Done in Hsz. destruct Hsz as (? & ? & _ & Hsz). discriminate. }
  apply Z.leb_gt in Hle. done.
Qed.

Lemma bucket_body_loop_Done name used size lines : forall y w y' w',
  bucket_body_loop name used size lines y w = Done y' w' ->
  forall sub, sub ∈ lines -> is_item_line sub = true ->
    (exists iname, item_line_name sub = Some iname /\ is_Some (item_id w !! iname))
    /\ default (-1) (last (line_positions sub)) < size.
Proof.
  induction lines as [|s rest IH]; intros y w y' w' H sub Hin Hn.
  - by apply elem_of_nil in Hin.
  - cbn [bucket_body_loop] in H.
    apply bind_Done in H. destruct H as (y1 & w1 & H1 & H).
    assert (Hu : ok unchanged (fun _ _ => True) (bucket_body_line name used size y s)).
    { apply ok_bucket_body_line with (Msg := fun _ => True); frame_side. }
    specialize (Hu w). rewrite H1 in Hu. unfold unchanged in Hu. subst w1.
    apply elem_of_cons in Hin as [->|Hin].
    + eapply bucket_body_line_Done; eauto.
    + eapply IH; eauto.
Qed.

(** A bucket holds only what was declared before it: when a bucket block
    compiles, every item it names was in [item_id] when the block began,
    so an item is never the bucket itself nor anything declared further
    down in the text. *)
Theorem bucket_items_declared i w w' c1 sub iname :
  parse_bucket i w = Done tt w' ->
  children i !! 1%nat = Some c1 ->
  sub ∈ bucket_lines i -> item_line_name sub = Some iname ->
  is_Some (item_id w !! iname) /\ iname <> string_node c1.
Proof.
  intros H H1 Hin Hn.
  apply parse_bucket_Done in H as (c0 & c1' & h & y & _ & H1' & Hfresh & _ & Hy & _).
  rewrite H1 in H1'. injection H1' as <-.
  assert (Hitem : is_item_line sub = true).
  { unfold item_line_name in Hn. by destruct (is_item_line sub). }
  eapply bucket_body_loop_Done in Hy as [(iname' & Hn' & Hs) _]; [|done|done].
  rewrite Hn in Hn'. injection Hn' as <-.
  split; [done|]. intros ->. rewrite Hfresh in Hs. by destruct Hs.
Qed.

Lemma bucket_items_declared_witness :
  is_Some (item_id before_h1 !! "osd0") /\ "osd0" <> string_node (leaf "h1").
Proof.
  apply (bucket_items_declared hosts_h1 before_h1 after_h1 (leaf "h1")
           (Node (_other 0) EmptyString
              [leaf "item"; leaf "osd0"; leaf "weight"; leaf "2.5"])).
  - vm_compute. reflexivity.
  - reflexivity.
  - vm_compute. apply list_elem_of_In. cbn. tauto.
  - reflexivity.
Defined.

Lemma set_last_Some (s : gset Z) m :
  set_last s = Some m -> m ∈ s /\ forall x, x ∈ s -> x <= m.
Proof.
  unfold set_last. destruct (elements s) as [|x l] eqn:He; [discriminate|].
  intros [= <-].
  assert (Hmax : forall l x, foldr Z.max x l ∈ x :: l
                             /\ forall z, z ∈ x :: l -> z <= foldr Z.max x l).
  { clear. induction l as [|a l IH]; intros x; cbn.
    - split; [by left|]. intros z Hz. apply list_elem_of_singleton in Hz. lia.
    - destruct (IH x) as [Hin Hle]. split.
      + destruct (Z.max_spec a (foldr Z.max x l)) as [[_ ->]|[_ ->]].
        * apply elem_of_cons in Hin as [->|Hin]; [by left|]. right. by right.
        * right. by left.
      + intros z Hz. apply elem_of_cons in Hz as [->|Hz].
        * specialize (Hle x ltac:(by left)). lia.
        * apply elem_of_cons in Hz as [->|Hz]; [lia|].
          specialize (Hle z ltac:(by right)). lia. }
  destruct (Hmax l x) as [Hin Hle]. rewrite <- He in Hin, Hle.
  split; [by apply elem_of_elements|]. intros z Hz. apply Hle. by apply elem_of_elements.
Qed.

Lemma set_last_None (s : gset Z) : set_last s = None -> s = ∅.
Proof.
  unfold set_last. destruct (elements s) eqn:He; [|discriminate].
  intros _. by apply elements_empty_inv, leibniz_equiv in He.
Qed.

(** The size of a bucket is the number of its item lines, and every
    position asked for lies below it: with at most one [pos] tag per
    line, a block that compiles hands [add_bucket] as many slots as it has
    item lines. A [pos] equal to or above the number of items is never
    accepted, although [size] is first raised to the largest position. *)
Theorem bucket_size_counts_items i w w' :
  parse_bucket i w = Done tt w' ->
  (forall sub, sub ∈ bucket_lines i -> (length (line_positions sub) <= 1)%nat) ->
  let n := Z.of_nat (length (item_lines (bucket_lines i))) in
  (exists id name alg type items weights,
     crush w' = set_item_name id name (add_bucket id alg type n items weights (crush w)))
  /\ forall p, p ∈ flat_map line_positions (bucket_lines i) -> p < n.
Proof.
  intros H Hone n.
  apply parse_bucket_Done in H as (c0 & c1 & h & y & _ & _ & _ & Hh & Hy & _ & _ & _ & _ & Hc).
  apply bucket_head_loop_Done in Hh as (_ & Hu & _ & Hs).
  cbn [h_used_items h_size] in Hu, Hs. fold n in Hs.
  assert (Hu' : h_used_items h = list_to_set (flat_map line_positions (bucket_lines i)))
    by (rewrite Hu; set_solver).
  clear Hu. rename Hu' into Hu. rewrite Z.add_0_l in Hs.
  assert (Hsize : match set_last (h_used_items h) with
                  | Some m => Z.max (h_size h) m
                  | None => h_size h
                  end = n
                  /\ forall p, p ∈ h_used_items h -> p < n).
  { destruct (set_last (h_used_items h)) as [m|] eqn:Hl.
    - apply set_last_Some in Hl as [Hm Hle].
      assert (Hmn : m < n).
      { pose proof Hm as Hm'. rewrite Hu in Hm'. apply elem_of_list_to_set in Hm'.
        apply list_elem_of_In, in_flat_map in Hm' as (sub & Hsub & Hp).
        apply list_elem_of_In in Hsub, Hp.
        specialize (Hone sub Hsub).
        assert (Hitem : is_item_line sub = true).
        { unfold line_positions in Hp. destruct (is_item_line sub); [done|].
          by apply elem_of_nil in Hp. }
        assert (Hlast : last (line_positions sub) = Some m).
        { destruct (line_positions sub) as [|p [|q l]]; cbn in Hone; [|..|lia].
          - by apply elem_of_nil in Hp.
          - apply list_elem_of_singleton in Hp. by subst. }
        eapply bucket_body_loop_Done in Hy as [_ Hpos]; [|exact Hsub|exact Hitem].
        rewrite Hlast in Hpos. cbn in Hpos. lia. }
      split; [lia|]. intros p Hp. specialize (Hle p Hp). lia.
    - apply set_last_None in Hl. split; [done|]. intros p Hp. rewrite Hl in Hp. set_solver. }
  destruct Hsize as [Hsize Hbelow]. rewrite Hsize in Hc.
  split; [by eexists _, _, _, _, _, _|].
  intros p Hp. apply Hbelow. rewrite Hu. by apply elem_of_list_to_set.
Qed.

Lemma bucket_size_counts_items_witness :
  (exists id name alg type items weights,
     crush after_h1 = set_item_name id name (add_bucket id alg type 2 items weights
                                               (crush before_h1)))
  /\ forall p, p ∈ flat_map line_positions (bucket_lines hosts_h1) -> p < 2.
Proof.
  apply (bucket_size_counts_items hosts_h1 before_h1 after_h1).
  - vm_compute. reflexivity.
  - intros sub Hsub. vm_compute in Hsub.
    repeat (apply elem_of_cons in Hsub as [->|Hsub]; [vm_compute; lia|]).
    by apply elem_of_nil in Hsub.
Defined.

(** [while (used_items.count(curpos)) curpos++] ends on the first position
    from [curpos] on that no item line has asked for. *)
Lemma skip_used_free (used : gset Z) fuel c :
  (Z.of_nat (size (filter (fun j => c <= j) used)) < Z.of_nat fuel) ->
  let r := skip_used used fuel c in
  c <= r /\ (r ∉ used) /\ forall j, c <= j < r -> j ∈ used.
Proof.
  revert c. induction fuel as [|fuel IH]; intros c Hsz; [lia|]. cbn [skip_used].
  destruct (bool_decide (c ∈ used)) eqn:Hin.
  - apply bool_decide_eq_true in Hin.
    assert (Hsplit : filter (fun j => c <= j) used
                     = {[c]} ∪ filter (fun j => c + 1 <= j) used).
    { apply set_eq. intros j. rewrite elem_of_union, !elem_of_filter, elem_of_singleton.
      split; [intros [? ?]|intros [->|[? ?]]].
      - destruct (decide (j = c)); [by left|right; split; [lia|done]].
      - split; [lia|done].
      - split; [lia|done]. }
    rewrite Hsplit, size_union, size_singleton in Hsz.
    2:{ intros j Hj1 Hj2. apply elem_of_singleton in Hj1. subst.
        apply elem_of_filter in Hj2 as [? _]. lia. }
    destruct (IH (c + 1)) as (H1 & H2 & H3); [lia|].
    cbn zeta. split; [lia|]. split; [done|].
    intros j Hj. destruct (decide (j = c)) as [->|]; [done|]. apply H3. lia.
  - apply bool_decide_eq_false in Hin. cbn zeta. split; [lia|]. split; [done|]. lia.
Qed.

(** An item line without [pos] takes the first position from [curpos] on
    that no line of the block has asked for, and [curpos] moves past it:
    it never lands on a position another item claims explicitly. *)
Theorem automatic_position_free name used size y sub w y' w' c1 itemid :
  bucket_body_line name used size y sub w = Done y' w' ->
  is_item_line sub = true -> line_positions sub = [] ->
  children sub !! 1%nat = Some c1 -> item_id w !! string_node c1 = Some itemid ->
  0 <= y_curpos y ->
  exists pos,
    y_curpos y <= pos < size
    /\ (pos ∉ used)
    /\ (forall j, y_curpos y <= j < pos -> j ∈ used)
    /\ y_curpos y' = pos + 1
    /\ y_items y' = <[Z.to_nat pos := itemid]> (y_items y).
Proof.
  unfold bucket_body_line, line_positions, is_item_line. intros H Hitem Hpos H1 Hid Hcur.
  apply bind_Done in H. destruct H as (t & w1 & Ht & H). apply child_Done in Ht as [Ht ->].
  destruct (children sub) as [|t' rest] eqn:Hch; [discriminate|].
  cbn in Ht. injection Ht as ->. rewrite Hitem in *.
  apply bind_Done in H. destruct H as (c1' & w1 & H1' & H). apply child_Done in H1' as [H1' ->].
  rewrite Hch in H1'. rewrite H1 in H1'. injection H1' as <-.
  apply bind_Done in H. destruct H as (w0 & w1 & Hg & H). injection Hg as <- <-.
  apply bind_Done in H. destruct H as ([] & w1 & Hw & H).
  destruct (negb (count (item_id w) (string_node c1))); cbn [when] in Hw; [discriminate|].
  injection Hw as <-.
  rewrite Hid in H. change (default 0 (Some itemid)) with itemid in H.
  apply bind_Done in H. destruct H as (wp & w1 & Htags & H).
  assert (w1 = w) as ->.
  { assert (Hu : ok unchanged (fun _ _ => True)
                   (item_tags (drop 2 (t :: rest)) (default_weight w itemid) (-1))).
    { apply ok_item_tags; frame_side. }
    specialize (Hu w). rewrite Htags in Hu. exact Hu. }
  apply item_tags_Done in Htags. rewrite Hpos in Htags. cbn in Htags.
  destruct wp as [weight pos]. cbn [fst snd] in *. subst pos.
  apply bind_Done in H. destruct H as ([] & w1 & Hw & H).
  destruct (size <=? -1) eqn:Hsz; cbn [when] in Hw; [discriminate|]. injection Hw as <-.
  change (-1 <? 0) with true in H. cbv iota in H.
  apply bind_Done in H. destruct H as ([] & w1 & Hw & H).
  set (pos' := skip_used used (S (base.size used)) (y_curpos y)) in *.
  destruct (size <=? pos') eqn:Hsz'; cbn [when] in Hw; [discriminate|]. injection Hw as <-.
  apply bind_Done in H. destruct H as (fw & w1 & Hfw & H). apply defined_Done in Hfw as [Hfw ->].
  injection H as <- <-. cbn.
  apply Z.leb_gt in Hsz'.
  destruct (skip_used_free used (S (base.size used)) (y_curpos y)) as (Hle & Hfree & Hall).
  { pose proof (subseteq_size (filter (fun j => y_curpos y <= j) used) used) as Hs.
    specialize (Hs ltac:(set_solver)). lia. }
  fold pos' in Hle, Hfree, Hall.
  exists pos'. repeat split; done || lia.
Qed.

Lemma automatic_position_free_witness :
  let y := mk_body 0 (float_of_int 0) [0; 0] [0; 0] in
  let y' := mk_body 2 (S754_finite false 8388608 (-23)) [0; 1] [0; 65536] in
  exists pos,
    y_curpos y <= pos < 2
    /\ (pos ∉ ({[0]} : gset Z))
    /\ (forall j, y_curpos y <= j < pos -> j ∈ ({[0]} : gset Z))
    /\ y_curpos y' = pos + 1
    /\ y_items y' = <[Z.to_nat pos := 1]> (y_items y).
Proof.
  cbv zeta.
  apply (automatic_position_free "h1" {[0]} 2 (mk_body 0 (float_of_int 0) [0; 0] [0; 0])
           (Node (_other 0) EmptyString [leaf "item"; leaf "osd1"]) before_h1
           (mk_body 2 (S754_finite false 8388608 (-23)) [0; 1] [0; 65536]) before_h1
           (leaf "osd1") 1).
  - vm_compute. reflexivity.
  - reflexivity.
  - reflexivity.
  - reflexivity.
  - vm_compute. reflexivity.
  - cbn. lia.
Defined.

(** ** Rules *)

Lemma rule_step_Done ruleno rname step s w w' :
  rule_step ruleno rname step s w = Done tt w' ->
  names_kept w w'
  /\ (forall item, step_take_item s = Some item -> is_Some (item_id w !! item))
  /\ (forall ty, step_choose_type s = Some ty -> is_Some (type_id w !! ty)).
Proof.
  intros H.
  assert (Hk : ok names_kept (fun _ _ => True) (rule_step ruleno rname step s)).
  { apply ok_rule_step with (Msg := fun _ => True);
      unfold names_kept; intros; cbn; intuition congruence. }
  specialize (Hk w). rewrite H in Hk. split; [exact Hk|].
  unfold rule_step, step_take_item, step_choose_type in *.
  destruct (value_id s); try discriminate.
  - split; [|discriminate]. intros item Hi.
    apply bind_Done in H. destruct H as (c1 & w1 & H1 & H). apply child_Done in H1 as [H1 ->].
    rewrite H1 in Hi. injection Hi as <-.
    apply bind_Done in H. destruct H as (w0 & w1 & Hg & H). injection Hg as <- <-.
    apply bind_Done in H. destruct H as ([] & w1 & Hc & H).
    destruct (count (item_id w) (string_node c1)) eqn:Hcount; [by apply count_true_Some|].
    cbn in Hc. discriminate.
  - split; [discriminate|]. intros ty Hi.
    apply bind_Done in H. destruct H as (c4 & w1 & H4 & H). apply child_Done in H4 as [H4 ->].
    rewrite H4 in Hi. injection Hi as <-.
    apply bind_Done in H. destruct H as (w0 & w1 & Hg & H). injection Hg as <- <-.
    apply bind_Done in H. destruct H as ([] & w1 & Hc & H).
    destruct (count (type_id w) (string_node c4)) eqn:Hcount; [by apply count_true_Some|].
    cbn in Hc. discriminate.
  - split; [discriminate|]. intros ty Hi.
    apply bind_Done in H. destruct H as (c4 & w1 & H4 & H). apply child_Done in H4 as [H4 ->].
    rewrite H4 in Hi. injection Hi as <-.
    apply bind_Done in H. destruct H as (w0 & w1 & Hg & H). injection Hg as <- <-.
    apply bind_Done in H. destruct H as ([] & w1 & Hc & H).
    destruct (count (type_id w) (string_node c4)) eqn:Hcount; [by apply count_true_Some|].
    cbn in Hc. discriminate.
  - split; discriminate.
Qed.

Lemma rule_steps_Done i ruleno rname steps : forall idx step w st w',
  rule_steps i ruleno rname steps idx step w = Done st w' ->
  forall k p s, (k < steps)%nat ->
    children i !! (idx + k)%nat = Some p -> children p !! 1%nat = Some s ->
    (forall item, step_take_item s = Some item -> is_Some (item_id w !! item))
    /\ (forall ty, step_choose_type s = Some ty -> is_Some (type_id w !! ty)).
Proof.
  induction steps as [|n IH]; intros idx step w st w' H k p s Hk Hp Hs; [lia|].
  cbn [rule_steps] in H.
  apply bind_Done in H. destruct H as (p0 & w1 & Hp0 & H). apply child_Done in Hp0 as [Hp0 ->].
  apply bind_Done in H. destruct H as (s0 & w1 & Hs0 & H). apply child_Done in Hs0 as [Hs0 ->].
  apply bind_Done in H. destruct H as ([] & w1 & Hstep & H).
  apply rule_step_Done in Hstep as ([Hi Ht] & Htake & Hchoose).
  destruct k as [|k].
  - rewrite Nat.add_0_r in Hp. rewrite Hp0 in Hp. injection Hp as <-.
    rewrite Hs0 in Hs. injection Hs as <-. done.
  - rewrite <- Hi, <- Ht. eapply (IH _ _ _ _ _ H k p s); [lia| |done].
    rewrite <- Hp. f_equal. lia.
Qed.

(** A rule refers only to what was declared before it: when a rule block
    compiles, the item of every [take] step was in [item_id] and the type
    of every [choose] and [chooseleaf] step was in [type_id] when the block
    began. *)
Theorem rule_references_declared i w w' k p s :
  parse_rule i w = Done tt w' ->
  (k < rule_step_count i)%nat ->
  children i !! (rule_start i + 7 + k)%nat = Some p -> children p !! 1%nat = Some s ->
  (forall item, step_take_item s = Some item -> is_Some (item_id w !! item))
  /\ (forall ty, step_choose_type s = Some ty -> is_Some (type_id w !! ty)).
Proof.
  intros H Hk Hp Hs. unfold parse_rule in H.
  apply bind_Done in H. destruct H as (c1 & w1 & H1 & H). apply child_Done in H1 as [H1 ->].
  unfold rule_step_count, rule_start in *. rewrite H1 in *.
  apply bind_Done in H. destruct H as (w0 & w1 & Hg & H). injection Hg as <- <-.
  apply bind_Done in H. destruct H as ([] & w1 & Hdup & H).
  assert (w1 = w) as ->.
  { destruct (negb (string_node c1 == "{") && count (rule_id w) (string_node c1));
      cbn [when] in Hdup; [|by injection Hdup].
    apply bind_Done in Hdup. destruct Hdup as (? & ? & _ & Hdup). discriminate. }
  clear Hdup.
  set (start := if string_node c1 == "{" then 3%nat else 4%nat) in *.
  apply bind_Done in H. destruct H as (cp & w1 & Hcp & H). apply child_Done in Hcp as [_ ->].
  apply bind_Done in H. destruct H as (ct & w1 & Hct & H). apply child_Done in Hct as [_ ->].
  apply bind_Done in H. destruct H as (type & w1 & Hty & H).
  assert (w1 = w) as ->.
  { destruct (string_node ct == "replicated"); [by injection Hty|].
    destruct (string_node ct == "raid4"); [by injection Hty|discriminate]. }
  apply bind_Done in H. destruct H as (cmin & w1 & Hmin & H). apply child_Done in Hmin as [_ ->].
  apply bind_Done in H. destruct H as (cmax & w1 & Hmax & H). apply child_Done in Hmax as [_ ->].
  apply bind_Done in H. destruct H as (w0 & w1 & Hg & H). injection Hg as <- <-.
  destruct (add_rule _ _ _ _ _ _ _) as [ruleno c].
  apply bind_Done in H. destruct H as ([] & w1 & Hm & H). injection Hm as <-.
  apply bind_Done in H. destruct H as ([] & w2 & Hn & H).
  assert (Hkept : names_kept (set_crush c w) w2).
  { destruct (negb ((if string_node c1 == "{" then EmptyString else string_node c1)
                    == EmptyString)); cbn [when] in Hn.
    - apply bind_Done in Hn. destruct Hn as ([] & w3 & Hn1 & Hn). injection Hn1 as <-.
      injection Hn as <-. done.
    - injection Hn as <-. done. }
  destruct Hkept as [Hi Ht]. cbn in Hi, Ht.
  apply bind_Done in H. destruct H as (st & w3 & H & _).
  eapply rule_steps_Done in H as [Htake Hchoose]; [|exact Hk|exact Hp|exact Hs].
  rewrite Hi in Htake. rewrite Ht in Hchoose. done.
Qed.

Lemma rule_references_declared_witness :
  let s := Node _step_take EmptyString [leaf "take"; leaf "h1"] in
  (forall item, step_take_item s = Some item -> is_Some (item_id before_rule !! item))
  /\ (forall ty, step_choose_type s = Some ty -> is_Some (type_id before_rule !! ty)).
Proof.
  cbv zeta.
  apply (rule_references_declared rules_rule before_rule after_rule 0
           (Node (_other 0) EmptyString
              [leaf "step"; Node _step_take EmptyString [leaf "take"; leaf "h1"]])
           (Node _step_take EmptyString [leaf "take"; leaf "h1"])).
  - vm_compute. reflexivity.
  - vm_compute. lia.
  - reflexivity.
  - reflexivity.
Defined.

(** ** Reading the text *)

Lemma append_cons c (a b : string) : (String c a ++ b)%string = String c (a ++ b).
Proof. reflexivity. Qed.

Lemma append_nil (b : string) : (EmptyString ++ b)%string = b.
Proof. reflexivity. Qed.

Lemma has_char_app c a b : has_char c (a ++ b) = has_char c a || has_char c b.
Proof.
  induction a as [|x a IH]; simpl; [done|].
  rewrite IH. by rewrite orb_assoc.
Qed.

Lemma strip_comment_no_hash str : has_hash (strip_comment str) = false.
Proof.
  unfold has_hash. induction str as [|c r IH]; [done|]. cbn [strip_comment].
  destruct (Ascii.eqb c "#") eqn:Hc; [done|]. cbn [has_char]. by rewrite Hc, IH.
Qed.

(** Stripping the comment keeps the longest part of the line before the
    first [#]: what is kept holds no [#], and what is dropped is nothing
    or starts with one. *)
Theorem strip_comment_spec str :
  has_hash (strip_comment str) = false
  /\ exists rest,
       str = (strip_comment str ++ rest)%string
       /\ (rest = EmptyString \/ exists b, rest = String "#" b).
Proof.
  induction str as [|c r [IH1 (rest & IH2 & IH3)]]; simpl.
  - split; [done|]. exists EmptyString. split; [done|by left].
  - destruct (Ascii.eqb c "#") eqn:Hc.
    + apply Ascii.eqb_eq in Hc. subst c. split; [done|].
      exists (String "#" r). split; [done|]. right. by exists r.
    + split.
      * unfold has_hash in *. simpl. by rewrite Hc, IH1.
      * exists rest. split; [|done]. rewrite append_cons. by f_equal.
Qed.

Lemma append_nil_r (a : string) : (a ++ EmptyString)%string = a.
Proof. induction a as [|c a IH]; [done|]. rewrite append_cons. by f_equal. Qed.

Lemma append_assoc (a b c : string) : ((a ++ b) ++ c)%string = (a ++ (b ++ c))%string.
Proof. induction a as [|x a IH]; [done|]. rewrite !append_cons. by f_equal. Qed.

Lemma getlines_aux_app l rest : forall cur,
  has_newline l = false ->
  getlines_aux (l ++ rest) cur = getlines_aux rest (cur ++ l).
Proof.
  induction l as [|c l IH]; intros cur Hl.
  - by rewrite append_nil, append_nil_r.
  - unfold has_newline in Hl. cbn [has_char] in Hl. apply orb_false_iff in Hl as [Hc Hl].
    rewrite append_cons. cbn [getlines_aux]. rewrite Hc, IH by done.
    by rewrite append_assoc.
Qed.

Lemma getlines_aux_line l rest :
  has_newline l = false ->
  getlines_aux (l ++ nl ++ rest) EmptyString = l :: getlines_aux rest EmptyString.
Proof.
  intros Hl. rewrite getlines_aux_app by done. reflexivity.
Qed.

Lemma cat_cons s l : cat (s :: l) = (s ++ cat l)%string.
Proof.
  unfold cat. destruct l as [|x l]; [|done].
  cbn [String.concat]. by rewrite append_nil_r.
Qed.

Lemma lines_cons s l : lines (s :: l) = (s ++ nl ++ lines l)%string.
Proof.
  unfold lines. rewrite fmap_cons, cat_cons, cat_cons, cat_cons.
  change (cat []) with EmptyString. by rewrite append_nil_r, append_assoc.
Qed.

(** [getline] gives back the lines a text was put together from: the
    lines of a text whose every line ends in a newline, and one line more
    for what follows the last newline, if anything does. *)
Theorem getlines_lines ls last :
  Forall (fun l => has_newline l = false) ls -> has_newline last = false ->
  getlines (lines ls) = ls
  /\ (last <> EmptyString -> getlines (lines ls ++ last) = ls ++ [last]).
Proof.
  intros Hls Hlast. unfold getlines. induction Hls as [|l ls Hl _ [IH1 IH2]].
  - split; [done|]. intros Hne. change (lines []) with EmptyString.
    rewrite append_nil. rewrite <- (append_nil_r last) at 1.
    rewrite getlines_aux_app by done. rewrite append_nil. cbn [getlines_aux].
    destruct last; [done|]. reflexivity.
  - rewrite lines_cons. split.
    + rewrite getlines_aux_line by done. by rewrite IH1.
    + intros Hne. rewrite !append_assoc.
      rewrite getlines_aux_line by done. cbn [app]. by rewrite IH2.
Qed.

Lemma getlines_lines_witness :
  getlines (lines ["device 0 osd0"; "type 1 host"]) = ["device 0 osd0"; "type 1 host"]
  /\ ("# end" <> EmptyString ->
      getlines (lines ["device 0 osd0"; "type 1 host"] ++ "# end")
      = ["device 0 osd0"; "type 1 host"] ++ ["# end"]).
Proof.
  apply (getlines_lines ["device 0 osd0"; "type 1 host"] "# end").
  - repeat constructor.
  - reflexivity.
Defined.

Lemma read_line_Done rd str w :
  exists w',
    read_line rd str w
    = Done (mk_reader ((if strlen (big rd) =? 0 then big rd else (big rd ++ " ")%string)
                       ++ strip_comment str)
              (line rd + 1)
              (<[strlen (if strlen (big rd) =? 0 then big rd else (big rd ++ " ")%string)
                 := line rd]> (line_pos rd))
              (<[line rd := str]> (line_val rd))) w'.
Proof.
  unfold read_line, bind, get, when. destruct (1 <? verbose w); cbn; by eexists.
Qed.

Lemma read_lines_facts ls : forall rd w,
  exists rd' w',
    read_lines rd ls w = Done rd' w'
    /\ line rd' = line rd + Z.of_nat (length ls)
    /\ (forall k str, ls !! k = Some str ->
          line_val rd' !! (line rd + Z.of_nat k) = Some str)
    /\ (forall j, j < line rd -> line_val rd' !! j = line_val rd !! j)
    /\ has_hash (big rd') = has_hash (big rd).
Proof.
  induction ls as [|str ls IH]; intros rd w; cbn [read_lines].
  - exists rd, w. split; [done|]. cbn. split; [lia|]. split; [|done]. intros k s Hk.
    by rewrite lookup_nil in Hk.
  - destruct (read_line_Done rd str w) as (w1 & H1). unfold bind at 1. rewrite H1.
    match type of H1 with _ = Done ?r _ => set (rd1 := r) in * end.
    destruct (IH rd1 w1) as (rd' & w' & H & Hline & Hval & Hold & Hhash).
    exists rd', w'. split; [done|]. subst rd1. cbn [line line_val big] in *.
    split; [cbn [length]; lia|]. split; [|split].
    + intros [|k] s Hk; cbn in Hk.
      * injection Hk as ->. rewrite Z.add_0_r, Hold by lia. apply lookup_insert_eq.
      * rewrite <- (Hval k s Hk). f_equal. lia.
    + intros j Hj. rewrite Hold by lia. apply lookup_insert_ne. lia.
    + rewrite Hhash. unfold has_hash. rewrite has_char_app.
      pose proof (strip_comment_no_hash str) as Hs. unfold has_hash in Hs. rewrite Hs.
      rewrite orb_false_r. destruct (strlen (big rd) =? 0); [done|].
      rewrite has_char_app. cbn. by rewrite orb_false_r.
Qed.

(** The reading loop numbers the lines from [line] on, keeps every line
    as it was read (comment included) under its number in [line_val], and
    hands no [#] on to the parser. *)
Theorem read_lines_spec ls : forall rd w,
  exists rd' w',
    read_lines rd ls w = Done rd' w'
    /\ line rd' = line rd + Z.of_nat (length ls)
    /\ (forall k str, ls !! k = Some str ->
          line_val rd' !! (line rd + Z.of_nat k) = Some str)
    /\ (forall j, j < line rd -> line_val rd' !! j = line_val rd !! j)
    /\ has_hash (big rd') = has_hash (big rd).
Proof. apply read_lines_facts. Qed.

Lemma pick_best (better : Z -> Z -> bool) (le : Z -> Z -> Prop) (l : list (Z * Z)) :
  (forall a, le a a) -> (forall a b c, le a b -> le b c -> le a c) ->
  (forall a b, better a b = true -> le b a) ->
  (forall a b, better a b = false -> le a b) ->
  l <> [] ->
  exists kv,
    foldr (fun kv acc =>
             match acc with
             | Some kv' => if better (fst kv) (fst kv') then Some kv else acc
             | None => Some kv
             end) None l = Some kv
    /\ kv ∈ l /\ forall kv', kv' ∈ l -> le (fst kv') (fst kv).
Proof.
  intros Hrefl Htrans Htrue Hfalse. induction l as [|x l IH]; [done|]. intros _.
  cbn [foldr]. destruct l as [|y l].
  - cbn. exists x. split; [done|]. split; [by left|].
    intros kv' Hkv. apply list_elem_of_singleton in Hkv. by subst.
  - destruct (IH ltac:(done)) as (kv & -> & Hin & Hbest).
    destruct (better (fst x) (fst kv)) eqn:Hb.
    + exists x. split; [done|]. split; [by left|].
      intros kv' Hkv. apply elem_of_cons in Hkv as [->|Hkv]; [done|].
      eapply Htrans; [by apply Hbest|by apply Htrue].
    + exists kv. split; [done|]. split; [by right|].
      intros kv' Hkv. apply elem_of_cons in Hkv as [->|Hkv]; [by apply Hfalse|].
      by apply Hbest.
Qed.

Lemma line_at_facts (line_pos : gmap Z Z) cpos :
  line_pos <> ∅ ->
  exists k l,
    line_at line_pos cpos = Some (k, l)
    /\ line_pos !! k = Some l
    /\ (forall k', is_Some (line_pos !! k') -> k' <= cpos -> k' <= k <= cpos)
    /\ (forall k', is_Some (line_pos !! k') -> cpos < k -> k <= k').
Proof.
  intros Hne. unfold line_at. cbv zeta.
  assert (Hall : map_to_list line_pos <> []).
  { intros He. by apply map_to_list_empty_iff in He. }
  destruct (filter _ (map_to_list line_pos)) as [|b below] eqn:Hbelow.
  - destruct (pick_best Z.ltb (fun a b => b <= a) (map_to_list line_pos))
      as ([k l] & Hpick & Hin & Hbest); [lia|lia| | |done|].
    { intros a b Hab. apply Z.ltb_lt in Hab. lia. }
    { intros a b Hab. apply Z.ltb_ge in Hab. lia. }
    exists k, l. split; [done|]. apply elem_of_map_to_list in Hin. split; [done|].
    assert (Habove : forall k' l', line_pos !! k' = Some l' -> cpos < k').
    { intros k' l' Hk. apply elem_of_map_to_list in Hk.
      destruct (decide (k' <= cpos)) as [Hle|]; [|lia].
      assert (Hf : (k', l') ∈ filter (fun kv => bool_decide (fst kv <= cpos))
                                     (map_to_list line_pos)).
      { apply list_elem_of_filter. split; [|done]. by apply bool_decide_pack. }
      rewrite Hbelow in Hf. by apply elem_of_nil in Hf. }
    split.
    + intros k' [l' Hk] Hle. apply Habove in Hk. lia.
    + intros k' [l' Hk] _. apply elem_of_map_to_list in Hk.
      apply (Hbest (k', l') Hk).
  - rewrite <- Hbelow.
    destruct (pick_best Z.gtb Z.le (filter (fun kv => bool_decide (fst kv <= cpos))
                                      (map_to_list line_pos)))
      as ([k l] & Hpick & Hin & Hbest); [lia|lia| | |by rewrite Hbelow|].
    { intros a b' Hab. apply Z.gtb_lt in Hab. lia. }
    { intros a b' Hab. rewrite Z.gtb_ltb in Hab. apply Z.ltb_ge in Hab. lia. }
    exists k, l. split; [done|].
    apply list_elem_of_filter in Hin as [Hle Hin]. apply bool_decide_unpack in Hle.
    cbn in Hle. apply elem_of_map_to_list in Hin. split; [done|]. split.
    + intros k' [l' Hk] Hk'. split; [|done].
      apply (Hbest (k', l')). apply list_elem_of_filter. split.
      * by apply bool_decide_pack.
      * by apply elem_of_map_to_list.
    + intros k' _ Hlt. lia.
Qed.

(** The line an offset of the parser's text belongs to: as long as one
    line was read, [line_at] finds an entry of [line_pos]; it is the one
    with the largest offset not above [cpos], or, when every offset lies
    above [cpos], the one with the smallest offset. *)
Theorem line_at_spec (line_pos : gmap Z Z) cpos :
  line_pos <> ∅ ->
  exists k l,
    line_at line_pos cpos = Some (k, l)
    /\ line_pos !! k = Some l
    /\ (forall k', is_Some (line_pos !! k') -> k' <= cpos -> k' <= k <= cpos)
    /\ (forall k', is_Some (line_pos !! k') -> cpos < k -> k <= k').
Proof. apply line_at_facts. Qed.

(** ** What is printed without [-v] *)

Lemma ok_silent {A} (m : M A) : ok keeps_cout keeps_cout m -> silent m.
Proof.
  intros H w _. specialize (H w). destruct (m w); try done. by destruct H.
Qed.

Lemma silent_ret {A} (a : A) : silent (ret a).
Proof. by intros w _. Qed.

Lemma silent_bind {A B} (m : M A) (k : A -> M B) :
  silent m -> (forall a, silent (k a)) -> silent (bind m k).
Proof.
  intros Hm Hk w Hw. unfold bind. specialize (Hm w Hw).
  destruct (m w) as [a w1 | s w1 | w1 |]; try done.
  destruct Hm as [Hv Hc]. specialize (Hk a w1 ltac:(congruence)).
  destruct (k a w1) as [b w2 | s w2 | w2 |]; try done;
    destruct Hk; split; congruence.
Qed.

Lemma silent_get_bind {B} (k : world -> M B) :
  (forall w0, verbose w0 = 0 -> silent (k w0)) -> silent (bind get k).
Proof. intros Hk w Hw. unfold bind, get. by apply Hk. Qed.

Lemma silent_modify f :
  (forall w, keeps_cout w (f w)) -> silent (modify f).
Proof. intros H w _. apply H. Qed.

Lemma silent_when b m : silent m -> silent (when b m).
Proof. destruct b; [done|]. intros _. apply silent_ret. Qed.

Lemma silent_error {A} msg : silent (put_cerr msg ;; @exit A 1).
Proof. by intros w _. Qed.

Ltac silent_step :=
  lazymatch goal with
  | |- silent (ret _) => apply silent_ret
  | |- silent abort => by intros ? ?
  | |- silent undefined => by intros ? ?
  | |- silent (defined ?o) => destruct o; by intros ? ?
  | |- silent (child _ _) => unfold child
  | |- silent (on_crush _) => by apply silent_modify
  | |- silent (bind (put_cerr _) (fun _ => exit 1)) => apply silent_error
  | |- silent (bind (put_cerr _) (fun _ => abort)) => by intros ? ?
  | |- silent (bind (put_cerr _) (fun _ => ret _)) => by intros ? ?
  | H : verbose ?w = 0 |- silent (when (negb (verbose ?w =? 0)) _) =>
      rewrite H; apply silent_ret
  | H : verbose ?w = 0 |- silent (when (1 <? verbose ?w) _) =>
      rewrite H; apply silent_ret
  | H : verbose ?w = 0 |- silent (when (2 <? verbose ?w) _) =>
      rewrite H; apply silent_ret
  | |- silent (when _ _) => apply silent_when
  | |- silent (modify _) => by apply silent_modify
  | |- silent (bind get _) => apply silent_get_bind; intros ? ?
  | |- silent (bind _ _) => apply silent_bind; [ | intros ]
  | |- silent (if ?b then _ else _) => destruct b
  | |- silent (match ?x with _ => _ end) => destruct x
  end.

Ltac keeps_side :=
  unfold keeps_cout; intros; cbn; first [ done | intuition congruence ].

Lemma silent_parse_device i : silent (parse_device i).
Proof. unfold parse_device, device_offload_value. repeat silent_step. Qed.

Lemma silent_parse_bucket_type i : silent (parse_bucket_type i).
Proof. unfold parse_bucket_type. repeat silent_step. Qed.

Lemma silent_parse_bucket i : silent (parse_bucket i).
Proof.
  unfold parse_bucket. repeat silent_step.
  - apply ok_silent. apply ok_bucket_head_loop with (Msg := fun _ => True); keeps_side.
  - apply ok_silent. apply ok_bucket_body_loop with (Msg := fun _ => True); keeps_side.
Qed.

Lemma silent_parse_rule i : silent (parse_rule i).
Proof. apply ok_silent. apply ok_parse_rule with (Msg := fun _ => True); keeps_side. Qed.

Lemma silent_parse_decls ps : silent (parse_decls ps).
Proof.
  induction ps as [|p rest IH]; cbn [parse_decls]; [apply silent_ret|].
  apply silent_bind; [|done]. unfold parse_decl.
  destruct (value_id p); try (by intros ? ?);
    auto using silent_parse_device, silent_parse_bucket_type, silent_parse_bucket,
      silent_parse_rule.
Qed.

Lemma silent_parse_crush i : silent (parse_crush i).
Proof.
  unfold parse_crush. repeat silent_step.
  - apply ok_silent. apply ok_find_used_bucket_ids; keeps_side.
  - apply silent_parse_decls.
Qed.

Lemma silent_read_lines lines : forall rd, silent (read_lines rd lines).
Proof.
  induction lines as [|l rest IH]; intros rd; cbn [read_lines]; [apply silent_ret|].
  apply silent_bind; [|done]. unfold read_line. repeat silent_step.
Qed.

(** Without [-v] the compiler prints nothing on [cout]: started with
    [verbose] at 0, [compile_crush_file] returns or leaves with [cout] and
    [verbose] as they were, whatever the file holds. *)
Theorem quiet_without_verbose p infn w :
  verbose w = 0 ->
  match compile_crush_file p infn w with
  | Done _ w' | Exit _ w' => verbose w' = 0 /\ cout w' = cout w
  | _ => True
  end.
Proof.
  intros Hw.
  assert (Hs : silent (compile_crush_file p infn)).
  { unfold compile_crush_file. repeat silent_step.
    - apply silent_read_lines.
    - apply silent_parse_crush. }
  specialize (Hs w Hw). destruct (compile_crush_file p infn w); try done.
  all: destruct Hs; split; congruence.
Qed.

Lemma quiet_without_verbose_witness :
  match compile_crush_file Grammar.ast_parse "weights.txt" (start sample_fs) with
  | Done _ w' | Exit _ w' => verbose w' = 0 /\ cout w' = cout (start sample_fs)
  | _ => True
  end.
Proof. apply quiet_without_verbose. reflexivity. Defined.

(** ** Files that are missing, files that are written *)

Lemma main_run E me args w o w1 :
  parse_args me args no_options w = Done o w1 ->
  main E me args w = after_args E me o w1.
Proof. intros Hp. rewrite main_after_args. unfold bind at 1. by rewrite Hp. Qed.

(** Compiling a file that is not there: the process leaves with status 1
    after [input file <name> not found] on [cerr], having printed nothing
    on [cout] and written no file. *)
Theorem main_compile_missing_input E me args w o w1 c :
  parse_args me args no_options w = Done o w1 ->
  cinfn o = Some c -> dinfn o = None ->
  files (fs w1) !! c = None ->
  exists w',
    main E me args w = Exit 1 w'
    /\ cerr w' = (cerr w1 ++ [OStr "input file "; OStr c; OStr " not found"; endl])
    /\ cout w' = cout w1 /\ fs w' = fs w1.
Proof.
  intros Hp Hc Hd Hf. rewrite (main_run _ _ _ _ _ _ Hp). unfold after_args.
  rewrite Hc, Hd. cbn. unfold bind, compile, compile_crush_file, modify, bind, get.
  cbn. rewrite Hf. cbn. by eexists.
Qed.

Lemma main_compile_missing_input_witness :
  exists w',
    main sample_externals "crushtool" ["-c"; "nothing.txt"] (start sample_fs) = Exit 1 w'
    /\ cerr w' = ([] ++ [OStr "input file "; OStr "nothing.txt"; OStr " not found"; endl])
    /\ cout w' = [] /\ fs w' = sample_fs.
Proof.
  apply (main_compile_missing_input sample_externals "crushtool" ["-c"; "nothing.txt"]
           (start sample_fs) (mk_opts (Some "nothing.txt") None None false)
           (start sample_fs) "nothing.txt").
  - reflexivity.
  - reflexivity.
  - reflexivity.
  - vm_compute. reflexivity.
Defined.

(** Decompiling a file that is not there: the process leaves with status
    1 after [<me>: error reading '<name>': No such file or directory] on
    [cerr]; nothing is decoded, printed or written. *)
Theorem main_decompile_missing_input E me args w o w1 d :
  parse_args me args no_options w = Done o w1 ->
  dinfn o = Some d -> cinfn o = None ->
  files (fs w1) !! d = None ->
  main E me args w
  = Exit 1 (set_cerr (cerr w1 ++ [OStr me; OStr ": error reading '"; OStr d; OStr "': ";
                                  OStr "No such file or directory"; endl]) w1).
Proof.
  intros Hp Hd Hc Hf. rewrite (main_run _ _ _ _ _ _ Hp). unfold after_args.
  rewrite Hc, Hd. cbn. unfold bind, decompile, get. cbn -[decompile_crush].
  by rewrite Hf.
Qed.

Lemma main_decompile_missing_input_witness :
  main sample_externals "crushtool" ["-d"; "nothing.bin"] (start sample_fs)
  = Exit 1 (set_cerr ([] ++ [OStr "crushtool"; OStr ": error reading '"; OStr "nothing.bin";
                             OStr "': "; OStr "No such file or directory"; endl])
              (start sample_fs)).
Proof.
  apply (main_decompile_missing_input sample_externals "crushtool" ["-d"; "nothing.bin"]
           (start sample_fs) (mk_opts None (Some "nothing.bin") None false)
           (start sample_fs) "nothing.bin").
  - reflexivity.
  - reflexivity.
  - reflexivity.
  - vm_compute. reflexivity.
Defined.

(** With [-c] and [-o], the output file is written whenever
    [compile_crush_file] returns a value that is not negative, and the
    process returns 0: the file then holds the encoding of the finalized
    map. The value 1 that reports a parse error is such a value. *)
Theorem main_writes_output E me args w o w1 c f r w2 :
  parse_args me args no_options w = Done o w1 ->
  cinfn o = Some c -> dinfn o = None -> outfn o = Some f ->
  compile_crush_file (ast_parse E) c (set_crush create w1) = Done r w2 ->
  0 <= r -> f ∉ unwritable (fs w2) ->
  exists w',
    main E me args w = Done 0 w'
    /\ files (fs w') = <[f := encode E (finalize (crush w2))]> (files (fs w2))
    /\ cerr w' = cerr w2.
Proof.
  intros Hp Hc Hd Ho Hr Hpos Hf. rewrite (main_run _ _ _ _ _ _ Hp). unfold after_args.
  rewrite Hc, Hd, Ho. cbn -[compile].
  unfold bind, compile, modify, on_crush, get. cbn -[compile_crush_file finalize].
  unfold bind, modify. rewrite Hr.
  assert (Hneg : (r <? 0) = false) by (apply Z.ltb_ge; lia).
  rewrite Hneg. cbn -[finalize]. rewrite bool_decide_eq_false_2 by done. cbn -[finalize].
  destruct (verbose w2 =? 0); cbn -[finalize]; by eexists.
Qed.

Lemma main_writes_output_witness :
  exists w',
    main sample_externals "crushtool" ["-c"; "broken.txt"; "-o"; "out.bin"] (start sample_fs)
    = Done 0 w'
    /\ files (fs w')
       = <["out.bin" := encode sample_externals
                          (finalize (crush (world_of (compile_crush_file Grammar.ast_parse
                                                        "broken.txt" (start sample_fs))
                                              (start sample_fs))))]>
           (files sample_fs)
    /\ cerr w' = [OStr "broken.txt"; OStr ":"; OInt 2; OStr " error: parse error at '";
                  OStr "device one osd1"; OStr "'"; endl].
Proof.
  apply (main_writes_output sample_externals "crushtool"
           ["-c"; "broken.txt"; "-o"; "out.bin"] (start sample_fs)
           (mk_opts (Some "broken.txt") None (Some "out.bin") false) (start sample_fs)
           "broken.txt" "out.bin" 1
           (world_of (compile_crush_file Grammar.ast_parse "broken.txt" (start sample_fs))
              (start sample_fs))).
  - reflexivity.
  - reflexivity.
  - reflexivity.
  - reflexivity.
  - vm_compute. reflexivity.
  - lia.
  - vm_compute. set_solver.
Defined.



(** ** The decompiler *)

(** The type ids from [i] on. *)
Definition types_from (crush : CrushWrapper) (i : Z) : gset Z :=
  filter (fun k => i <= k) (dom (type_map crush)).

Lemma types_from_step crush i :
  types_from crush i
  = (if decide (is_Some (type_map crush !! i)) then {[i]} else ∅)
      ∪ types_from crush (i + 1)
  /\ i ∉ types_from crush (i + 1).
Proof.
  unfold types_from. split.
  - apply set_eq. intros k. rewrite elem_of_union, !elem_of_filter, elem_of_dom.
    destruct (decide (is_Some (type_map crush !! i))) as [Hs|Hn].
    + rewrite elem_of_singleton. split; [intros [? ?]|intros [->|[? ?]]].
      * destruct (decide (k = i)); [by left|right; split; [lia|done]].
      * split; [lia|done].
      * split; [lia|done].
    + split; [intros [? ?]|intros [?|[? ?]]].
      * right. split; [|done]. destruct (decide (k = i)) as [->|]; [done|lia].
      * set_solver.
      * split; [lia|done].
  - intros Hin. apply elem_of_filter in Hin as [? _]. lia.
Qed.

Lemma decompile_types_ends crush fuel : forall i n,
  n = Z.of_nat (size (types_from crush i)) ->
  (forall k, k ∈ types_from crush i -> k < i + Z.of_nat fuel) ->
  is_Some (decompile_types crush fuel i n).
Proof.
  induction fuel as [|fuel IH]; intros i n Hn Hb.
  - cbn [decompile_types]. destruct (n =? 0) eqn:H0; [done|]. exfalso.
    apply Z.eqb_neq in H0.
    destruct (set_choose_or_empty (types_from crush i)) as [[k Hk]|He].
    + pose proof Hk as Hk'. apply Hb in Hk. apply elem_of_filter in Hk' as [? _]. lia.
    + apply leibniz_equiv in He. rewrite He, size_empty in Hn. lia.
  - cbn [decompile_types]. destruct (n =? 0) eqn:H0; [done|].
    destruct (types_from_step crush i) as [Hstep Hnot].
    unfold get_type_name.
    destruct (type_map crush !! i) as [name|] eqn:Hi.
    + rewrite decide_True in Hstep by done.
      destruct (IH (i + 1) (n - 1)) as [rest ->]; [| |done].
      * rewrite Hn, Hstep, size_union, size_singleton by set_solver. lia.
      * intros k Hk. specialize (Hb k). rewrite Hstep in Hb.
        specialize (Hb ltac:(set_solver)). lia.
    + rewrite decide_False in Hstep by (by intros [? ?]).
      destruct (IH (i + 1) n) as [rest ->]; [| |done].
      * rewrite Hn, Hstep. f_equal. f_equal. set_solver.
      * intros k Hk. specialize (Hb k). rewrite Hstep in Hb.
        specialize (Hb ltac:(set_solver)). lia.
Qed.

Lemma decompile_types_loops crush fuel : forall i n,
  Z.of_nat (size (types_from crush i)) < n ->
  decompile_types crush fuel i n = None.
Proof.
  induction fuel as [|fuel IH]; intros i n Hn; cbn [decompile_types].
  - destruct (n =? 0) eqn:H0; [|done]. apply Z.eqb_eq in H0. lia.
  - destruct (n =? 0) eqn:H0; [apply Z.eqb_eq in H0; lia|].
    destruct (types_from_step crush i) as [Hstep Hnot].
    unfold get_type_name.
    destruct (type_map crush !! i) as [name|] eqn:Hi.
    + rewrite decide_True in Hstep by done.
      rewrite (IH (i + 1) (n - 1)); [done|].
      rewrite Hstep, size_union, size_singleton in Hn by set_solver. lia.
    + rewrite decide_False in Hstep by (by intros [? ?]).
      rewrite (IH (i + 1) n); [done|].
      rewrite Hstep in Hn. replace (∅ ∪ types_from crush (i + 1))
        with (types_from crush (i + 1)) in Hn by set_solver. done.
Qed.

Lemma foldr_max_bound (l : list Z) k : k ∈ l -> k <= foldr Z.max 0 l.
Proof.
  induction l as [|x l IH]; intros Hk; [by apply elem_of_nil in Hk|].
  cbn. apply elem_of_cons in Hk as [->|Hk]; [lia|]. specialize (IH Hk). lia.
Qed.

(** The loop over the type names of [decompile_crush] comes to its end
    exactly when no type has a negative id: it counts the names it meets
    from id 0 upwards until it has met as many as the map holds, and a
    name below 0 is never met. *)
Theorem decompile_crush_ends crush :
  is_Some (decompile_crush crush)
  <-> forall k, is_Some (type_map crush !! k) -> 0 <= k.
Proof.
  unfold decompile_crush, get_num_type_names. split.
  - intros Hs k Hk. destruct (Z_le_gt_dec 0 k) as [|Hneg]; [done|]. exfalso.
    rewrite decompile_types_loops in Hs; [by destruct Hs|].
    rewrite <- size_dom.
    assert (Hsub : types_from crush 0 ⊆ dom (type_map crush) ∖ {[k]}).
    { intros j Hj. apply elem_of_filter in Hj as [? ?]. set_solver by lia. }
    apply subseteq_size in Hsub.
    rewrite size_difference in Hsub by (apply singleton_subseteq_l; by apply elem_of_dom).
    rewrite size_singleton in Hsub.
    assert (size (dom (type_map crush)) <> 0%nat).
    { apply size_non_empty_iff. intros He. apply elem_of_dom in Hk. set_solver. }
    lia.
  - intros Hpos.
    destruct (decompile_types_ends crush (type_id_bound crush) 0
                (Z.of_nat (size (type_map crush)))) as [types ->]; [| |done].
    + rewrite <- size_dom. f_equal. f_equal. unfold types_from.
      apply set_eq. intros k. rewrite elem_of_filter, elem_of_dom. split; [|tauto].
      intros Hk. split; [by apply Hpos|done].
    + intros k Hk. apply elem_of_filter in Hk as [Hk0 Hk]. apply elem_of_dom in Hk as [v Hk].
      unfold type_id_bound.
      assert (k <= foldr Z.max 0 ((map_to_list (type_map crush)).*1)).
      { apply foldr_max_bound. apply list_elem_of_fmap. exists (k, v). split; [done|].
        by apply elem_of_map_to_list. }
      lia.
Qed.

(** ** Weights and ids that are not checked *)



Lemma to_int_range z : - 2 ^ 31 <= to_int z < 2 ^ 31.
Proof. unfold to_int. pose proof (Z.mod_pos_bound (z + 2 ^ 31) (2 ^ 32)). lia. Qed.

(** A device line without an offload clause is accepted as soon as its
    name is new; its id is not looked up anywhere. The name takes the
    entry of the id in [id_item] and in the map, whoever held it, and
    [max_devices] becomes the larger of what it was and [id + 1]. The id is
    taken below the largest [int], so that [id + 1] is an [int]. *)
Theorem device_id_not_checked i w kw c1 c2 :
  children i = [kw; c1; c2] ->
  item_id w !! string_node c2 = None ->
  int_node c1 < 2 ^ 31 - 1 ->
  exists w',
    parse_device i w = Done tt w'
    /\ item_id w' = <[string_node c2 := int_node c1]> (item_id w)
    /\ id_item w' = <[int_node c1 := string_node c2]> (id_item w)
    /\ name_map (crush w') = <[int_node c1 := string_node c2]> (name_map (crush w))
    /\ max_devices (crush w') = Z.max (max_devices (crush w)) (int_node c1 + 1)
    /\ device_offload w' = device_offload w /\ cerr w' = cerr w.
Proof.
  intros Hch Hfresh Hfit.
  unfold parse_device, child, defined, bind, when, on_crush, modify, get, put_cout, ret, count.
  rewrite Hch. change (4 <=? Z.of_nat (length [kw; c1; c2])) with false.
  cbn -[Z.max to_int Z.pow].
  rewrite Hfresh. rewrite bool_decide_eq_false_2 by (by intros [? ?]).
  pose proof (to_int_range (strtol (string_node c1))) as Hr. fold (int_node c1) in Hr.
  assert (Hsmall : to_int (int_node c1 + 1) = int_node c1 + 1).
  { unfold to_int. rewrite Z.mod_small; lia. }
  destruct (verbose w =? 0) eqn:Hverb; cbn -[Z.max to_int Z.pow]; rewrite ?Hverb;
    cbn -[Z.max to_int Z.pow].
  all: destruct (max_devices (crush w) <=? int_node c1) eqn:Hmax;
    [apply Z.leb_le in Hmax | apply Z.leb_gt in Hmax]; cbn -[Z.max to_int Z.pow];
    eexists; (split; [reflexivity|]); cbn -[Z.max to_int Z.pow]; repeat split;
    rewrite ?Hsmall; lia.
Qed.

Lemma device_id_not_checked_witness :
  let w := set_id_item {[0 := "osd0"]} (set_item_id {["osd0" := 0]} (start (mk_fs ∅ ∅))) in
  exists w',
    parse_device (Node _device EmptyString [leaf "device"; leaf "0"; leaf "osd1"]) w
    = Done tt w'
    /\ item_id w' = <["osd1" := 0]> (item_id w)
    /\ id_item w' = <[0 := "osd1"]> (id_item w)
    /\ name_map (crush w') = <[0 := "osd1"]> (name_map (crush w))
    /\ max_devices (crush w') = Z.max (max_devices (crush w)) (0 + 1)
    /\ device_offload w' = device_offload w /\ cerr w' = cerr w.
Proof.
  cbv zeta.
  apply (device_id_not_checked
           (Node _device EmptyString [leaf "device"; leaf "0"; leaf "osd1"])
           (set_id_item {[0 := "osd0"]} (set_item_id {["osd0" := 0]} (start (mk_fs ∅ ∅))))
           (leaf "device") (leaf "0") (leaf "osd1")).
  - reflexivity.
  - vm_compute. reflexivity.
  - vm_compute. reflexivity.
Defined.

Lemma line_at_spec_witness :
  exists k l,
    line_at {[0 := 1; 14 := 2]} 20 = Some (k, l)
    /\ ({[0 := 1; 14 := 2]} : gmap Z Z) !! k = Some l
    /\ (forall k', is_Some (({[0 := 1; 14 := 2]} : gmap Z Z) !! k') -> k' <= 20 ->
        k' <= k <= 20)
    /\ (forall k', is_Some (({[0 := 1; 14 := 2]} : gmap Z Z) !! k') -> 20 < k -> k <= k').
Proof.
  apply (line_at_spec {[0 := 1; 14 := 2]} 20).
  apply insert_non_empty.
Defined.

(** ** The line a parse error is reported at *)

Lemma read_lines_line_pos ls : forall rd w rd' w',
  read_lines rd ls w = Done rd' w' ->
  line rd' = line rd + Z.of_nat (length ls)
  /\ (forall k str, ls !! k = Some str -> line_val rd' !! (line rd + Z.of_nat k) = Some str)
  /\ (forall k l, line_pos rd' !! k = Some l ->
        line_pos rd !! k = Some l \/ line rd <= l < line rd + Z.of_nat (length ls)).
Proof.
  intros rd w rd' w' H.
  destruct (read_lines_facts ls rd w) as (rd2 & w2 & H2 & Hline & Hval & _ & _).
  rewrite H in H2. injection H2 as <- <-. split; [done|]. split; [done|].
  clear Hline Hval. revert rd w H.
  induction ls as [|str ls IH]; intros rd w H k l Hk; cbn [read_lines] in H.
  - injection H as <- _. by left.
  - destruct (read_line_Done rd str w) as (w1 & H1). unfold bind at 1 in H. rewrite H1 in H.
    apply IH with (k := k) (l := l) in H; [|done]. cbn [line line_pos length] in H.
    cbn [length]. destruct H as [H|H]; [|right; lia].
    destruct (decide (strlen (if strlen (big rd) =? 0 then big rd
                              else (big rd ++ " ")%string) = k)) as [<-|Hne].
    + rewrite lookup_insert_eq in H. injection H as <-. right. lia.
    + rewrite lookup_insert_ne in H by done. by left.
Qed.

Lemma line_at_Some (m : gmap Z Z) cpos k l :
  line_at m cpos = Some (k, l) -> m !! k = Some l.
Proof.
  intros H. destruct (decide (m = ∅)) as [->|Hne].
  - unfold line_at in H. rewrite map_to_list_empty in H. cbn in H. discriminate.
  - destruct (line_at_facts m cpos Hne) as (k' & l' & H' & Hl & _).
    rewrite H in H'. by injection H' as <- <-.
Qed.

Lemma substr_Some s : forall n r,
  substr s n = Some r -> exists skipped, s = (skipped ++ r)%string.
Proof.
  induction s as [|c s IH]; intros [|n] r H; cbn [substr] in H.
  - injection H as <-. by exists EmptyString.
  - discriminate.
  - injection H as <-. by exists EmptyString.
  - apply IH in H as [sk ->]. by exists (String c sk).
Qed.

(** A parse error names a line of the file: when [compile_crush_file]
    returns 1, the message on [cerr] carries the number of one of the
    lines read, counted from 1, and quotes the end of that line as it is in
    the file, comment included. *)
Theorem parse_error_line p infn w w' content :
  files (fs w) !! infn = Some content ->
  compile_crush_file p infn w = Done 1 w' ->
  exists line str skipped rest,
    cerr w' = (cerr w ++ [OStr infn; OStr ":"; OInt line; OStr " error: parse error at '";
                          OStr rest; OStr "'"; endl])
    /\ 1 <= line <= Z.of_nat (length (getlines content))
    /\ getlines content !! Z.to_nat (line - 1) = Some str
    /\ str = (skipped ++ rest)%string.
Proof.
  intros Hf H. unfold compile_crush_file, bind at 1, get in H. rewrite Hf in H.
  apply bind_Done in H. destruct H as (rd & w1 & Hrd & H).
  pose proof (quiet_ok_read_lines (getlines content) (mk_reader EmptyString 1 ∅ ∅) w) as Hq.
  rewrite Hrd in Hq. unfold quiet in Hq.
  apply read_lines_line_pos in Hrd as (_ & Hval & Hpos). cbn [line line_pos] in Hval, Hpos.
  apply bind_Done in H. destruct H as ([] & w2 & Hv & H).
  assert (Hw2 : cerr w2 = cerr w1).
  { destruct (2 <? verbose w); cbn in Hv; by injection Hv as <-. }
  destruct (negb (full (p (big rd)))).
  2:{ destruct (trees (p (big rd))); [discriminate|].
      apply bind_Done in H. destruct H as (? & ? & _ & H). discriminate. }
  destruct (line_at (line_pos rd) (stop (p (big rd)))) as [[first l]|] eqn:Hat; [|discriminate].
  destruct (stop (p (big rd)) - first <? 0); [discriminate|].
  destruct (substr _ _) as [rest|] eqn:Hsub; [|discriminate].
  cbn in H. injection H as <-.
  apply line_at_Some in Hat. apply Hpos in Hat as [Hat|Hrange]; [done|].
  assert (Hk : exists str, getlines content !! Z.to_nat (l - 1) = Some str).
  { apply lookup_lt_is_Some_2. lia. }
  destruct Hk as (str & Hk). pose proof (Hval _ _ Hk) as Hv'.
  rewrite Z2Nat.id in Hv' by lia. replace (1 + (l - 1)) with l in Hv' by lia.
  rewrite Hv' in Hsub. cbn [default from_option] in Hsub.
  apply substr_Some in Hsub as [skipped Hs].
  exists l, str, skipped, rest. cbn. rewrite Hw2, Hq.
  split; [done|]. split; [lia|]. done.
Qed.

Lemma parse_error_line_witness :
  exists line str skipped rest,
    cerr (world_of (compile_crush_file Grammar.ast_parse "broken.txt" (start sample_fs))
            (start sample_fs))
    = (cerr (start sample_fs)
         ++ [OStr "broken.txt"; OStr ":"; OInt line; OStr " error: parse error at '";
             OStr rest; OStr "'"; endl])
    /\ 1 <= line <= Z.of_nat (length (getlines broken_txt))
    /\ getlines broken_txt !! Z.to_nat (line - 1) = Some str
    /\ str = (skipped ++ rest)%string.
Proof.
  apply (parse_error_line Grammar.ast_parse "broken.txt" (start sample_fs)
           (world_of (compile_crush_file Grammar.ast_parse "broken.txt" (start sample_fs))
              (start sample_fs)) broken_txt).
  - vm_compute. reflexivity.
  - vm_compute. reflexivity.
Defined.

(** ** Offloads on their way into the map *)

Lemma copy_offloads_fold (dev : gmap Z Z) (l : list Z) i : forall c,
  let c' := foldl (fun c i => match dev !! i with
                              | Some v => set_offload i v c
                              | None => c
                              end) c l in
  offloads c' !! i
  = match (if bool_decide (i ∈ l) then dev !! i else None) with
    | Some v => Some v
    | None => offloads c !! i
    end
  /\ max_devices c' = max_devices c /\ buckets c' = buckets c /\ rules c' = rules c
  /\ name_map c' = name_map c /\ type_map c' = type_map c.
Proof.
  induction l as [|x l IH]; intros c; cbn zeta; cbn [foldl].
  - rewrite bool_decide_eq_false_2 by (by intros ?%elem_of_nil). done.
  - destruct (IH (match dev !! x with
                  | Some v => set_offload x v c
                  | None => c
                  end)) as (Hi & Hrest). cbn zeta in Hi, Hrest.
    rewrite Hi. split.
    + destruct (decide (i = x)) as [->|Hne].
      * rewrite (bool_decide_eq_true_2 (x ∈ x :: l)) by (by left).
        destruct (bool_decide (x ∈ l)); destruct (dev !! x) as [v|] eqn:Hx; try done.
        cbn. apply lookup_insert_eq.
      * assert (Hiff : bool_decide (i ∈ x :: l) = bool_decide (i ∈ l)).
        { apply bool_decide_ext. rewrite elem_of_cons. tauto. }
        rewrite Hiff. destruct (if bool_decide (i ∈ l) then dev !! i else None); [done|].
        destruct (dev !! x); [|done]. cbn. by apply lookup_insert_ne.
    + destruct Hrest as (-> & -> & -> & -> & ->). by destruct (dev !! x).
Qed.

(** The loop that ends [parse_crush] hands every offload recorded for a
    device id from 0 up to [max_devices - 1] to the map; the entries of
    the other ids and the rest of the map are left as they are. *)
Theorem copy_offloads_spec w i :
  offloads (copy_offloads w) !! i
  = (if bool_decide (0 <= i < max_devices (crush w))
     then match device_offload w !! i with
          | Some v => Some v
          | None => offloads (crush w) !! i
          end
     else offloads (crush w) !! i)
  /\ max_devices (copy_offloads w) = max_devices (crush w)
  /\ buckets (copy_offloads w) = buckets (crush w)
  /\ rules (copy_offloads w) = rules (crush w)
  /\ name_map (copy_offloads w) = name_map (crush w)
  /\ type_map (copy_offloads w) = type_map (crush w).
Proof.
  unfold copy_offloads.
  destruct (copy_offloads_fold (device_offload w)
              (Z.of_nat <$> seq 0 (Z.to_nat (max_devices (crush w)))) i (crush w))
    as (Hi & Hrest). cbn zeta in Hi, Hrest.
  split; [|done]. rewrite Hi.
  assert (Hiff : bool_decide (i ∈ Z.of_nat <$> seq 0 (Z.to_nat (max_devices (crush w))))
                 = bool_decide (0 <= i < max_devices (crush w))).
  { apply bool_decide_ext. rewrite list_elem_of_fmap. split.
    - intros (n & -> & Hn). apply elem_of_seq in Hn. lia.
    - intros Hr. exists (Z.to_nat i). split; [lia|]. apply elem_of_seq. lia. }
  rewrite Hiff. by destruct (bool_decide (0 <= i < max_devices (crush w))).
Qed.

(** ** Reading the arguments from left to right *)

(** Once a first part of the arguments has been read to its end, the rest
    is read as a vector of its own, from the options and the verbosity
    reached so far: a later [-c], [-d] or [-o] replaces an earlier one. *)
Theorem parse_args_app me a1 a2 : forall o w o1 w1,
  parse_args me a1 o w = Done o1 w1 ->
  parse_args me (a1 ++ a2) o w = parse_args me a2 o1 w1.
Proof.
  remember (length a1) as n eqn:Hn.
  revert a1 Hn. induction n as [n IH] using lt_wf_ind. intros a1 Hn o w o1 w1 H.
  destruct a1 as [|a rest]; cbn [parse_args app] in *.
  - by injection H as <- <-.
  - destruct (a == "--clobber").
    { eapply (IH (length rest)); [subst n; cbn; lia|reflexivity|done]. }
    destruct (a == "-d").
    { destruct rest as [|f rest']; [discriminate|]. cbn [app].
      eapply (IH (length rest')); [subst n; cbn; lia|reflexivity|done]. }
    destruct (a == "-o").
    { destruct rest as [|f rest']; [discriminate|]. cbn [app].
      eapply (IH (length rest')); [subst n; cbn; lia|reflexivity|done]. }
    destruct (a == "-c").
    { destruct rest as [|f rest']; [discriminate|]. cbn [app].
      eapply (IH (length rest')); [subst n; cbn; lia|reflexivity|done]. }
    destruct (a == "-v"); [|discriminate].
    unfold bind, modify in *.
    eapply (IH (length rest)); [subst n; cbn; lia|reflexivity|done].
Qed.

Lemma parse_args_app_witness :
  parse_args "crushtool" (["-v"; "-c"; "a.txt"] ++ ["-c"; "b.txt"]) no_options
    (start sample_fs)
  = parse_args "crushtool" ["-c"; "b.txt"] (mk_opts (Some "a.txt") None None false)
      (set_verbose 1 (start sample_fs)).
Proof.
  apply (parse_args_app "crushtool" ["-v"; "-c"; "a.txt"] ["-c"; "b.txt"]).
  reflexivity.
Defined.

(** * The claims that hold of whole runs *)

(** ** Compiling what the decompiler has written *)

(** C1 on the code. The sample holds a bucket with an item of weight 0 and
    an item of weight 1.000, values that three decimals hold. It compiles;
    the decompiler leaves the item of weight 0 out and gives the other one
    its position, [pos 1]; the compiler, reading that text, counts one
    item, raises [size] to the largest position, 1, and then refuses
    position 1 as not below [size]: the process ends with status 1 and
    there is no second binary. *)
Example decompiled_text_is_refused :
  exists m w',
    compiled_map Grammar.ast_parse (one_file "zero.txt" zero_txt) "zero.txt" = Some m
    /\ decompile_crush m = Some zero_decompiled
    /\ compile_crush_file Grammar.ast_parse "decompiled.txt"
         (start (one_file "decompiled.txt" zero_decompiled)) = Exit 1 w'
    /\ cerr w' = [OStr "item '"; OStr "osd1"; OStr "' in bucket '"; OStr "h1";
                  OStr "' has pos "; OInt 1; OStr " >= size "; OInt 1; endl]
    /\ recompiled_map Grammar.ast_parse (one_file "zero.txt" zero_txt) "zero.txt" = None.
Proof.
  eexists. eexists. split; [vm_compute; reflexivity|].
  split; [vm_compute; reflexivity|]. split; [vm_compute; reflexivity|].
  split; [reflexivity|]. vm_compute. reflexivity.
Qed.

(** ** The arguments and the modes of [main] *)








(** The three modes on concrete vectors. *)
Example main_modes_examples :
  main sample_externals "crushtool" ["-c"; "weights.txt"; "-d"; "map.bin"] (start sample_fs)
  = Exit 1 (set_cout [OStr "crushtool"; OStr usage_line; endl] (start sample_fs))
  /\ main sample_externals "crushtool" ["-v"] (start sample_fs)
     = Exit 1 (set_cout [OStr "crushtool"; OStr usage_line; endl]
                 (set_verbose 1 (start sample_fs)))
  /\ exists w',
       main sample_externals "crushtool" ["-c"; "weights.txt"] (start sample_fs) = Done 0 w'
       /\ fs w' = sample_fs
       /\ cout w' = [OStr "crushtool"; OStr " successfully compiled '"; OStr "weights.txt";
                     OStr "'.  Use -o file to write it out."; endl].
Proof.
  split; [by vm_compute|]. split; [by vm_compute|].
  eexists. split; [vm_compute; reflexivity|]. split; reflexivity.
Qed.

(** ** The bucket table along a file *)







(** ** The buckets of a whole file *)

























(** The ids the three blocks of [hosts_txt] end up with: the first takes
    -2, the second has declared -1, the third takes -3. *)
Example hosts_bucket_ids :
  assigned_ids hosts_world (children hosts_root) = [-2; -1; -3].
Proof. vm_compute. reflexivity. Qed.


(** ** The weights of the items of a bucket *)













(** In [hosts_txt] the bucket [top] holds [h1], whose two items weigh 2.5
    and 1.0, with weight 3.5, and the device [osd0] with weight 1.0. *)
Example hosts_top_weights :
  exists b,
    buckets (crush hosts_world) !! (-3) = Some b
    /\ b_items b = [-2; 0] /\ b_item_weights b = [229376; 65536]
    /\ fixed_of_float (block_weight before_h1 hosts_h1) = Some 229376.
Proof.
  eexists. split; [vm_compute; reflexivity|]. split; [reflexivity|].
  split; [reflexivity|]. vm_compute. reflexivity.
Qed.

